(** * dtle: MySQL inspector, oracle applier and DDL merge engine

    A shallow embedding of the Go sources
    - [drivers/mysql/mysql/inspect.go]           (package mysql, the Inspector),
    - the Oracle applier                          (package oracle, [ApplierOracle]),
    - the DDL utilities                           (package inspector,
      [mergeAlterToTable], [TableChecker]),
    together with the properties of the design document that concern them.

    Conventions.  Go strings are [string]; a Go [error] is [option error]
    with [None] for [nil]; a Go map is a [gmap]; a Go slice is a header
    (pointer, len, cap) over a backing array kept in an explicit store, so
    that aliasing between slices is visible; runtime panics are results of
    their own. *)

From Stdlib Require Import ZArith Lia Ascii String.
From stdpp Require Import gmap strings list fin_maps pretty.

(** ** Go's [strings] package *)

Module GoStrings.

(** [strings.HasPrefix(s, p)] *)
Fixpoint HasPrefix (s p : string) {struct p} : bool :=
  match p with
  | EmptyString => true
  | String c p' =>
      match s with
      | EmptyString => false
      | String d s' => if Ascii.eqb c d then HasPrefix s' p' else false
      end
  end.

(** [strings.Contains(s, substr)] *)
Fixpoint Contains (s substr : string) : bool :=
  HasPrefix s substr ||
  match s with
  | EmptyString => false
  | String _ s' => Contains s' substr
  end.

Definition upper_ascii (c : ascii) : ascii :=
  let n := nat_of_ascii c in
  if (97 <=? n)%nat && (n <=? 122)%nat then ascii_of_nat (n - 32) else c.

(** [strings.ToUpper(s)], on the ASCII range the server variables use *)
Fixpoint ToUpper (s : string) : string :=
  match s with
  | EmptyString => EmptyString
  | String c s' => String (upper_ascii c) (ToUpper s')
  end.

(** [len(s)] as a Go [int] *)
Definition len (s : string) : Z := Z.of_nat (String.length s).

Lemma append_nil (b : string) : "" +:+ b = b.
Proof. reflexivity. Qed.

Lemma append_cons c (a b : string) : String c a +:+ b = String c (a +:+ b).
Proof. reflexivity. Qed.

Lemma HasPrefix_spec s p :
  HasPrefix s p = true <-> exists post, s = p +:+ post.
Proof.
  revert s. induction p as [|c p IH]; intros s; simpl.
  - split; [intros _; by exists s | done].
  - destruct s as [|d s].
    + split; [done | intros [post Hp]; rewrite append_cons in Hp; discriminate].
    + destruct (Ascii.eqb_spec c d) as [->|Hne].
      * rewrite IH. split; intros [post Hp]; exists post.
        -- by rewrite Hp.
        -- rewrite append_cons in Hp. congruence.
      * split; [done | intros [post Hp]; rewrite append_cons in Hp; congruence].
Qed.

Lemma Contains_spec s sub :
  Contains s sub = true <-> exists pre post, s = pre +:+ sub +:+ post.
Proof.
  induction s as [|d s IH]; simpl.
  - rewrite orb_false_r, HasPrefix_spec. split.
    + intros [post Hp]. by exists "", post.
    + intros [pre [post Hp]]. destruct pre; [by exists post | discriminate].
  - rewrite orb_true_iff, HasPrefix_spec, IH. split.
    + intros [[post Hp] | [pre [post Hp]]].
      * by exists "", post.
      * exists (String d pre), post. by rewrite append_cons, Hp.
    + intros [pre [post Hp]]. destruct pre as [|e pre].
      * left. by exists post.
      * right. exists pre, post. rewrite append_cons in Hp. congruence.
Qed.

Lemma upper_ascii_idemp c : upper_ascii (upper_ascii c) = upper_ascii c.
Proof.
  destruct c as [[] [] [] [] [] [] [] []]; reflexivity.
Qed.

Lemma ToUpper_idemp s : ToUpper (ToUpper s) = ToUpper s.
Proof.
  induction s as [|c s IH]; simpl; [done|]. by rewrite upper_ascii_idemp, IH.
Qed.

Lemma string_length_app (a b : string) :
  String.length (a +:+ b) = (String.length a + String.length b)%nat.
Proof.
  induction a as [|c a IH]; [done|]. rewrite append_cons. simpl. by rewrite IH.
Qed.

Lemma len_app (a b : string) : len (a +:+ b) = (len a + len b)%Z.
Proof. unfold len. rewrite string_length_app. lia. Qed.

Lemma string_app_assoc (a b c : string) : (a +:+ b) +:+ c = a +:+ (b +:+ c).
Proof.
  induction a as [|x a IH]; [done|]. rewrite !append_cons. by rewrite IH.
Qed.

Lemma string_app_empty_r (a : string) : a +:+ "" = a.
Proof.
  induction a as [|x a IH]; [done|]. rewrite append_cons. by rewrite IH.
Qed.

End GoStrings.

(** ** Go errors *)

(** An [error] value, with the text [Error()] gives; [nil] is [None] of
    [option error]. *)
Inductive error : Type := Errorf (msg : string).

Definition Error (e : error) : string := match e with Errorf m => m end.

(** [errors.Wrapf(err, msg)] of github.com/pkg/errors *)
Definition Wrapf (e : error) (msg : string) : error :=
  Errorf (msg +:+ ": " +:+ Error e).

#[global] Instance error_eq_dec : EqDecision error.
Proof. solve_decision. Defined.

(** the levels of hclog *)
Inductive level : Type := LDebug | LInfo | LWarn | LError.

#[global] Instance level_eq_dec : EqDecision level.
Proof. solve_decision. Defined.

Record log_entry : Type := Log { log_level : level; log_msg : string }.

(** ** Go slices over explicit backing arrays

    A slice value is the triple Go keeps: a pointer to its first element
    (an array and an offset in it, or nil), a length and a capacity.  The
    backing arrays live in a store; two slices over one array see each
    other's writes, as in Go. *)

Module GoSlice.

Inductive panic_kind : Type :=
| NilDereference          (* invalid memory address or nil pointer dereference *)
| IndexOutOfRange         (* index out of range [i] with length n *)
| SliceBoundsOutOfRange   (* slice bounds out of range [lo:hi] *)
| DanglingPointer.        (* an address with no object: no Go heap has it *)

(** What evaluating a Go expression gives: a value, or a runtime panic. *)
Inductive go (X : Type) : Type :=
| Panics (k : panic_kind)
| Yields (x : X).
Arguments Panics {X} k.
Arguments Yields {X} x.

Inductive sptr : Type :=
| SNil
| SAt (arr off : nat).

Record slice : Type := Slice { s_ptr : sptr; s_len : nat; s_cap : nat }.

Definition nil_slice : slice := Slice SNil 0 0.

(** [s == nil] *)
Definition is_nil (s : slice) : bool :=
  match s_ptr s with SNil => true | SAt _ _ => false end.

Definition shift (p : sptr) (lo : nat) : sptr :=
  match p with SNil => SNil | SAt a off => SAt a (off + lo) end.

(** [s[lo:hi]]: Go checks [0 <= lo <= hi <= cap(s)]. *)
Definition reslice (s : slice) (lo hi : nat) : go slice :=
  if decide (lo <= hi /\ hi <= s_cap s)
  then Yields (Slice (shift (s_ptr s) lo) (hi - lo) (s_cap s - lo))
  else Panics SliceBoundsOutOfRange.

(** [s[:hi]] and [s[lo:]] *)
Definition slice_to (s : slice) (hi : nat) : go slice := reslice s 0 hi.
Definition slice_from (s : slice) (lo : nat) : go slice := reslice s lo (s_len s).

Section store.
Context {A : Type}.

(** [write_at arr k xs]: [arr] with [xs] copied over positions [k, k + len xs) *)
Definition write_at (arr : list A) (k : nat) (xs : list A) : list A :=
  take k arr ++ xs ++ drop (k + length xs) arr.

(** [s[i]] *)
Definition index (st : list (list A)) (s : slice) (i : nat) : go A :=
  if decide (i < s_len s) then
    match s_ptr s with
    | SNil => Panics DanglingPointer
    | SAt a off =>
        match st !! a ≫= (λ arr : list A, arr !! (off + i)) with
        | Some v => Yields v
        | None => Panics DanglingPointer
        end
    end
  else Panics IndexOutOfRange.

(** [s[i] = v] *)
Definition assign (st : list (list A)) (s : slice) (i : nat) (v : A)
  : go (list (list A)) :=
  if decide (i < s_len s) then
    match s_ptr s with
    | SNil => Panics DanglingPointer
    | SAt a off =>
        match st !! a with
        | Some arr =>
            if decide (off + i < length arr)
            then Yields (<[a := <[off + i := v]> arr]> st)
            else Panics DanglingPointer
        | None => Panics DanglingPointer
        end
    end
  else Panics IndexOutOfRange.

(** the elements [s[0], ..., s[len(s)-1]] *)
Definition elems (st : list (list A)) (s : slice) : go (list A) :=
  match s_ptr s with
  | SNil => if decide (s_len s = 0) then Yields [] else Panics DanglingPointer
  | SAt a off =>
      match st !! a with
      | Some arr =>
          if decide (off + s_len s <= length arr)
          then Yields (take (s_len s) (drop off arr))
          else Panics DanglingPointer
      | None => Panics DanglingPointer
      end
  end.

(** [append(s, xs...)].  When the elements fit the capacity they are written
    in place behind [s], into whatever array [s] lies in; otherwise a new
    array is allocated, of the capacity [grow] picks (the runtime's
    [growslice]), and the old one is left as it is.  [xs] has been read
    before anything is written, which is what [memmove] gives when source
    and destination overlap. *)
Definition append (grow : nat -> nat -> nat) (zero : A)
    (st : list (list A)) (s : slice) (xs : list A) : go (slice * list (list A)) :=
  let n := s_len s + length xs in
  if decide (n <= s_cap s) then
    match s_ptr s with
    | SNil =>
        match xs with
        | [] => Yields (s, st)
        | _ :: _ => Panics DanglingPointer
        end
    | SAt a off =>
        match st !! a with
        | Some arr =>
            if decide (off + s_cap s <= length arr)
            then Yields (Slice (s_ptr s) n (s_cap s),
                         <[a := write_at arr (off + s_len s) xs]> st)
            else Panics DanglingPointer
        | None => Panics DanglingPointer
        end
    end
  else
    match elems st s with
    | Panics k => Panics k
    | Yields old =>
        let c := grow (s_cap s) n in
        Yields (Slice (SAt (length st) 0) n c,
                st ++ [old ++ xs ++ replicate (c - n) zero])
    end.

End store.

(** The capacity rule of Go's [growslice] before rounding to a size class:
    double while small, then grow by a quarter. *)
Definition growslice (oldcap needed : nat) : nat :=
  if decide (oldcap + oldcap < needed) then needed
  else if decide (oldcap < 256) then oldcap + oldcap
  else Nat.max needed (oldcap + (oldcap + 768) / 4).

End GoSlice.

(** ** The DDL merge engine: [mergeAlterToTable] (package inspector) *)

Module Merge.
Import GoSlice.

(** *** The AST of the SQL parser, as far as the merge reads and writes it

    The parser's node types are declared outside this repository.  A node
    that the merge writes to, or that sits behind a slice the merge writes
    to, is an object in the heap below and is named by a pointer; a node the
    merge only reads ([*ColumnName], [*TableName], [*ColumnOption]) is kept
    by value. *)

(** [model.CIStr]: the original string [O] and its lower-cased form [L] *)
Record CIStr : Type := { cis_O : string; cis_L : string }.

(** [CIStr.String()] *)
Definition CIStr_String (c : CIStr) : string := cis_O c.

Record ColumnName : Type :=
  { cn_Schema : CIStr; cn_Table : CIStr; cn_Name : CIStr }.

Record TableName : Type := { tn_Schema : CIStr; tn_Name : CIStr }.

Inductive ColumnOptionType : Type :=
| ColumnOptionNoOption
| ColumnOptionPrimaryKey
| ColumnOptionNotNull
| ColumnOptionAutoIncrement
| ColumnOptionDefaultValue
| ColumnOptionUniqKey
| ColumnOptionNull
| ColumnOptionOnUpdate
| ColumnOptionFulltext
| ColumnOptionComment
| ColumnOptionGenerated
| ColumnOptionReference.

Record ColumnOption : Type := { co_Tp : ColumnOptionType; co_Expr : string }.

Inductive ConstraintType : Type :=
| ConstraintNoConstraint
| ConstraintPrimaryKey
| ConstraintKey
| ConstraintIndex
| ConstraintUniq
| ConstraintUniqKey
| ConstraintUniqIndex
| ConstraintForeignKey
| ConstraintFulltext.

Record Constraint : Type :=
  { cons_Tp : ConstraintType; cons_Name : string; cons_Keys : list ColumnName }.

(** a Go pointer: nil, or the address of an object *)
Definition ref : Type := option nat.

Record ColumnDef : Type :=
  { cd_Name : ColumnName; cd_Tp : string; cd_Options : slice }.

Record CreateTableStmt : Type :=
  { ct_Table : option TableName;
    ct_Cols : slice;
    ct_Constraints : slice;
    ct_Options : string;
    ct_Partition : string }.

Inductive AlterTableType : Type :=
| AlterTableOption
| AlterTableAddColumns
| AlterTableAddConstraint
| AlterTableDropColumn
| AlterTableDropPrimaryKey
| AlterTableDropIndex
| AlterTableDropForeignKey
| AlterTableModifyColumn
| AlterTableChangeColumn
| AlterTableRenameTable
| AlterTableAlterColumn
| AlterTableLock
| AlterTableAlgorithm
| AlterTableRenameIndex
| AlterTableForce.

Record AlterTableSpec : Type :=
  { as_Tp : AlterTableType;
    as_Name : string;
    as_Constraint : ref;
    as_NewTable : option TableName;
    as_NewColumns : list ref;
    as_OldColumnName : option ColumnName;
    as_FromKey : CIStr;
    as_ToKey : CIStr }.

Record AlterTableStmt : Type := { at_Specs : list AlterTableSpec }.

#[global] Instance ColumnOptionType_eq_dec : EqDecision ColumnOptionType.
Proof. solve_decision. Defined.
#[global] Instance ConstraintType_eq_dec : EqDecision ConstraintType.
Proof. solve_decision. Defined.
#[global] Instance AlterTableType_eq_dec : EqDecision AlterTableType.
Proof. solve_decision. Defined.

(** *** The heap *)

Record heap : Type :=
  { colArrays : list (list ref);                   (* arrays of *ColumnDef *)
    consArrays : list (list ref);                  (* arrays of *Constraint *)
    optArrays : list (list (option ColumnOption)); (* arrays of *ColumnOption *)
    columnDefs : list ColumnDef;
    constraintObjs : list Constraint;
    createTables : list CreateTableStmt }.

Definition with_colArrays (h : heap) (v : list (list ref)) : heap :=
  {| colArrays := v; consArrays := consArrays h; optArrays := optArrays h;
     columnDefs := columnDefs h; constraintObjs := constraintObjs h;
     createTables := createTables h |}.
Definition with_consArrays (h : heap) (v : list (list ref)) : heap :=
  {| colArrays := colArrays h; consArrays := v; optArrays := optArrays h;
     columnDefs := columnDefs h; constraintObjs := constraintObjs h;
     createTables := createTables h |}.
Definition with_optArrays (h : heap) (v : list (list (option ColumnOption))) : heap :=
  {| colArrays := colArrays h; consArrays := consArrays h; optArrays := v;
     columnDefs := columnDefs h; constraintObjs := constraintObjs h;
     createTables := createTables h |}.
Definition with_columnDefs (h : heap) (v : list ColumnDef) : heap :=
  {| colArrays := colArrays h; consArrays := consArrays h; optArrays := optArrays h;
     columnDefs := v; constraintObjs := constraintObjs h;
     createTables := createTables h |}.
Definition with_constraintObjs (h : heap) (v : list Constraint) : heap :=
  {| colArrays := colArrays h; consArrays := consArrays h; optArrays := optArrays h;
     columnDefs := columnDefs h; constraintObjs := v;
     createTables := createTables h |}.
Definition with_createTables (h : heap) (v : list CreateTableStmt) : heap :=
  {| colArrays := colArrays h; consArrays := consArrays h; optArrays := optArrays h;
     columnDefs := columnDefs h; constraintObjs := constraintObjs h;
     createTables := v |}.

(** *** Go statements: heap passing, panics and [return]

    [M R A] is a statement inside a function whose result type is [R]: it
    panics, or executes a [return r], or falls through with a value. *)

Inductive result (R A : Type) : Type :=
| Panicked (k : panic_kind)
| Returned (r : R) (h : heap)
| Normal (a : A) (h : heap).
Arguments Panicked {R A} k.
Arguments Returned {R A} r h.
Arguments Normal {R A} a h.

Definition M (R A : Type) : Type := heap -> result R A.

#[global] Instance M_ret {R} : MRet (M R) := λ A a h, Normal a h.
#[global] Instance M_bind {R} : MBind (M R) := λ A B f m h,
  match m h with
  | Panicked k => Panicked k
  | Returned r h' => Returned r h'
  | Normal a h' => f a h'
  end.

Definition return_ {R A} (r : R) : M R A := λ h, Returned r h.
Definition panic {R A} (k : panic_kind) : M R A := λ _, Panicked k.

Definition eval {R X} (f : heap -> go X) : M R X := λ h,
  match f h with Panics k => Panicked k | Yields x => Normal x h end.

Definition exec {R X} (f : heap -> go (X * heap)) : M R X := λ h,
  match f h with Panics k => Panicked k | Yields (x, h') => Normal x h' end.

(** a call [f(...)] of a function with body [body] *)
Definition call {R X} (body : M X X) : M R X := λ h,
  match body h with
  | Panicked k => Panicked k
  | Returned x h' => Normal x h'
  | Normal x h' => Normal x h'
  end.

(** [for _, x := range l { body }] *)
Fixpoint for_each {R X} (l : list X) (body : X -> M R unit) : M R unit :=
  match l with
  | [] => mret ()
  | x :: l' => body x ;; for_each l' body
  end.

(** the same with the local variables the body assigns threaded as [s] *)
Fixpoint for_fold {R X S} (l : list X) (s : S) (body : X -> S -> M R S) : M R S :=
  match l with
  | [] => mret s
  | x :: l' => s' ← body x s; for_fold l' s' body
  end.

Definition modify {R} (f : heap -> heap) : M R unit := λ h, Normal () (f h).

(** [*p] *)
Definition deref {R X} (sel : heap -> list X) (p : ref) : M R X := λ h,
  match p with
  | None => Panicked NilDereference
  | Some a =>
      match sel h !! a with
      | Some x => Normal x h
      | None => Panicked DanglingPointer
      end
  end.

(** the pointee of a pointer kept by value *)
Definition pointee {R X} (p : option X) : M R X :=
  match p with Some x => mret x | None => panic NilDereference end.

(** [l[i]] on a slice kept by value *)
Definition list_index {R X} (l : list X) (i : nat) : M R X :=
  match l !! i with Some x => mret x | None => panic IndexOutOfRange end.

(** *** Field reads and writes *)

Section accessors.
Context {R : Type}.

Definition get_table (t : ref) : M R CreateTableStmt := deref createTables t.

Definition put_table (t : ref) (f : CreateTableStmt -> CreateTableStmt) : M R unit :=
  v ← deref createTables t;
  match t with
  | Some a => modify (λ h, with_createTables h (<[a := f v]> (createTables h)))
  | None => panic NilDereference
  end.

Definition get_column (c : ref) : M R ColumnDef := deref columnDefs c.

Definition put_column (c : ref) (f : ColumnDef -> ColumnDef) : M R unit :=
  v ← deref columnDefs c;
  match c with
  | Some a => modify (λ h, with_columnDefs h (<[a := f v]> (columnDefs h)))
  | None => panic NilDereference
  end.

Definition get_constraint (c : ref) : M R Constraint := deref constraintObjs c.

Definition put_constraint (c : ref) (f : Constraint -> Constraint) : M R unit :=
  v ← deref constraintObjs c;
  match c with
  | Some a => modify (λ h, with_constraintObjs h (<[a := f v]> (constraintObjs h)))
  | None => panic NilDereference
  end.

(** [t.Cols], [t.Cols = s], and so on *)
Definition get_Cols (t : ref) : M R slice := v ← get_table t; mret (ct_Cols v).
Definition set_Cols (t : ref) (s : slice) : M R unit :=
  put_table t (λ v, {| ct_Table := ct_Table v; ct_Cols := s;
                       ct_Constraints := ct_Constraints v;
                       ct_Options := ct_Options v; ct_Partition := ct_Partition v |}).
Definition get_Constraints (t : ref) : M R slice :=
  v ← get_table t; mret (ct_Constraints v).
Definition set_Constraints (t : ref) (s : slice) : M R unit :=
  put_table t (λ v, {| ct_Table := ct_Table v; ct_Cols := ct_Cols v;
                       ct_Constraints := s;
                       ct_Options := ct_Options v; ct_Partition := ct_Partition v |}).
Definition set_Table (t : ref) (n : option TableName) : M R unit :=
  put_table t (λ v, {| ct_Table := n; ct_Cols := ct_Cols v;
                       ct_Constraints := ct_Constraints v;
                       ct_Options := ct_Options v; ct_Partition := ct_Partition v |}).
Definition get_Options (c : ref) : M R slice := v ← get_column c; mret (cd_Options v).
Definition set_Options (c : ref) (s : slice) : M R unit :=
  put_column c (λ v, {| cd_Name := cd_Name v; cd_Tp := cd_Tp v; cd_Options := s |}).
Definition set_Name (c : ref) (n : string) : M R unit :=
  put_constraint c (λ v, {| cons_Tp := cons_Tp v; cons_Name := n;
                            cons_Keys := cons_Keys v |}).

(** [col.Name.Name.L] *)
Definition col_L (c : ref) : M R string :=
  v ← get_column c; mret (cis_L (cn_Name (cd_Name v))).

(** [&ast.CreateTableStmt{...}] *)
Definition new_table (v : CreateTableStmt) : M R ref := λ h,
  Normal (Some (length (createTables h)))
         (with_createTables h (createTables h ++ [v])).

(** slices of [*ColumnDef] *)
Definition cols_index (s : slice) (i : nat) : M R ref :=
  eval (λ h, index (colArrays h) s i).
Definition cols_assign (s : slice) (i : nat) (v : ref) : M R unit :=
  exec (λ h, match assign (colArrays h) s i v with
             | Panics k => Panics k
             | Yields st => Yields ((), with_colArrays h st)
             end).
Definition cols_elems (s : slice) : M R (list ref) :=
  eval (λ h, elems (colArrays h) s).

(** slices of [*Constraint] *)
Definition cons_index (s : slice) (i : nat) : M R ref :=
  eval (λ h, index (consArrays h) s i).
Definition cons_elems (s : slice) : M R (list ref) :=
  eval (λ h, elems (consArrays h) s).

(** slices of [*ColumnOption] *)
Definition opts_index (s : slice) (i : nat) : M R (option ColumnOption) :=
  eval (λ h, index (optArrays h) s i).
Definition opts_assign (s : slice) (i : nat) (v : option ColumnOption) : M R unit :=
  exec (λ h, match assign (optArrays h) s i v with
             | Panics k => Panics k
             | Yields st => Yields ((), with_optArrays h st)
             end).
Definition opts_elems (s : slice) : M R (list (option ColumnOption)) :=
  eval (λ h, elems (optArrays h) s).

Section appends.
Variable grow : nat -> nat -> nat.

Definition cols_append (s : slice) (xs : list ref) : M R slice :=
  exec (λ h, match append grow None (colArrays h) s xs with
             | Panics k => Panics k
             | Yields (s', st) => Yields (s', with_colArrays h st)
             end).
Definition cons_append (s : slice) (xs : list ref) : M R slice :=
  exec (λ h, match append grow None (consArrays h) s xs with
             | Panics k => Panics k
             | Yields (s', st) => Yields (s', with_consArrays h st)
             end).
Definition opts_append (s : slice) (xs : list (option ColumnOption)) : M R slice :=
  exec (λ h, match append grow None (optArrays h) s xs with
             | Panics k => Panics k
             | Yields (s', st) => Yields (s', with_optArrays h st)
             end).

(** [t.Cols = append(t.Cols[:i], t.Cols[i+1:]...)] *)
Definition remove_col (t : ref) (i : nat) : M R unit :=
  c1 ← get_Cols t;
  dst ← eval (λ _, slice_to c1 i);
  c2 ← get_Cols t;
  src ← eval (λ _, slice_from c2 (i + 1));
  xs ← cols_elems src;
  s' ← cols_append dst xs;
  set_Cols t s'.

(** [t.Constraints = append(t.Constraints[:i], t.Constraints[i+1:]...)] *)
Definition remove_constraint (t : ref) (i : nat) : M R unit :=
  c1 ← get_Constraints t;
  dst ← eval (λ _, slice_to c1 i);
  c2 ← get_Constraints t;
  src ← eval (λ _, slice_from c2 (i + 1));
  xs ← cons_elems src;
  s' ← cons_append dst xs;
  set_Constraints t s'.

(** [col.Options = append(col.Options[:i], col.Options[i+1:]...)] *)
Definition remove_option (col : ref) (i : nat) : M R unit :=
  o1 ← get_Options col;
  dst ← eval (λ _, slice_to o1 i);
  o2 ← get_Options col;
  src ← eval (λ _, slice_from o2 (i + 1));
  xs ← opts_elems src;
  s' ← opts_append dst xs;
  set_Options col s'.

End appends.
End accessors.

(** *** The helpers of [mergeAlterToTable] *)

(** [getAlterTableSpecByTp(specs, ts...)] *)
Definition getAlterTableSpecByTp (specs : list AlterTableSpec)
    (ts : list AlterTableType) : list AlterTableSpec :=
  flat_map (λ spec,
    flat_map (λ tp, if decide (as_Tp spec = tp) then [spec] else []) ts) specs.

(** [HasOneInOptions(Options, opTp...)] *)
Definition HasOneInOptions {R} (Options : slice) (opTp : list ColumnOptionType)
  : M R bool :=
  call (for_each opTp (λ tp,
          for_each (seq 0 (s_len Options)) (λ i,
            op ← opts_index Options i;
            o ← pointee op;
            if decide (tp = co_Tp o) then return_ true else mret ())) ;;
        return_ false).

(** [GetPrimaryKey(stmt)]: the names of the primary-key columns and [hasPk] *)
Definition GetPrimaryKey {R} (stmt : ref) : M R (gset string * bool) :=
  constraints ← get_Constraints stmt;
  found ← for_fold (seq 0 (s_len constraints)) ((∅ : gset string), false)
    (λ i (acc : gset string * bool),
       constraint ← cons_index constraints i;
       c ← get_constraint constraint;
       if decide (cons_Tp c = ConstraintPrimaryKey)
       then mret (foldl (λ pk col, {[ cis_L (cn_Name col) ]} ∪ pk) acc.1 (cons_Keys c),
                  true)
       else mret acc);
  if found.2 : bool then mret found else
  cols ← get_Cols stmt;
  for_fold (seq 0 (s_len cols)) found
    (λ i (acc : gset string * bool),
       col ← cols_index cols i;
       opts ← get_Options col;
       has ← HasOneInOptions opts [ColumnOptionPrimaryKey];
       if has : bool then
         name ← col_L col;
         mret ({[ name ]} ∪ acc.1, true)
       else mret acc).

(** [hasPrimaryKey(stmt)] *)
Definition hasPrimaryKey {R} (stmt : ref) : M R bool :=
  found ← GetPrimaryKey stmt; mret found.2.

(** *** [mergeAlterToTable], one definition per group of specifications *)

(** what [mergeAlterToTable] returns: a pointer to a CreateTableStmt and an error *)
Definition merged : Type := ref * option error.

Section mergeAlterToTable.
Variable grow : nat -> nat -> nat.
Variables oldTable newTable : ref.

(** [AlterTableRenameTable] *)
Definition renameTable (spec : AlterTableSpec) : M merged unit :=
  set_Table newTable (as_NewTable spec).

(** [AlterTableDropColumn] *)
Definition dropColumn (spec : AlterTableSpec) : M merged unit :=
  cols ← get_Cols newTable;
  colExists ← for_fold (seq 0 (s_len cols)) false (λ i colExists,
    col ← cols_index cols i;
    name ← col_L col;
    old ← pointee (as_OldColumnName spec);
    if decide (name = cis_L (cn_Name old)) then
      remove_col grow newTable i ;; mret true
    else mret colExists);
  if colExists : bool then mret () else return_ (oldTable, None).

(** [AlterTableChangeColumn] *)
Definition changeColumn (spec : AlterTableSpec) : M merged unit :=
  cols ← get_Cols newTable;
  colExists ← for_fold (seq 0 (s_len cols)) false (λ i colExists,
    col ← cols_index cols i;
    name ← col_L col;
    old ← pointee (as_OldColumnName spec);
    if decide (name = cis_L (cn_Name old)) then
      cur ← get_Cols newTable;
      new ← list_index (as_NewColumns spec) 0;
      cols_assign cur i new ;; mret true
    else mret colExists);
  if colExists : bool then mret () else return_ (oldTable, None).

(** [AlterTableModifyColumn] *)
Definition modifyColumn (spec : AlterTableSpec) : M merged unit :=
  cols ← get_Cols newTable;
  colExists ← for_fold (seq 0 (s_len cols)) false (λ i colExists,
    col ← cols_index cols i;
    name ← col_L col;
    new ← list_index (as_NewColumns spec) 0;
    newName ← col_L new;
    if decide (name = newName) then
      cur ← get_Cols newTable;
      new ← list_index (as_NewColumns spec) 0;
      cols_assign cur i new ;; mret true
    else mret colExists);
  if colExists : bool then mret () else return_ (oldTable, None).

(** [AlterTableAlterColumn]: drop or set the default value *)
Definition alterColumn (spec : AlterTableSpec) : M merged unit :=
  newCol ← list_index (as_NewColumns spec) 0;
  cols ← get_Cols newTable;
  colExists ← for_fold (seq 0 (s_len cols)) false (λ i colExists,
    col ← cols_index cols i;
    name ← col_L col;
    newName ← col_L newCol;
    if decide (name = newName) then
      newOpts ← get_Options newCol;
      (if is_nil newOpts then
         opts ← get_Options col;
         for_each (seq 0 (s_len opts)) (λ i,
           op ← opts_index opts i;
           o ← pointee op;
           if decide (co_Tp o = ColumnOptionDefaultValue)
           then remove_option grow col i else mret ())
       else
         opts ← get_Options col;
         has ← HasOneInOptions opts [ColumnOptionDefaultValue];
         if has : bool then
           opts ← get_Options col;
           for_each (seq 0 (s_len opts)) (λ i,
             op ← opts_index opts i;
             o ← pointee op;
             if decide (co_Tp o = ColumnOptionDefaultValue) then
               cur ← get_Options col;
               newOpts ← get_Options newCol;
               v ← opts_index newOpts 0;
               opts_assign cur i v
             else mret ())
         else
           cur ← get_Options col;
           newOpts ← get_Options newCol;
           xs ← opts_elems newOpts;
           s' ← opts_append grow cur xs;
           set_Options col s') ;;
      mret true
    else mret colExists);
  if colExists : bool then mret () else return_ (oldTable, None).

(** [AlterTableAddColumns] *)
Definition addColumns (spec : AlterTableSpec) : M merged unit :=
  for_each (as_NewColumns spec) (λ newCol,
    cols ← get_Cols newTable;
    colExist ← for_fold (seq 0 (s_len cols)) false (λ i colExist,
      col ← cols_index cols i;
      name ← col_L col;
      newName ← col_L newCol;
      if decide (name = newName) then mret true else mret colExist);
    if colExist : bool then return_ (oldTable, None) else
    cur ← get_Cols newTable;
    s' ← cols_append grow cur [newCol];
    set_Cols newTable s').

(** [AlterTableDropPrimaryKey] *)
Definition dropPrimaryKey (spec : AlterTableSpec) : M merged unit :=
  hasPk ← hasPrimaryKey newTable;
  if negb hasPk then return_ (oldTable, None) else
  constraints ← get_Constraints newTable;
  for_each (seq 0 (s_len constraints)) (λ i,
    constraint ← cons_index constraints i;
    c ← get_constraint constraint;
    if decide (cons_Tp c = ConstraintPrimaryKey)
    then remove_constraint grow newTable i else mret ()) ;;
  cols ← get_Cols newTable;
  for_each (seq 0 (s_len cols)) (λ j,
    col ← cols_index cols j;
    opts ← get_Options col;
    for_each (seq 0 (s_len opts)) (λ i,
      op ← opts_index opts i;
      o ← pointee op;
      if decide (co_Tp o = ColumnOptionPrimaryKey)
      then remove_option grow col i else mret ())).

(** [AlterTableDropIndex] *)
Definition dropIndex (spec : AlterTableSpec) : M merged unit :=
  let indexName := as_Name spec in
  constraints ← get_Constraints newTable;
  constraintExists ← for_fold (seq 0 (s_len constraints)) false (λ i constraintExists,
    constraint ← cons_index constraints i;
    c ← get_constraint constraint;
    if decide (cons_Name c = indexName) then
      remove_constraint grow newTable i ;; mret true
    else mret constraintExists);
  if constraintExists : bool then mret () else return_ (oldTable, None).

(** [AlterTableRenameIndex] *)
Definition renameIndex (spec : AlterTableSpec) : M merged unit :=
  let oldName := as_FromKey spec in
  let newName := as_ToKey spec in
  constraints ← get_Constraints newTable;
  constraintExists ← for_fold (seq 0 (s_len constraints)) false (λ i constraintExists,
    constraint ← cons_index constraints i;
    c ← get_constraint constraint;
    if decide (cons_Name c = CIStr_String oldName) then
      set_Name constraint (CIStr_String newName) ;; mret true
    else mret constraintExists);
  if constraintExists : bool then mret () else return_ (oldTable, None).

(** [AlterTableAddConstraint] *)
Definition addConstraint (spec : AlterTableSpec) : M merged unit :=
  sc ← get_constraint (as_Constraint spec);
  if decide (cons_Tp sc = ConstraintPrimaryKey) then
    hasPk ← hasPrimaryKey newTable;
    if hasPk : bool then return_ (oldTable, None) else
    cur ← get_Constraints newTable;
    s' ← cons_append grow cur [as_Constraint spec];
    set_Constraints newTable s'
  else
    constraints ← get_Constraints newTable;
    constraintExists ← for_fold (seq 0 (s_len constraints)) false (λ i constraintExists,
      constraint ← cons_index constraints i;
      c ← get_constraint constraint;
      sc ← get_constraint (as_Constraint spec);
      if decide (cons_Name c = cons_Name sc) then mret true else mret constraintExists);
    if constraintExists : bool then return_ (oldTable, None) else
    cur ← get_Constraints newTable;
    s' ← cons_append grow cur [as_Constraint spec];
    set_Constraints newTable s'.

(** the groups in the order the function runs them *)
Definition merge_groups (specs : list AlterTableSpec) : M merged unit :=
  for_each (getAlterTableSpecByTp specs [AlterTableRenameTable]) renameTable ;;
  for_each (getAlterTableSpecByTp specs [AlterTableDropColumn]) dropColumn ;;
  for_each (getAlterTableSpecByTp specs [AlterTableChangeColumn]) changeColumn ;;
  for_each (getAlterTableSpecByTp specs [AlterTableModifyColumn]) modifyColumn ;;
  for_each (getAlterTableSpecByTp specs [AlterTableAlterColumn]) alterColumn ;;
  for_each (getAlterTableSpecByTp specs [AlterTableAddColumns]) addColumns ;;
  for_each (getAlterTableSpecByTp specs [AlterTableDropPrimaryKey]) dropPrimaryKey ;;
  for_each (getAlterTableSpecByTp specs [AlterTableDropIndex]) dropIndex ;;
  for_each (getAlterTableSpecByTp specs [AlterTableRenameIndex]) renameIndex ;;
  for_each (getAlterTableSpecByTp specs [AlterTableAddConstraint]) addConstraint.

End mergeAlterToTable.

(** how a call ends: with a panic, or with its results and the heap it leaves *)
Inductive outcome (R : Type) : Type :=
| Panic (k : panic_kind)
| Done (r : R) (h : heap).
Arguments Panic {R} k.
Arguments Done {R} r h.

Definition run {R} (body : M R R) (h : heap) : outcome R :=
  match body h with
  | Panicked k => Panic k
  | Returned r h' => Done r h'
  | Normal r h' => Done r h'
  end.

(** [mergeAlterToTable(oldTable, alterTable)] *)
Definition mergeAlterToTable (grow : nat -> nat -> nat)
    (oldTable : ref) (alterTable : AlterTableStmt) : heap -> outcome merged :=
  run (old ← get_table oldTable;
       newTable ← new_table {| ct_Table := ct_Table old;
                               ct_Cols := ct_Cols old;
                               ct_Constraints := ct_Constraints old;
                               ct_Options := ct_Options old;
                               ct_Partition := ct_Partition old |};
       merge_groups grow oldTable newTable (at_Specs alterTable) ;;
       return_ (newTable, None)).

(** *** Reading a table back

    What a reader of the AST sees behind a [*ast.CreateTableStmt]: the
    columns and constraints its slices hold at that moment. *)

Record ColumnView : Type :=
  { cv_Name : ColumnName; cv_Tp : string; cv_Options : list (option ColumnOption) }.

Record TableView : Type :=
  { tv_Table : option TableName;
    tv_Cols : list ColumnView;
    tv_Constraints : list Constraint;
    tv_Options : string;
    tv_Partition : string }.

Fixpoint for_map {R X Y} (l : list X) (f : X -> M R Y) : M R (list Y) :=
  match l with
  | [] => mret []
  | x :: l' => y ← f x; ys ← for_map l' f; mret (y :: ys)
  end.

Definition read_column {R} (c : ref) : M R ColumnView :=
  cd ← get_column c;
  opts ← opts_elems (cd_Options cd);
  mret {| cv_Name := cd_Name cd; cv_Tp := cd_Tp cd; cv_Options := opts |}.

Definition read_table {R} (t : ref) : M R TableView :=
  v ← get_table t;
  cols ← cols_elems (ct_Cols v);
  cvs ← for_map cols read_column;
  cons ← cons_elems (ct_Constraints v);
  cs ← for_map cons get_constraint;
  mret {| tv_Table := ct_Table v; tv_Cols := cvs; tv_Constraints := cs;
          tv_Options := ct_Options v; tv_Partition := ct_Partition v |}.

Definition view (t : ref) (h : heap) : option TableView :=
  match run (read_table t) h with
  | Done v _ => Some v
  | Panic _ => None
  end.

Definition column_names (v : TableView) : list string :=
  map (λ c, cis_O (cn_Name (cv_Name c))) (tv_Cols v).

Definition constraint_names (v : TableView) : list string :=
  map cons_Name (tv_Constraints v).

(** *** Two tables and two statements, as the parser builds them *)

Definition ci (s : string) : CIStr := {| cis_O := s; cis_L := s |}.

Definition column_name (s : string) : ColumnName :=
  {| cn_Schema := ci ""; cn_Table := ci ""; cn_Name := ci s |}.

Definition int_column (s : string) : ColumnDef :=
  {| cd_Name := column_name s; cd_Tp := "int(11)"; cd_Options := nil_slice |}.

Definition alter_spec (tp : AlterTableType) : AlterTableSpec :=
  {| as_Tp := tp; as_Name := ""; as_Constraint := None; as_NewTable := None;
     as_NewColumns := []; as_OldColumnName := None;
     as_FromKey := ci ""; as_ToKey := ci "" |}.

(** [DROP COLUMN name] *)
Definition drop_column (name : string) : AlterTableSpec :=
  {| as_Tp := AlterTableDropColumn; as_Name := ""; as_Constraint := None;
     as_NewTable := None; as_NewColumns := [];
     as_OldColumnName := Some (column_name name);
     as_FromKey := ci ""; as_ToKey := ci "" |}.

(** [DROP INDEX name] *)
Definition drop_index (name : string) : AlterTableSpec :=
  {| as_Tp := AlterTableDropIndex; as_Name := name; as_Constraint := None;
     as_NewTable := None; as_NewColumns := []; as_OldColumnName := None;
     as_FromKey := ci ""; as_ToKey := ci "" |}.

(** [CREATE TABLE t (a INT, b INT)], at address 0 *)
Definition heap_t_a_b : heap :=
  {| colArrays := [[Some 0; Some 1]];
     consArrays := [];
     optArrays := [];
     columnDefs := [int_column "a"; int_column "b"];
     constraintObjs := [];
     createTables :=
       [{| ct_Table := Some {| tn_Schema := ci ""; tn_Name := ci "t" |};
           ct_Cols := Slice (SAt 0 0) 2 2;
           ct_Constraints := nil_slice;
           ct_Options := ""; ct_Partition := "" |}] |}.

(** [ALTER TABLE t DROP COLUMN a, DROP INDEX nope] *)
Definition alter_drop_a_drop_nope : AlterTableStmt :=
  {| at_Specs := [drop_column "a"; drop_index "nope"] |}.

(** [CREATE TABLE c (id INT, a INT, KEY fk1 (a),
      CONSTRAINT fk1 FOREIGN KEY (a) REFERENCES p (id))], at address 0: what
    SHOW CREATE TABLE prints for a named foreign key, whose index MySQL
    creates under the same name *)
Definition heap_c_fk1 : heap :=
  {| colArrays := [[Some 0; Some 1]];
     consArrays := [[Some 0; Some 1]];
     optArrays := [];
     columnDefs := [int_column "id"; int_column "a"];
     constraintObjs :=
       [{| cons_Tp := ConstraintIndex; cons_Name := "fk1";
           cons_Keys := [column_name "a"] |};
        {| cons_Tp := ConstraintForeignKey; cons_Name := "fk1";
           cons_Keys := [column_name "a"] |}];
     createTables :=
       [{| ct_Table := Some {| tn_Schema := ci ""; tn_Name := ci "c" |};
           ct_Cols := Slice (SAt 0 0) 2 2;
           ct_Constraints := Slice (SAt 0 0) 2 2;
           ct_Options := ""; ct_Partition := "" |}] |}.

(** [ALTER TABLE c DROP INDEX fk1] *)
Definition alter_drop_fk1 : AlterTableStmt :=
  {| at_Specs := [drop_index "fk1"] |}.

(** [ADD COLUMN], the new column being the object at [c] *)
Definition add_column (c : ref) : AlterTableSpec :=
  {| as_Tp := AlterTableAddColumns; as_Name := ""; as_Constraint := None;
     as_NewTable := None; as_NewColumns := [c]; as_OldColumnName := None;
     as_FromKey := ci ""; as_ToKey := ci "" |}.

(** [ALTER TABLE t DROP COLUMN c] *)
Definition alter_drop_c : AlterTableStmt :=
  {| at_Specs := [drop_column "c"] |}.

(** [CREATE TABLE t (a INT)], at address 0, and the two column definitions
    of the statement below, at addresses 1 and 2 *)
Definition heap_t_a : heap :=
  {| colArrays := [[Some 0]];
     consArrays := [];
     optArrays := [];
     columnDefs := [int_column "a"; int_column "b"; int_column "b"];
     constraintObjs := [];
     createTables :=
       [{| ct_Table := Some {| tn_Schema := ci ""; tn_Name := ci "t" |};
           ct_Cols := Slice (SAt 0 0) 1 1;
           ct_Constraints := nil_slice;
           ct_Options := ""; ct_Partition := "" |}] |}.

(** [ALTER TABLE t ADD COLUMN b INT, ADD COLUMN b INT] *)
Definition alter_add_b_twice : AlterTableStmt :=
  {| at_Specs := [add_column (Some 1); add_column (Some 2)] |}.

(** [ALTER TABLE t ADD COLUMN b INT] *)
Definition alter_add_b : AlterTableStmt :=
  {| at_Specs := [add_column (Some 1)] |}.

(** [spares t m]: the statement [m] writes no CreateTableStmt but the one at
    address [t]. *)
Definition spares {R A} (t : nat) (m : M R A) : Prop :=
  ∀ h, match m h with
       | Panicked _ => True
       | Returned _ h' | Normal _ h' =>
           ∀ a, a ≠ t -> createTables h' !! a = createTables h !! a
       end.

(** *** Facts *)

Lemma bind_unfold {R A B} (m : M R A) (f : A -> M R B) (h : heap) :
  (m ≫= f) h =
  match m h with
  | Panicked k => Panicked k
  | Returned r h' => Returned r h'
  | Normal a h' => f a h'
  end.
Proof. reflexivity. Qed.

(** [only_returns r m]: every [return] the statement [m] executes
    returns [r]. *)
Definition only_returns {R A} (r : R) (m : M R A) : Prop :=
  ∀ h r' h', m h = Returned r' h' -> r' = r.

Section only_returns.
Context {R : Type} (r : R).

Lemma only_returns_bind {A B} (m : M R A) (f : A -> M R B) :
  only_returns r m -> (∀ a, only_returns r (f a)) -> only_returns r (m ≫= f).
Proof.
  intros Hm Hf h r' h'. rewrite bind_unfold.
  destruct (m h) as [k|r1 h1|a h1] eqn:E; intros H.
  - discriminate.
  - injection H as <- <-. by eapply Hm.
  - by eapply Hf.
Qed.

Lemma only_returns_mret {A} (a : A) : only_returns r (mret a : M R A).
Proof. by intros h r' h'. Qed.

Lemma only_returns_return {A} : only_returns r (return_ r : M R A).
Proof. intros h r' h' H. by injection H as <-. Qed.

Lemma only_returns_panic {A} k : only_returns r (panic k : M R A).
Proof. by intros h r' h'. Qed.

Lemma only_returns_modify f : only_returns r (modify f : M R unit).
Proof. by intros h r' h'. Qed.

Lemma only_returns_eval {X} (f : heap -> go X) : only_returns r (eval f : M R X).
Proof. intros h r' h'. unfold eval. by destruct (f h). Qed.

Lemma only_returns_exec {X} (f : heap -> go (X * heap)) :
  only_returns r (exec f : M R X).
Proof. intros h r' h'. unfold exec. by destruct (f h) as [|[]]. Qed.

Lemma only_returns_call {X} (body : M X X) : only_returns r (call body : M R X).
Proof. intros h r' h'. unfold call. by destruct (body h). Qed.

Lemma only_returns_deref {X} (sel : heap -> list X) p :
  only_returns r (deref sel p : M R X).
Proof.
  intros h r' h'. unfold deref. destruct p; [|done]. by destruct (sel h !! _).
Qed.

Lemma only_returns_pointee {X} (p : option X) : only_returns r (pointee p : M R X).
Proof. destruct p; [apply only_returns_mret | apply only_returns_panic]. Qed.

Lemma only_returns_list_index {X} (l : list X) i :
  only_returns r (list_index l i : M R X).
Proof.
  unfold list_index. destruct (l !! i); [apply only_returns_mret | apply only_returns_panic].
Qed.

Lemma only_returns_new_table v : only_returns r (new_table v : M R ref).
Proof. by intros h r' h'. Qed.

Lemma only_returns_for_each {X} (l : list X) (body : X -> M R unit) :
  (∀ x, only_returns r (body x)) -> only_returns r (for_each l body).
Proof.
  intros Hb. induction l as [|x l IH]; simpl.
  - apply only_returns_mret.
  - apply only_returns_bind; [apply Hb | intros _; apply IH].
Qed.

Lemma only_returns_for_fold {X S} (l : list X) (s : S) (body : X -> S -> M R S) :
  (∀ x s, only_returns r (body x s)) -> only_returns r (for_fold l s body).
Proof.
  intros Hb. revert s. induction l as [|x l IH]; intros s; simpl.
  - apply only_returns_mret.
  - apply only_returns_bind; [apply Hb | intros s'; apply IH].
Qed.

End only_returns.

Create HintDb returns.

#[local] Hint Resolve only_returns_mret only_returns_return only_returns_panic
  only_returns_modify only_returns_eval only_returns_exec only_returns_call
  only_returns_deref only_returns_pointee only_returns_list_index
  only_returns_new_table : returns.

(** one step of the syntax-directed proof that a statement only returns [r] *)
Ltac returns_step :=
  match goal with
  | |- only_returns _ (mbind _ _) => apply only_returns_bind; [|intros]
  | |- only_returns _ (for_each _ _) => apply only_returns_for_each; intros
  | |- only_returns _ (for_fold _ _ _) => apply only_returns_for_fold; intros
  | |- only_returns _ (if ?b then _ else _) => destruct b
  | |- only_returns _ (match ?p with Some _ => _ | None => _ end) => destruct p
  | |- only_returns _ _ => solve [eauto with returns]
  end.

Ltac returns_tac := repeat returns_step.

Ltac unfold_accessors :=
  unfold remove_col, remove_constraint, remove_option,
    cols_append, cons_append, opts_append,
    cols_index, cols_assign, cols_elems, cons_index, cons_elems,
    opts_index, opts_assign, opts_elems,
    hasPrimaryKey, GetPrimaryKey, HasOneInOptions, col_L,
    get_Cols, set_Cols, get_Constraints, set_Constraints, set_Table,
    get_Options, set_Options, set_Name,
    get_table, put_table, get_column, put_column, get_constraint, put_constraint.

Section returns_old.
Variable grow : nat -> nat -> nat.
Variables oldTable newTable : ref.

Lemma renameTable_returns spec :
  only_returns (oldTable, None) (renameTable newTable spec).
Proof. unfold renameTable. unfold_accessors. returns_tac. Qed.

Lemma dropColumn_returns spec :
  only_returns (oldTable, None) (dropColumn grow oldTable newTable spec).
Proof. unfold dropColumn. unfold_accessors. returns_tac. Qed.

Lemma changeColumn_returns spec :
  only_returns (oldTable, None) (changeColumn oldTable newTable spec).
Proof. unfold changeColumn. unfold_accessors. returns_tac. Qed.

Lemma modifyColumn_returns spec :
  only_returns (oldTable, None) (modifyColumn oldTable newTable spec).
Proof. unfold modifyColumn. unfold_accessors. returns_tac. Qed.

Lemma alterColumn_returns spec :
  only_returns (oldTable, None) (alterColumn grow oldTable newTable spec).
Proof. unfold alterColumn. unfold_accessors. returns_tac. Qed.

Lemma addColumns_returns spec :
  only_returns (oldTable, None) (addColumns grow oldTable newTable spec).
Proof. unfold addColumns. unfold_accessors. returns_tac. Qed.

Lemma dropPrimaryKey_returns spec :
  only_returns (oldTable, None) (dropPrimaryKey grow oldTable newTable spec).
Proof. unfold dropPrimaryKey. unfold_accessors. returns_tac. Qed.

Lemma dropIndex_returns spec :
  only_returns (oldTable, None) (dropIndex grow oldTable newTable spec).
Proof. unfold dropIndex. unfold_accessors. returns_tac. Qed.

Lemma renameIndex_returns spec :
  only_returns (oldTable, None) (renameIndex oldTable newTable spec).
Proof. unfold renameIndex. unfold_accessors. returns_tac. Qed.

Lemma addConstraint_returns spec :
  only_returns (oldTable, None) (addConstraint grow oldTable newTable spec).
Proof. unfold addConstraint. unfold_accessors. returns_tac. Qed.

Lemma merge_groups_returns specs :
  only_returns (oldTable, None) (merge_groups grow oldTable newTable specs).
Proof.
  unfold merge_groups.
  repeat (apply only_returns_bind; [|intros _]);
    apply only_returns_for_each; intros spec;
    auto using renameTable_returns, dropColumn_returns, changeColumn_returns,
      modifyColumn_returns, alterColumn_returns, addColumns_returns,
      dropPrimaryKey_returns, dropIndex_returns, renameIndex_returns,
      addConstraint_returns.
Qed.

End returns_old.

(** X5.  Whenever [mergeAlterToTable] returns, its error is nil, and the
    table it returns is the one it was given or the one it allocated. *)
Lemma mergeAlterToTable_error_nil grow oldTable alterTable h p e h' :
  mergeAlterToTable grow oldTable alterTable h = Done (p, e) h' ->
  e = None /\ (p = oldTable \/ p = Some (length (createTables h))).
Proof.
  unfold mergeAlterToTable, run. rewrite bind_unfold.
  unfold get_table at 1. unfold deref at 1.
  destruct oldTable as [a|]; [|done].
  destruct (createTables h !! a) as [old|] eqn:Hold; [|done].
  rewrite bind_unfold. unfold new_table at 1. rewrite bind_unfold.
  set (newTable := Some (length (createTables h))).
  destruct (merge_groups grow (Some a) newTable (at_Specs alterTable) _)
    as [k|r h1|[] h1] eqn:Hm; intros H; [done| |].
  - apply merge_groups_returns in Hm. subst r. injection H as <- <- <-. auto.
  - unfold return_ in H. injection H as <- <- <-. auto.
Qed.

(** **** The struct behind [oldTable] is never written *)

Section spares.
Context {R : Type} (t : nat).

Lemma spares_bind {A B} (m : M R A) (f : A -> M R B) :
  spares t m -> (∀ a, spares t (f a)) -> spares t (m ≫= f).
Proof.
  intros Hm Hf h. rewrite bind_unfold. specialize (Hm h).
  destruct (m h) as [k|r1 h1|a h1]; [done|done|].
  specialize (Hf a h1). destruct (f a h1) as [k|r2 h2|b h2]; [done| |];
    intros x Hx; by rewrite Hf, Hm.
Qed.

Lemma spares_mret {A} (a : A) : spares t (mret a : M R A).
Proof. by intros h. Qed.

Lemma spares_return {A} r : spares t (return_ r : M R A).
Proof. by intros h. Qed.

Lemma spares_panic {A} k : spares t (panic k : M R A).
Proof. by intros h. Qed.

Lemma spares_eval {X} (f : heap -> go X) : spares t (eval f : M R X).
Proof. intros h. unfold eval. by destruct (f h). Qed.

Lemma spares_call {X} (body : M X X) : spares t body -> spares t (call body : M R X).
Proof. intros Hb h. unfold call. specialize (Hb h). by destruct (body h). Qed.

Lemma spares_deref {X} (sel : heap -> list X) p : spares t (deref sel p : M R X).
Proof. intros h. unfold deref. destruct p; [|done]. by destruct (sel h !! _). Qed.

Lemma spares_pointee {X} (p : option X) : spares t (pointee p : M R X).
Proof. destruct p; [apply spares_mret | apply spares_panic]. Qed.

Lemma spares_list_index {X} (l : list X) i : spares t (list_index l i : M R X).
Proof.
  unfold list_index. destruct (l !! i); [apply spares_mret | apply spares_panic].
Qed.

Lemma spares_for_each {X} (l : list X) (body : X -> M R unit) :
  (∀ x, spares t (body x)) -> spares t (for_each l body).
Proof.
  intros Hb. induction l as [|x l IH]; simpl.
  - apply spares_mret.
  - apply spares_bind; [apply Hb | intros _; apply IH].
Qed.

Lemma spares_for_fold {X S} (l : list X) (s : S) (body : X -> S -> M R S) :
  (∀ x s, spares t (body x s)) -> spares t (for_fold l s body).
Proof.
  intros Hb. revert s. induction l as [|x l IH]; intros s; simpl.
  - apply spares_mret.
  - apply spares_bind; [apply Hb | intros s'; apply IH].
Qed.

Lemma spares_put_table f : spares t (put_table (Some t) f : M R unit).
Proof.
  intros h. unfold put_table, deref. rewrite bind_unfold.
  destruct (createTables h !! t); [|done]. cbn.
  intros a Ha. by apply list_lookup_insert_ne.
Qed.

Lemma spares_put_column c f : spares t (put_column c f : M R unit).
Proof.
  intros h. unfold put_column, deref. rewrite bind_unfold.
  destruct c as [a|]; [|done]. by destruct (columnDefs h !! a).
Qed.

Lemma spares_put_constraint c f : spares t (put_constraint c f : M R unit).
Proof.
  intros h. unfold put_constraint, deref. rewrite bind_unfold.
  destruct c as [a|]; [|done]. by destruct (constraintObjs h !! a).
Qed.

Lemma spares_cols_assign s i v : spares t (cols_assign s i v : M R unit).
Proof. intros h. unfold cols_assign, exec. by destruct (assign _ _ _ _). Qed.

Lemma spares_opts_assign s i v : spares t (opts_assign s i v : M R unit).
Proof. intros h. unfold opts_assign, exec. by destruct (assign _ _ _ _). Qed.

Lemma spares_cols_append grow s xs : spares t (cols_append grow s xs : M R slice).
Proof. intros h. unfold cols_append, exec. by destruct (append _ _ _ _ _) as [|[]]. Qed.

Lemma spares_cons_append grow s xs : spares t (cons_append grow s xs : M R slice).
Proof. intros h. unfold cons_append, exec. by destruct (append _ _ _ _ _) as [|[]]. Qed.

Lemma spares_opts_append grow s xs : spares t (opts_append grow s xs : M R slice).
Proof. intros h. unfold opts_append, exec. by destruct (append _ _ _ _ _) as [|[]]. Qed.

End spares.

Create HintDb spares.

#[local] Hint Resolve spares_mret spares_return spares_panic spares_eval
  spares_deref spares_pointee spares_list_index spares_put_table
  spares_put_column spares_put_constraint spares_cols_assign spares_opts_assign
  spares_cols_append spares_cons_append spares_opts_append : spares.

Ltac spares_step :=
  match goal with
  | |- spares _ (mbind _ _) => apply spares_bind; [|intros]
  | |- spares _ (call _) => apply spares_call
  | |- spares _ (for_each _ _) => apply spares_for_each; intros
  | |- spares _ (for_fold _ _ _) => apply spares_for_fold; intros
  | |- spares _ (if ?b then _ else _) => destruct b
  | |- spares _ (match ?p with Some _ => _ | None => _ end) => destruct p
  | |- spares _ _ => solve [eauto with spares]
  end.

Ltac spares_tac := repeat spares_step.

Ltac unfold_fields :=
  unfold remove_col, remove_constraint, remove_option,
    cols_index, cols_elems, cons_index, cons_elems, opts_index, opts_elems,
    hasPrimaryKey, GetPrimaryKey, HasOneInOptions, col_L,
    get_Cols, set_Cols, get_Constraints, set_Constraints, set_Table,
    get_Options, set_Options, set_Name,
    get_table, get_column, get_constraint.

Lemma merge_groups_spares grow oldTable t specs :
  spares t (merge_groups grow oldTable (Some t) specs).
Proof.
  unfold merge_groups.
  repeat (apply spares_bind; [|intros _]);
    apply spares_for_each; intros spec.
  - unfold renameTable. unfold_fields. spares_tac.
  - unfold dropColumn. unfold_fields. spares_tac.
  - unfold changeColumn. unfold_fields. spares_tac.
  - unfold modifyColumn. unfold_fields. spares_tac.
  - unfold alterColumn. unfold_fields. spares_tac.
  - unfold addColumns. unfold_fields. spares_tac.
  - unfold dropPrimaryKey. unfold_fields. spares_tac.
  - unfold dropIndex. unfold_fields. spares_tac.
  - unfold renameIndex. unfold_fields. spares_tac.
  - unfold addConstraint. unfold_fields. spares_tac.
Qed.

(** X6.  Whenever [mergeAlterToTable] returns, the struct behind [oldTable]
    holds what it held: the name, the three slice headers, the partition.
    What the slices point to is outside this statement. *)
Lemma mergeAlterToTable_keeps_struct grow a alterTable h r h' :
  mergeAlterToTable grow (Some a) alterTable h = Done r h' ->
  createTables h' !! a = createTables h !! a.
Proof.
  unfold mergeAlterToTable, run. rewrite bind_unfold.
  unfold get_table at 1. unfold deref at 1.
  destruct (createTables h !! a) as [old|] eqn:Hold; [|done].
  rewrite bind_unfold. unfold new_table at 1. rewrite bind_unfold.
  pose proof (merge_groups_spares grow (Some a) (length (createTables h))
                (at_Specs alterTable)) as Hs.
  match goal with |- context [merge_groups _ _ _ _ ?h1] => specialize (Hs h1) end.
  assert (Ha : a < length (createTables h)) by (by eapply lookup_lt_Some).
  destruct (merge_groups _ _ _ _ _) as [k|r1 h1|[] h1]; [done| |];
    intros H; injection H as _ <-; rewrite Hs by lia; cbn;
    by rewrite lookup_app_l.
Qed.

(** C1, merge atomicity, at [ALTER TABLE t DROP COLUMN a, DROP INDEX nope]
    on [CREATE TABLE t (a INT, b INT)].  The index is missing, so the merge is
    rejected: the call returns the pointer it was given and a nil error.  But
    the DROP COLUMN group ran first and shifted the columns inside the backing
    array that [newTable.Cols] shares with [oldTable.Cols]; the table behind
    the returned pointer, which read (a, b) before the call, reads (b, b)
    after it. *)
Theorem rejected_merge_rewrites_original grow :
  ∃ h',
    mergeAlterToTable grow (Some 0) alter_drop_a_drop_nope heap_t_a_b
      = Done (Some 0, None) h' ∧
    column_names <$> view (Some 0) heap_t_a_b = Some ["a"; "b"] ∧
    column_names <$> view (Some 0) h' = Some ["b"; "b"].
Proof.
  eexists. split; [vm_compute; reflexivity|].
  split; vm_compute; reflexivity.
Qed.

(** C10, at [ALTER TABLE c DROP INDEX fk1] on a table whose index and
    foreign key are both named fk1.  The loop of the DROP INDEX group ranges
    over the two constraints it found on entry; removing the first leaves
    [newTable.Constraints] with length 1, the second iteration still reads
    the foreign key at position 1, matches its name, and evaluates
    [newTable.Constraints[2:]]: the call does not return, it panics. *)
Theorem merge_panics_on_shared_index_name grow :
  mergeAlterToTable grow (Some 0) alter_drop_fk1 heap_c_fk1
    = Panic SliceBoundsOutOfRange.
Proof. vm_compute. reflexivity. Qed.

(** Scenario 3: [ALTER TABLE t DROP COLUMN c] on [CREATE TABLE t (a INT, b INT)]
    returns the original, which reads as before. *)
Example scenario_3_missing_column grow :
  ∃ h',
    mergeAlterToTable grow (Some 0) alter_drop_c heap_t_a_b = Done (Some 0, None) h' ∧
    view (Some 0) h' = view (Some 0) heap_t_a_b ∧
    column_names <$> view (Some 0) h' = Some ["a"; "b"].
Proof. eexists. repeat split; vm_compute; reflexivity. Qed.

(** Scenario 4: [ALTER TABLE t ADD COLUMN b INT, ADD COLUMN b INT] on
    [CREATE TABLE t (a INT)] returns the original, which reads as before: the
    first b went into a new backing array. *)
Example scenario_4_duplicate_add :
  ∃ h',
    mergeAlterToTable growslice (Some 0) alter_add_b_twice heap_t_a
      = Done (Some 0, None) h' ∧
    view (Some 0) h' = view (Some 0) heap_t_a ∧
    column_names <$> view (Some 0) h' = Some ["a"].
Proof. eexists. repeat split; vm_compute; reflexivity. Qed.

(** an ALTER that applies: the new table has the column, the old one not *)
Example add_column_merges :
  ∃ h',
    mergeAlterToTable growslice (Some 0) alter_add_b heap_t_a = Done (Some 1, None) h' ∧
    column_names <$> view (Some 1) h' = Some ["a"; "b"] ∧
    column_names <$> view (Some 0) h' = Some ["a"].
Proof. eexists. repeat split; vm_compute; reflexivity. Qed.

End Merge.

(** ** The Inspector (drivers/mysql/mysql/inspect.go) *)

Module Inspector.
Import GoStrings.

(** *** Data *)

(** [mysqlconfig.ColumnType] *)
Inductive ColumnType : Type :=
| UnknownColumnType
| TimestampColumnType
| DateTimeColumnType
| EnumColumnType
| MediumIntColumnType
| JSONColumnType
| FloatColumnType
| BinaryColumnType
| TextColumnType.

Record Column : Type := { col_Name : string; col_Type : ColumnType }.

Record ColumnList : Type := { Columns : list Column; Ordinals : gmap string nat }.

Record UniqueKey : Type :=
  { uk_Name : string;
    uk_Columns : ColumnList;
    HasNullable : bool;
    IsAutoIncrement : bool;
    LastMaxVals : list string }.

Record Table : Type :=
  { TableSchema : string;
    TableName : string;
    Where : string;
    OriginalTableColumns : option ColumnList;
    ColumnMapFrom : list string;
    ColumnMap : list nat;
    UseUniqueKey : option UniqueKey }.

Record ConnectionConfig : Type := { Host : string; Port : Z }.

Record MySQLDriverConfig : Type :=
  { ConnConfig : ConnectionConfig;
    SkipPrivilegeCheck : bool;
    BinlogRowImage : string }.

(** a row of [usql.QueryRowsMap]: column name to [CellData.String] *)
Abbreviation RowMap := (gmap string string).

(** [RowMap.GetString(key)] *)
Definition GetString (m : RowMap) (key : string) : string := default "" (m !! key).

(** *** What lies outside the file

    The server's answers to the queries of the Inspector, each as the Go
    call that runs it ends ([Scan] into the variables of that type, or
    [QueryRowsMap] over the rows), and the helpers of the packages [common],
    [base] and [mysqlconfig] the file calls. *)
Record World : Type :=
  { (* show grants for current_user() *)
    show_grants : error + list RowMap;
    (* SELECT @@GTID_MODE *)
    select_gtid_mode : error + string;
    (* select @@log_bin, @@binlog_format *)
    select_log_bin : error + (bool * string);
    (* select @@binlog_row_image *)
    select_binlog_row_image : error + string;
    (* show table status from db like 'table' *)
    show_table_status : string -> string -> error + list RowMap;
    (* the INFORMATION_SCHEMA query of getCandidateUniqueKeys *)
    select_uniques : string -> string -> error + list RowMap;
    (* ubase.GetTableColumns *)
    GetTableColumns : string -> string -> error + ColumnList;
    (* ubase.ApplyColumnTypes: the column list with the types of the table *)
    ApplyColumnTypes : string -> string -> ColumnList -> ColumnList;
    (* uconf.BuildColumnMapIndex *)
    BuildColumnMapIndex : list string -> gmap string nat -> list nat;
    (* common.ParseColumnList *)
    ParseColumnList : string -> ColumnList;
    (* RowMap.GetBool *)
    GetBool : RowMap -> string -> bool;
    (* umconf.EscapeName *)
    EscapeName : string -> string;
    (* UniqueKey.IsPrimary *)
    IsPrimary : UniqueKey -> bool;
    (* Table.GetWhere *)
    GetWhere : Table -> string;
    (* common.NewWhereCtx: the error of parsing the predicate, if any *)
    NewWhereCtx : string -> Table -> option error }.

(** *** The Inspector and its effects: what it logs, which queries it
    sends, the driver configuration it updates *)

Record Inspector : Type :=
  { mysqlContext : MySQLDriverConfig;
    logged : list log_entry;
    queried : list string }.

Definition St (A : Type) : Type := Inspector -> A * Inspector.

#[global] Instance St_ret : MRet St := λ A a i, (a, i).
#[global] Instance St_bind : MBind St := λ A B f m i, let (a, i') := m i in f a i'.

Definition logger (l : level) (m : string) : St unit := λ i,
  ((), {| mysqlContext := mysqlContext i;
          logged := logged i ++ [Log l m];
          queried := queried i |}).

Definition sends (query : string) : St unit := λ i,
  ((), {| mysqlContext := mysqlContext i;
          logged := logged i;
          queried := queried i ++ [query] |}).

Definition context : St MySQLDriverConfig := λ i, (mysqlContext i, i).

Definition set_BinlogRowImage (v : string) : St unit := λ i,
  ((), {| mysqlContext :=
            {| ConnConfig := ConnConfig (mysqlContext i);
               SkipPrivilegeCheck := SkipPrivilegeCheck (mysqlContext i);
               BinlogRowImage := v |};
          logged := logged i;
          queried := queried i |}).

(** [usql.QueryRowsMap(db, query, f)]: [f] on every row, up to its first
    error; [s] is what [f] assigns *)
Fixpoint each_row {S} (rows : list RowMap) (f : RowMap -> S -> option error * S)
    (s : S) : option error * S :=
  match rows with
  | [] => (None, s)
  | row :: rows' =>
      match f row s with
      | (Some e, s') => (Some e, s')
      | (None, s') => each_row rows' f s'
      end
  end.

Definition QueryRowsMap {S} (query : string) (answer : error + list RowMap)
    (f : RowMap -> S -> option error * S) (s : S) : St (option error * S) :=
  sends query ;;
  match answer with
  | inl e => mret (Some e, s)
  | inr rows => mret (each_row rows f s)
  end.

(** [db.QueryRow(query).Scan(...)] *)
Definition QueryRow {X} (query : string) (answer : error + X) : St (error + X) :=
  sends query ;; mret answer.

(** [ubase.StringContainsAll(s, substrings...)] *)
Definition StringContainsAll (s : string) (substrings : list string) : bool :=
  forallb (Contains s) substrings.

(** *** [validateGrants] *)

Record grants : Type :=
  { foundAll : bool;
    foundSuper : bool;
    foundReplicationClient : bool;
    foundReplicationSlave : bool;
    foundDBAll : bool }.

Definition no_grants : grants :=
  {| foundAll := false; foundSuper := false; foundReplicationClient := false;
     foundReplicationSlave := false; foundDBAll := false |}.

(** the body of [for _, grantData := range rowMap] *)
Definition scan_grant (grant : string) (g : grants) : grants :=
  {| foundAll := if Contains grant "GRANT ALL PRIVILEGES ON" then true else foundAll g;
     foundSuper := if Contains grant "SUPER" then true else foundSuper g;
     foundReplicationClient :=
       if Contains grant "REPLICATION CLIENT" then true else foundReplicationClient g;
     foundReplicationSlave :=
       if Contains grant "REPLICATION SLAVE" then true else foundReplicationSlave g;
     foundDBAll := if StringContainsAll grant ["SELECT"] then true else foundDBAll g |}.

Definition scan_row (rowMap : RowMap) (g : grants) : option error * grants :=
  (None, map_fold (λ _ grant g, scan_grant grant g) g rowMap).

Definition insufficient_privileges : error :=
  Errorf ("user has insufficient privileges for extractor." +:+
          " Needed: SUPER|REPLICATION CLIENT, REPLICATION SLAVE and ALL on *.*").

Definition validateGrants (w : World) : St (option error) :=
  ctx ← context;
  if SkipPrivilegeCheck ctx then
    logger LDebug "skipping priv check" ;; mret None
  else
    r ← QueryRowsMap "show grants for current_user()" (show_grants w) scan_row no_grants;
    match r with
    | (Some err, _) => mret (Some err)
    | (None, g) =>
        if foundAll g then
          logger LInfo "User has ALL privileges" ;; mret None
        else if foundSuper g && foundReplicationSlave g && foundDBAll g then
          logger LInfo
            "User has SUPER, REPLICATION SLAVE privileges, and has SELECT privileges" ;;
          mret None
        else if foundReplicationClient g && foundReplicationSlave g && foundDBAll g then
          logger LInfo
            "User has REPLICATION CLIENT, REPLICATION SLAVE privileges, and has SELECT privileges" ;;
          mret None
        else
          logger LDebug "Privileges" ;;
          mret (Some insufficient_privileges)
    end.

(** *** [validateGTIDMode] *)

Definition validateGTIDMode (w : World) : St (option error) :=
  r ← QueryRow "SELECT @@GTID_MODE" (select_gtid_mode w);
  match r with
  | inl err => mret (Some err)
  | inr gtidMode =>
      if decide (gtidMode ≠ "ON")
      then mret (Some (Errorf ("must have GTID enabled: " +:+ gtidMode)))
      else mret None
  end.

(** *** [validateBinlogs] *)

Definition validateBinlogs (w : World) : St (option error) :=
  r ← QueryRow "select @@log_bin, @@binlog_format" (select_log_bin w);
  match r with
  | inl err => mret (Some err)
  | inr (hasBinaryLogs, binlogFormat) =>
      ctx ← context;
      if negb hasBinaryLogs then
        mret (Some (Errorf (Host (ConnConfig ctx) +:+ ":" +:+ pretty (Port (ConnConfig ctx))
                            +:+ " must have binary logs enabled")))
      else if decide (binlogFormat ≠ "ROW") then
        mret (Some (Errorf "it is required to set binlog_format=row"))
      else
        r ← QueryRow "select @@binlog_row_image" (select_binlog_row_image w);
        match r with
        | inr image => set_BinlogRowImage image
        | inl _ => set_BinlogRowImage "FULL"
        end ;;
        ctx ← context;
        set_BinlogRowImage (ToUpper (BinlogRowImage ctx)) ;;
        logger LInfo "Binary logs validated" ;;
        mret None
  end.

(** *** [validateTable] *)

Definition validateTable (w : World) (databaseName tableName : string)
  : St (option error) :=
  let query := "show table status from " +:+ EscapeName w databaseName
               +:+ " like '" +:+ tableName +:+ "'" in
  r ← QueryRowsMap query (show_table_status w databaseName tableName)
        (λ rowMap (tableFound : bool),
           if decide (GetString rowMap "Comment" = "VIEW")
           then (Some (Errorf (EscapeName w databaseName +:+ "." +:+ EscapeName w tableName
                               +:+ " is a VIEW, not a real table. Bailing out")),
                 tableFound)
           else (None, true))
        false;
  match r with
  | (Some err, _) => mret (Some err)
  | (None, tableFound) =>
      if negb tableFound
      then mret (Some (Errorf ("Cannot find table " +:+ EscapeName w databaseName +:+ "."
                               +:+ EscapeName w tableName +:+ "!")))
      else mret None
  end.

(** *** [getCandidateUniqueKeys] and [InspectTableColumnsAndUniqueKeys] *)

Definition uniques_query : string :=
  "SELECT UNIQUES.INDEX_NAME,UNIQUES.COLUMN_NAMES,LOCATE('auto_increment', EXTRA) > 0 as is_auto_increment,has_nullable FROM INFORMATION_SCHEMA.COLUMNS INNER JOIN (...) AS UNIQUES ON (...) WHERE COLUMNS.TABLE_SCHEMA = ? AND COLUMNS.TABLE_NAME = ?".

(** the [&common.UniqueKey{...}] built from a row of the answer *)
Definition uniqueKey_of_row (w : World) (m : RowMap) : UniqueKey :=
  let columns := ParseColumnList w (GetString m "COLUMN_NAMES") in
  {| uk_Name := GetString m "INDEX_NAME";
     uk_Columns := columns;
     HasNullable := GetBool w m "has_nullable";
     IsAutoIncrement := GetBool w m "is_auto_increment";
     LastMaxVals := replicate (length (Columns columns)) "" |}.

Definition getCandidateUniqueKeys (w : World) (databaseName tableName : string)
  : St (list UniqueKey * option error) :=
  r ← QueryRowsMap uniques_query (select_uniques w databaseName tableName)
        (λ m (uniqueKeys : list UniqueKey), (None, uniqueKeys ++ [uniqueKey_of_row w m]))
        [];
  match r with
  | (Some err, uniqueKeys) => mret (uniqueKeys, Some err)
  | (None, uniqueKeys) =>
      logger LDebug "Potential unique keys." ;; mret (uniqueKeys, None)
  end.

(** The columns come back nil exactly when the error is not: the pair
    (columns, err) is kept as a sum. *)
Definition InspectTableColumnsAndUniqueKeys (w : World) (databaseName tableName : string)
  : St (list UniqueKey * (error + ColumnList)) :=
  r ← getCandidateUniqueKeys w databaseName tableName;
  match r with
  | (uniqueKeys, Some err) => mret (uniqueKeys, inl err)
  | (uniqueKeys, None) =>
      mret (uniqueKeys, GetTableColumns w databaseName tableName)
  end.

(** *** [ValidateOriginalTable] *)

Definition with_OriginalTableColumns (t : Table) (v : option ColumnList) : Table :=
  {| TableSchema := TableSchema t; TableName := TableName t; Where := Where t;
     OriginalTableColumns := v; ColumnMapFrom := ColumnMapFrom t;
     ColumnMap := ColumnMap t; UseUniqueKey := UseUniqueKey t |}.

Definition with_ColumnMap (t : Table) (v : list nat) : Table :=
  {| TableSchema := TableSchema t; TableName := TableName t; Where := Where t;
     OriginalTableColumns := OriginalTableColumns t; ColumnMapFrom := ColumnMapFrom t;
     ColumnMap := v; UseUniqueKey := UseUniqueKey t |}.

Definition with_UseUniqueKey (t : Table) (v : option UniqueKey) : Table :=
  {| TableSchema := TableSchema t; TableName := TableName t; Where := Where t;
     OriginalTableColumns := OriginalTableColumns t; ColumnMapFrom := ColumnMapFrom t;
     ColumnMap := ColumnMap t; UseUniqueKey := v |}.

(** [uk] after [ubase.ApplyColumnTypes(i.db, table.TableSchema,
    table.TableName, &uk.Columns)] *)
Definition typed (w : World) (table : Table) (uk : UniqueKey) : UniqueKey :=
  {| uk_Name := uk_Name uk;
     uk_Columns := ApplyColumnTypes w (TableSchema table) (TableName table) (uk_Columns uk);
     HasNullable := HasNullable uk;
     IsAutoIncrement := IsAutoIncrement uk;
     LastMaxVals := LastMaxVals uk |}.

(** the [switch column.Type] inside [for _, column := range uk.Columns.Columns] *)
Definition check_column (column : Column) (uniqueKeyIsValid : bool) : St bool :=
  match col_Type column with
  | FloatColumnType =>
      logger LWarn "Will not use the unique key due to FLOAT data type" ;; mret false
  | JSONColumnType =>
      logger LWarn "Will not use the unique key due to JSON data type" ;; mret false
  | _ => mret uniqueKeyIsValid
  end.

Fixpoint check_columns (columns : list Column) (uniqueKeyIsValid : bool) : St bool :=
  match columns with
  | [] => mret uniqueKeyIsValid
  | column :: rest =>
      v ← check_column column uniqueKeyIsValid; check_columns rest v
  end.

(** the body of [for _, uk := range uniqueKeys], from the loop over the
    columns to the last assignment of [uniqueKeyIsValid] *)
Definition unique_key_is_valid (w : World) (uk : UniqueKey) : St bool :=
  v ← check_columns (Columns (uk_Columns uk)) true;
  v ← (if HasNullable uk
       then logger LWarn "Will not use the unique key due to having nullable" ;;
            mret false
       else mret v);
  ctx ← context;
  if negb (IsPrimary w uk) && bool_decide ("FULL" ≠ BinlogRowImage ctx)
  then logger LWarn
         "Will not use the unique key due to not primary when binlog row image is FULL" ;;
       mret false
  else mret v.

(** [for _, uk := range uniqueKeys { ... }]; [use] is [table.UseUniqueKey],
    and ending the recursion early is the [break] *)
Fixpoint select_unique_key (w : World) (table : Table) (uniqueKeys : list UniqueKey)
    (use : option UniqueKey) : St (option UniqueKey) :=
  match uniqueKeys with
  | [] => mret use
  | uk :: rest =>
      logger LDebug "a unique key" ;;
      let uk := typed w table uk in
      uniqueKeyIsValid ← unique_key_is_valid w uk;
      if uniqueKeyIsValid : bool then
        if IsPrimary w uk then mret (Some uk)
        else match use with
             | None => select_unique_key w table rest (Some uk)
             | Some _ => select_unique_key w table rest use
             end
      else select_unique_key w table rest use
  end.

Definition ValidateOriginalTable (w : World) (databaseName tableName : string)
    (table : Table) : St (option error * Table) :=
  logger LInfo "ValidateOriginalTable" ;;
  err ← validateTable w databaseName tableName;
  match err with
  | Some err => mret (Some err, table)
  | None =>
      r ← InspectTableColumnsAndUniqueKeys w databaseName tableName;
      match r with
      | (uniqueKeys, inl err) =>
          mret (Some err, with_OriginalTableColumns table None)
      | (uniqueKeys, inr columns) =>
          let table := with_OriginalTableColumns table (Some columns) in
          let table :=
            with_ColumnMap table
              (BuildColumnMapIndex w (ColumnMapFrom table) (Ordinals columns)) in
          logger LDebug "table has unique keys" ;;
          use ← select_unique_key w table uniqueKeys (UseUniqueKey table);
          let table := with_UseUniqueKey table use in
          match use with
          | None =>
              logger LWarn "No valid unique key found. It will be slow on large table."
          | Some _ => logger LInfo "chosen unique key"
          end ;;
          match NewWhereCtx w (GetWhere w table) table with
          | Some err =>
              logger LError "Error parsing where" ;; mret (Some err, table)
          | None => mret (None, table)
          end
      end
  end.

(** *** What the design document says, in its words *)

(** some grant the server shows contains [sub] *)
Definition shown (rows : list RowMap) (sub : string) : Prop :=
  ∃ row column grant,
    row ∈ rows ∧ row !! column = Some grant ∧ Contains grant sub = true.

(** ALL PRIVILEGES, or SUPER with REPLICATION SLAVE and SELECT, or
    REPLICATION CLIENT with REPLICATION SLAVE and SELECT *)
Definition sufficient (rows : list RowMap) : Prop :=
  shown rows "GRANT ALL PRIVILEGES ON" ∨
  (shown rows "SUPER" ∧ shown rows "REPLICATION SLAVE" ∧ shown rows "SELECT") ∨
  (shown rows "REPLICATION CLIENT" ∧ shown rows "REPLICATION SLAVE" ∧
   shown rows "SELECT").

(** a candidate is valid: no FLOAT or JSON column, not nullable, and
    PRIMARY or a FULL row image *)
Definition plain_type (c : Column) : bool :=
  match col_Type c with
  | FloatColumnType | JSONColumnType => false
  | _ => true
  end.

Definition accepted (w : World) (rowImage : string) (uk : UniqueKey) : bool :=
  forallb plain_type (Columns (uk_Columns uk))
  && negb (HasNullable uk)
  && (IsPrimary w uk || bool_decide (rowImage = "FULL")).

(** among the valid candidates PRIMARY, otherwise the first *)
Definition chosen_key (w : World) (rowImage : string) (candidates : list UniqueKey)
  : option UniqueKey :=
  let valid := filter (λ uk, accepted w rowImage uk = true) candidates in
  match find (IsPrimary w) valid with
  | Some pk => Some pk
  | None => head valid
  end.

(** *** Facts about [validateGrants] *)

Lemma st_bind {A B} (m : St A) (f : A -> St B) (i : Inspector) :
  (m ≫= f) i = f (m i).1 (m i).2.
Proof. unfold mbind, St_bind. by destruct (m i). Qed.

(** a flag of the scan is set by the grants of the row that pass its test,
    in whatever order the row is walked *)
Lemma scan_row_flag (fld : grants -> bool) (test : string -> bool) :
  (∀ grant g, fld (scan_grant grant g) = test grant || fld g) ->
  ∀ (row : RowMap) g,
    fld (scan_row row g).2 = true <->
    fld g = true ∨ ∃ column grant, row !! column = Some grant ∧ test grant = true.
Proof.
  intros Hfld row g. unfold scan_row. simpl.
  apply (map_fold_weak_ind (λ r (m : RowMap),
    fld r = true <->
    fld g = true ∨ ∃ column grant, m !! column = Some grant ∧ test grant = true)).
  - split; [auto|]. intros [?|(c & gr & Hl & _)]; [done|].
    by rewrite lookup_empty in Hl.
  - intros c gr m r Hc IH. rewrite Hfld, orb_true_iff, IH. split.
    + intros [Ht|[Hg|(c' & gr' & Hl & Ht)]].
      * right. exists c, gr. by rewrite lookup_insert_eq.
      * by left.
      * right. exists c', gr'. split; [|done].
        rewrite lookup_insert_ne; [done|]. intros ->. congruence.
    + intros [Hg|(c' & gr' & Hl & Ht)]; [auto|].
      destruct (decide (c = c')) as [->|Hne].
      * rewrite lookup_insert_eq in Hl. injection Hl as ->. by left.
      * rewrite lookup_insert_ne in Hl by done. right. right. by exists c', gr'.
Qed.

Lemma each_row_scan rows g :
  (each_row rows scan_row g).1 = None.
Proof.
  revert g. induction rows as [|row rows IH]; intros g; simpl; [done|]. apply IH.
Qed.

Lemma each_row_flag (fld : grants -> bool) (test : string -> bool) :
  (∀ grant g, fld (scan_grant grant g) = test grant || fld g) ->
  ∀ rows g,
    fld (each_row rows scan_row g).2 = true <->
    fld g = true ∨
    ∃ row column grant, row ∈ rows ∧ row !! column = Some grant ∧ test grant = true.
Proof.
  intros Hfld rows. induction rows as [|row rows IH]; intros g; simpl.
  - split; [auto|]. intros [?|(r & c & gr & Hin & _)]; [done|].
    by apply elem_of_nil in Hin.
  - rewrite IH. change (fld (map_fold _ g row)) with (fld (scan_row row g).2).
    rewrite (scan_row_flag fld test Hfld). split.
    + intros [[Hg|(c & gr & Hl & Ht)]|(r & c & gr & Hin & Hl & Ht)].
      * by left.
      * right. exists row, c, gr. split; [left|done].
      * right. exists r, c, gr. split; [by right|done].
    + intros [Hg|(r & c & gr & Hin & Hl & Ht)]; [auto|].
      apply elem_of_cons in Hin as [->|Hin].
      * left. right. by exists c, gr.
      * right. by exists r, c, gr.
Qed.

Lemma scanned_flags rows :
  let g := (each_row rows scan_row no_grants).2 in
  (foundAll g = true <-> shown rows "GRANT ALL PRIVILEGES ON") ∧
  (foundSuper g = true <-> shown rows "SUPER") ∧
  (foundReplicationClient g = true <-> shown rows "REPLICATION CLIENT") ∧
  (foundReplicationSlave g = true <-> shown rows "REPLICATION SLAVE") ∧
  (foundDBAll g = true <-> shown rows "SELECT").
Proof.
  assert (Hor : ∀ (b : bool) c, (if b then true else c) = b || c) by by intros [].
  assert (Hno : ∀ P : Prop, (false = true ∨ P) <-> P)
    by (intros P; split; [intros [?|?]; [discriminate|assumption] | auto]).
  simpl. unfold shown. repeat split.
  - rewrite (each_row_flag foundAll (λ s, Contains s "GRANT ALL PRIVILEGES ON"));
      [apply Hno | intros; apply Hor].
  - rewrite (each_row_flag foundAll (λ s, Contains s "GRANT ALL PRIVILEGES ON"));
      [apply Hno | intros; apply Hor].
  - rewrite (each_row_flag foundSuper (λ s, Contains s "SUPER"));
      [apply Hno | intros; apply Hor].
  - rewrite (each_row_flag foundSuper (λ s, Contains s "SUPER"));
      [apply Hno | intros; apply Hor].
  - rewrite (each_row_flag foundReplicationClient (λ s, Contains s "REPLICATION CLIENT"));
      [apply Hno | intros; apply Hor].
  - rewrite (each_row_flag foundReplicationClient (λ s, Contains s "REPLICATION CLIENT"));
      [apply Hno | intros; apply Hor].
  - rewrite (each_row_flag foundReplicationSlave (λ s, Contains s "REPLICATION SLAVE"));
      [apply Hno | intros; apply Hor].
  - rewrite (each_row_flag foundReplicationSlave (λ s, Contains s "REPLICATION SLAVE"));
      [apply Hno | intros; apply Hor].
  - rewrite (each_row_flag foundDBAll (λ s, Contains s "SELECT"));
      [apply Hno | intros; simpl; rewrite andb_true_r; apply Hor].
  - rewrite (each_row_flag foundDBAll (λ s, Contains s "SELECT"));
      [apply Hno | intros; simpl; rewrite andb_true_r; apply Hor].
Qed.


(** *** Concrete servers *)

Definition no_answer : error := Errorf "driver: bad connection".

(** a server that answers no query; the helpers are the plain ones *)
Definition unreachable : World :=
  {| show_grants := inl no_answer;
     select_gtid_mode := inl no_answer;
     select_log_bin := inl no_answer;
     select_binlog_row_image := inl no_answer;
     show_table_status := λ _ _, inl no_answer;
     select_uniques := λ _ _, inl no_answer;
     GetTableColumns := λ _ _, inl no_answer;
     ApplyColumnTypes := λ _ _ columns, columns;
     BuildColumnMapIndex := λ _ _, [];
     ParseColumnList := λ _, {| Columns := []; Ordinals := ∅ |};
     GetBool := λ m key, bool_decide (GetString m key = "1");
     EscapeName := λ name, "`" +:+ name +:+ "`";
     IsPrimary := λ uk, bool_decide (uk_Name uk = "PRIMARY");
     GetWhere := λ t, if decide (Where t = "") then "true" else Where t;
     NewWhereCtx := λ _ _, None |}.

Definition with_grants (w : World) (grants : list string) : World :=
  {| show_grants :=
       inr (map (λ g, {[ "Grants for repl@%" := g ]} : RowMap) grants);
     select_gtid_mode := select_gtid_mode w;
     select_log_bin := select_log_bin w;
     select_binlog_row_image := select_binlog_row_image w;
     show_table_status := show_table_status w;
     select_uniques := select_uniques w;
     GetTableColumns := GetTableColumns w;
     ApplyColumnTypes := ApplyColumnTypes w;
     BuildColumnMapIndex := BuildColumnMapIndex w;
     ParseColumnList := ParseColumnList w;
     GetBool := GetBool w;
     EscapeName := EscapeName w;
     IsPrimary := IsPrimary w;
     GetWhere := GetWhere w;
     NewWhereCtx := NewWhereCtx w |}.

Definition with_binlog (w : World) (log_bin : error + (bool * string))
    (row_image : error + string) : World :=
  {| show_grants := show_grants w;
     select_gtid_mode := select_gtid_mode w;
     select_log_bin := log_bin;
     select_binlog_row_image := row_image;
     show_table_status := show_table_status w;
     select_uniques := select_uniques w;
     GetTableColumns := GetTableColumns w;
     ApplyColumnTypes := ApplyColumnTypes w;
     BuildColumnMapIndex := BuildColumnMapIndex w;
     ParseColumnList := ParseColumnList w;
     GetBool := GetBool w;
     EscapeName := EscapeName w;
     IsPrimary := IsPrimary w;
     GetWhere := GetWhere w;
     NewWhereCtx := NewWhereCtx w |}.

Definition fresh_inspector : Inspector :=
  {| mysqlContext :=
       {| ConnConfig := {| Host := "127.0.0.1"; Port := 3306 |};
          SkipPrivilegeCheck := false;
          BinlogRowImage := "" |};
     logged := [];
     queried := [] |}.

(** the user of scenario 6 of the design document, with and without SELECT *)
Example grants_super_slave_select :
  (validateGrants
     (with_grants unreachable
        ["GRANT SELECT, SUPER, REPLICATION SLAVE ON *.* TO 'repl'@'%'"])
     fresh_inspector).1 = None.
Proof. vm_compute. reflexivity. Qed.

Example grants_without_select :
  (validateGrants
     (with_grants unreachable ["GRANT SUPER, REPLICATION SLAVE ON *.* TO 'repl'@'%'"])
     fresh_inspector).1 = Some insufficient_privileges.
Proof. vm_compute. reflexivity. Qed.

(** *** Facts about [validateBinlogs] *)

(** C8 as the design document has it, refuted: the server below does not
    answer [select @@log_bin, @@binlog_format]; [validateBinlogs] returns
    the error of the query, although no answer said that binary logging is
    off or that the format is not ROW. *)
Lemma validateBinlogs_error_on_failed_query :
  (validateBinlogs unreachable fresh_inspector).1 = Some no_answer ∧
  ¬ (∃ hasBinaryLogs binlogFormat,
       select_log_bin unreachable = inr (hasBinaryLogs, binlogFormat) ∧
       (hasBinaryLogs = false ∨ binlogFormat ≠ "ROW")).
Proof.
  split; [reflexivity|]. intros (b & f & Heq & _). discriminate.
Qed.

(** C8, amended.  [validateBinlogs] returns an error exactly when the query
    for [@@log_bin] and [@@binlog_format] fails, or binary logging is off, or
    the format is not ROW.  When it succeeds, the row image it publishes is
    the upper-cased answer to [select @@binlog_row_image], and FULL when
    that query has no answer; either way it is in upper case. *)
Theorem validateBinlogs_errors (w : World) (i : Inspector) :
  ((validateBinlogs w i).1 ≠ None <->
     (∃ err, select_log_bin w = inl err) ∨
     (∃ hasBinaryLogs binlogFormat,
        select_log_bin w = inr (hasBinaryLogs, binlogFormat) ∧
        (hasBinaryLogs = false ∨ binlogFormat ≠ "ROW"))) ∧
  ((validateBinlogs w i).1 = None ->
     let image := BinlogRowImage (mysqlContext (validateBinlogs w i).2) in
     image = match select_binlog_row_image w with
             | inr answer => ToUpper answer
             | inl _ => "FULL"
             end ∧
     ToUpper image = image).
Proof.
  unfold validateBinlogs. rewrite st_bind. simpl.
  destruct (select_log_bin w) as [err|[hasBinaryLogs binlogFormat]] eqn:Hq; simpl.
  { split; [|done]. split; [eauto|done]. }
  destruct hasBinaryLogs; simpl.
  2:{ split; [|done]. split; [|done]. intros _. right. eauto. }
  destruct (decide (binlogFormat ≠ "ROW")) as [Hne|Heq]; simpl.
  { split; [|done]. split; [|done]. intros _. right. eauto. }
  apply dec_stable in Heq. subst binlogFormat.
  destruct (select_binlog_row_image w) as [err|answer]; simpl.
  - split; [|done]. split; [done|].
    intros [[e He]|(b & f & Hbf & [Hb|Hf])]; simplify_eq.
  - split; [|intros _; split; [done|apply ToUpper_idemp]]. split; [done|].
    intros [[e He]|(b & f & Hbf & [Hb|Hf])]; simplify_eq.
Qed.

(** *** Facts about [ValidateOriginalTable] *)

Lemma check_columns_result columns v i :
  (check_columns columns v i).1 = v && forallb plain_type columns ∧
  mysqlContext (check_columns columns v i).2 = mysqlContext i.
Proof.
  revert v i. induction columns as [|c columns IH]; intros v i; simpl.
  - by rewrite andb_true_r.
  - rewrite st_bind. destruct (IH (check_column c v i).1 (check_column c v i).2)
      as [-> ->].
    unfold check_column, plain_type.
    destruct (col_Type c); simpl; try done; by rewrite andb_false_r.
Qed.

Lemma unique_key_is_valid_result w uk i :
  (unique_key_is_valid w uk i).1 = accepted w (BinlogRowImage (mysqlContext i)) uk ∧
  mysqlContext (unique_key_is_valid w uk i).2 = mysqlContext i.
Proof.
  unfold unique_key_is_valid, accepted. rewrite st_bind.
  destruct (check_columns_result (Columns (uk_Columns uk)) true i) as [Hv Hc].
  rewrite Hv. clear Hv. cbn [andb].
  set (i1 := (check_columns _ true i).2) in *. clearbody i1.
  assert (Hnot : ∀ s : string,
    bool_decide ("FULL" ≠ s) = negb (bool_decide (s = "FULL"))).
  { intros s. destruct (decide (s = "FULL")) as [->|Hne].
    - rewrite bool_decide_eq_false_2 by (intros Hn; by apply Hn).
      by rewrite bool_decide_eq_true_2.
    - rewrite bool_decide_eq_true_2 by (intros Hn; by apply Hne).
      by rewrite bool_decide_eq_false_2. }
  destruct (HasNullable uk); rewrite !st_bind; cbn [logger context mret St_ret fst snd];
    rewrite Hnot, Hc;
    destruct (forallb plain_type _), (IsPrimary w uk);
    match goal with |- context [bool_decide ?P] => destruct (bool_decide P) end;
    cbn [negb andb orb]; rewrite ?st_bind; cbn [logger mret St_ret fst snd mysqlContext];
    auto.
Qed.

(** the key the loop leaves in [table.UseUniqueKey]: the first valid PRIMARY
    candidate; without one, the key that was there on entry; without that,
    the first valid candidate *)
Lemma select_unique_key_result w table uniqueKeys use i :
  let rowImage := BinlogRowImage (mysqlContext i) in
  let candidates := map (typed w table) uniqueKeys in
  (select_unique_key w table uniqueKeys use i).1 =
    match find (λ uk, accepted w rowImage uk && IsPrimary w uk) candidates with
    | Some pk => Some pk
    | None =>
        match use with
        | Some uk => Some uk
        | None => find (accepted w rowImage) candidates
        end
    end ∧
  mysqlContext (select_unique_key w table uniqueKeys use i).2 = mysqlContext i.
Proof.
  cbv zeta. revert use i. induction uniqueKeys as [|uk rest IH]; intros use i.
  - cbn. by destruct use.
  - cbn [select_unique_key map find]. rewrite !st_bind.
    set (i1 := (logger LDebug "a unique key" i).2).
    assert (Hc1 : mysqlContext i1 = mysqlContext i) by done.
    clearbody i1.
    destruct (unique_key_is_valid_result w (typed w table uk) i1) as [Hv Hc2].
    rewrite Hv. clear Hv. rewrite Hc1 in *.
    set (i2 := (unique_key_is_valid w (typed w table uk) i1).2) in *. clearbody i2.
    set (t := typed w table uk).
    destruct (accepted w (BinlogRowImage (mysqlContext i)) t) eqn:Hacc; cbn [andb].
    + destruct (IsPrimary w t) eqn:Hprim.
      * by cbn.
      * destruct use as [u|].
        -- destruct (IH (Some u) i2) as [-> ->]. by rewrite Hc2.
        -- destruct (IH (Some t) i2) as [-> ->]. rewrite Hc2.
           by destruct (find _ _).
    + destruct (IH use i2) as [-> ->]. by rewrite Hc2.
Qed.

Lemma find_filter_accepted w rowImage (p : UniqueKey -> bool) candidates :
  find p (filter (λ uk, accepted w rowImage uk = true) candidates) =
  find (λ uk, accepted w rowImage uk && p uk) candidates.
Proof.
  induction candidates as [|uk rest IH]; [done|].
  rewrite filter_cons. cbn [find].
  destruct (accepted w rowImage uk) eqn:Hacc; cbn [andb].
  - rewrite decide_True by done. cbn [find]. by rewrite IH.
  - rewrite decide_False by (by intros ?). apply IH.
Qed.

Lemma chosen_key_find w rowImage candidates :
  chosen_key w rowImage candidates =
    match find (λ uk, accepted w rowImage uk && IsPrimary w uk) candidates with
    | Some pk => Some pk
    | None => find (accepted w rowImage) candidates
    end.
Proof.
  unfold chosen_key. rewrite find_filter_accepted.
  destruct (find _ candidates); [done|].
  induction candidates as [|uk rest IH]; [done|].
  rewrite filter_cons. cbn [find].
  destruct (accepted w rowImage uk) eqn:Hacc.
  - by rewrite decide_True by done.
  - rewrite decide_False by (by intros ?). apply IH.
Qed.

(** what [chosen_key] means: the key is a valid candidate; it is a PRIMARY
    one whenever a valid PRIMARY candidate exists, and otherwise no valid
    candidate stands before it; and there is none exactly when no candidate
    is valid *)
Lemma chosen_key_spec w rowImage candidates :
  (∀ uk, chosen_key w rowImage candidates = Some uk ->
     uk ∈ candidates ∧ accepted w rowImage uk = true ∧
     (IsPrimary w uk = true ∨
      (Forall (λ c, accepted w rowImage c = true -> IsPrimary w c = false) candidates ∧
       ∃ before after, candidates = before ++ uk :: after ∧
         Forall (λ c, accepted w rowImage c = false) before))) ∧
  (chosen_key w rowImage candidates = None <->
     Forall (λ c, accepted w rowImage c = false) candidates).
Proof.
  rewrite chosen_key_find. induction candidates as [|c rest [IH1 IH2]].
  { split; [done|]. split; [constructor|done]. }
  cbn [find]. destruct (accepted w rowImage c) eqn:Hacc; cbn [andb].
  - destruct (IsPrimary w c) eqn:Hprim.
    + split.
      * intros uk [= <-]. split; [left|]. auto.
      * split; [done|]. intros HF. apply Forall_cons in HF as [HF _]. congruence.
    + split.
      * intros uk Huk.
        destruct (find (λ uk0, accepted w rowImage uk0 && IsPrimary w uk0) rest)
          as [pk|] eqn:Hpk.
        -- injection Huk as <-. destruct (IH1 pk eq_refl) as (Hin & Ha & Hp).
           split; [by right|]. split; [done|]. left.
           apply find_some in Hpk as [_ Hpk]. by apply andb_true_iff in Hpk as [_ ?].
        -- injection Huk as <-. split; [left|]. split; [done|]. right. split.
           ++ constructor; [done|]. apply Forall_forall. intros x Hx Hxa.
              destruct (IsPrimary w x) eqn:Hxp; [|done].
              apply list_elem_of_In in Hx.
              eapply find_none in Hpk; [|done]. cbn beta in Hpk.
              by rewrite Hxa, Hxp in Hpk.
           ++ by exists [], rest.
      * split; [by destruct (find _ rest)|].
        intros HF. apply Forall_cons in HF as [HF _]. congruence.
  - split.
    + intros uk Huk. destruct (IH1 uk Huk) as (Hin & Ha & Hp).
      split; [by right|]. split; [done|].
      destruct Hp as [Hp|(Hall & before & after & -> & Hbefore)]; [by left|]. right.
      split; [constructor; [congruence|done]|].
      exists (c :: before), after. split; [done|]. by constructor.
    + rewrite IH2. split; [by constructor|]. by intros [_ ?]%Forall_cons.
Qed.

Lemma validateTable_found w databaseName tableName i status :
  show_table_status w databaseName tableName = inr status ->
  status ≠ [] ->
  Forall (λ r : RowMap, GetString r "Comment" ≠ "VIEW") status ->
  (validateTable w databaseName tableName i).1 = None ∧
  mysqlContext (validateTable w databaseName tableName i).2 = mysqlContext i.
Proof.
  intros Hq Hne Hall. unfold validateTable, QueryRowsMap.
  rewrite !st_bind, Hq. cbn [sends mret St_ret fst snd].
  match goal with |- context [each_row status ?f false] => set (cb := f) end.
  assert (Hrows : ∀ found, each_row status cb found =
                           (None, match status with [] => found | _ => true end)).
  { clear Hne Hq. induction Hall as [|r rows Hr Hrows IH]; intros found; [done|].
    cbn [each_row]. unfold cb at 1. rewrite decide_False by done.
    rewrite IH. by destruct rows. }
  rewrite Hrows. destruct status; [done|]. by cbn.
Qed.

Lemma getCandidateUniqueKeys_found w databaseName tableName i rows :
  select_uniques w databaseName tableName = inr rows ->
  (getCandidateUniqueKeys w databaseName tableName i).1 =
    (map (uniqueKey_of_row w) rows, None) ∧
  mysqlContext (getCandidateUniqueKeys w databaseName tableName i).2 = mysqlContext i.
Proof.
  intros Hq. unfold getCandidateUniqueKeys, QueryRowsMap.
  rewrite !st_bind, Hq. cbn [sends mret St_ret fst snd].
  match goal with |- context [each_row rows ?f []] => set (cb := f) end.
  assert (Hrows : ∀ acc, each_row rows cb acc =
                         (None, acc ++ map (uniqueKey_of_row w) rows)).
  { clear Hq. induction rows as [|r rows IH]; intros acc; cbn [each_row map].
    - by rewrite app_nil_r.
    - unfold cb at 1. rewrite IH. by rewrite <- app_assoc. }
  rewrite Hrows. by cbn.
Qed.

(** the candidates in discovery order, with their column types applied *)
Definition candidates (w : World) (table : Table) (rows : list RowMap)
  : list UniqueKey :=
  map (λ m, typed w table (uniqueKey_of_row w m)) rows.

(** the table [ValidateOriginalTable] leaves behind when the table exists
    and its columns and keys were read *)
Definition validated (w : World) (rowImage : string) (table : Table)
    (columns : ColumnList) (rows : list RowMap) : Table :=
  with_UseUniqueKey
    (with_ColumnMap (with_OriginalTableColumns table (Some columns))
       (BuildColumnMapIndex w (ColumnMapFrom table) (Ordinals columns)))
    (chosen_key w rowImage (candidates w table rows)).

(** C2.  For a table that exists, is no view, and enters with no key chosen:
    the key [ValidateOriginalTable] leaves in [table.UseUniqueKey] is
    [chosen_key] of the candidates in discovery order, that is PRIMARY if it
    is among the valid candidates and the first valid candidate otherwise,
    a candidate being valid when it has no FLOAT or JSON column, is not
    nullable, and is PRIMARY or the row image is FULL ([accepted],
    [chosen_key_spec]); with no valid candidate the key stays nil.  In each
    case the validation goes on to the row filter and succeeds when that
    parses. *)
Theorem ValidateOriginalTable_chooses_key
    (w : World) (databaseName tableName : string) (table : Table) (i : Inspector)
    (status rows : list RowMap) (columns : ColumnList) :
  show_table_status w databaseName tableName = inr status ->
  status ≠ [] ->
  Forall (λ r : RowMap, GetString r "Comment" ≠ "VIEW") status ->
  select_uniques w databaseName tableName = inr rows ->
  GetTableColumns w databaseName tableName = inr columns ->
  UseUniqueKey table = None ->
  let table' :=
    validated w (BinlogRowImage (mysqlContext i)) table columns rows in
  NewWhereCtx w (GetWhere w table') table' = None ->
  (ValidateOriginalTable w databaseName tableName table i).1 = (None, table').
Proof.
  intros Hstatus Hne Hview Hrows Hcols Huse table' Hwhere.
  unfold ValidateOriginalTable. rewrite !st_bind.
  set (i1 := (logger LInfo "ValidateOriginalTable" i).2).
  assert (Hc1 : mysqlContext i1 = mysqlContext i) by done. clearbody i1.
  destruct (validateTable_found w databaseName tableName i1 status Hstatus Hne Hview)
    as [-> Hc2].
  set (i2 := (validateTable w databaseName tableName i1).2) in *. clearbody i2.
  rewrite st_bind. unfold InspectTableColumnsAndUniqueKeys at 1 2. rewrite !st_bind.
  destruct (getCandidateUniqueKeys_found w databaseName tableName i2 rows Hrows)
    as [Hkeys Hc3].
  set (i3 := (getCandidateUniqueKeys w databaseName tableName i2).2) in *.
  clearbody i3. rewrite Hkeys, Hcols. cbn [mret St_ret fst snd].
  rewrite !st_bind.
  set (i4 := (logger LDebug "table has unique keys" i3).2).
  assert (Hc4 : mysqlContext i4 = mysqlContext i) by (cbn; congruence).
  clearbody i4.
  set (t1 := with_ColumnMap _ _).
  destruct (select_unique_key_result w t1 (map (uniqueKey_of_row w) rows)
              (UseUniqueKey t1) i4) as [Hkey _].
  rewrite Hkey. clear Hkey. rewrite Hc4.
  change (UseUniqueKey t1) with (UseUniqueKey table). rewrite Huse.
  assert (Hcand : map (typed w t1) (map (uniqueKey_of_row w) rows)
                  = candidates w table rows).
  { unfold candidates. by rewrite map_map. }
  rewrite Hcand, <- chosen_key_find.
  change (with_UseUniqueKey t1 _) with table'. rewrite Hwhere.
  by destruct (UseUniqueKey table') eqn:Hkey;
    unfold table', validated in Hkey; cbn [UseUniqueKey with_UseUniqueKey] in Hkey;
    rewrite Hkey.
Qed.

(** *** The tables of scenarios 1 and 2 of the design document *)

(** a key over one column, and the types of the columns [v] and [a] *)
Definition one_column (names : string) : ColumnList :=
  {| Columns := [{| col_Name := names; col_Type := UnknownColumnType |}];
     Ordinals := {[ names := 0 ]} |}.

Definition float_columns (names : list string) (columns : ColumnList) : ColumnList :=
  {| Columns :=
       map (λ c, {| col_Name := col_Name c;
                    col_Type := if bool_decide (col_Name c ∈ names)
                                then FloatColumnType else col_Type c |})
           (Columns columns);
     Ordinals := Ordinals columns |}.

Definition key_row (index column nullable : string) : RowMap :=
  {[ "INDEX_NAME" := index; "COLUMN_NAMES" := column;
     "has_nullable" := nullable; "is_auto_increment" := "0" ]}.

(** a server holding one table whose unique keys are [keys] and whose FLOAT
    columns are [floats]; [where_error] is what parsing the row filter gives *)
Definition server (keys : list RowMap) (floats : list string)
    (where_error : option error) : World :=
  {| show_grants := inl no_answer;
     select_gtid_mode := inr "ON";
     select_log_bin := inr (true, "ROW");
     select_binlog_row_image := inr "FULL";
     show_table_status := λ _ _, inr [{[ "Name" := "t"; "Comment" := "" ]}];
     select_uniques := λ _ _, inr keys;
     GetTableColumns := λ _ _, inr (one_column "id");
     ApplyColumnTypes := λ _ _, float_columns floats;
     BuildColumnMapIndex := λ _ _, [];
     ParseColumnList := one_column;
     GetBool := λ m key, bool_decide (GetString m key = "1");
     EscapeName := λ name, "`" +:+ name +:+ "`";
     IsPrimary := λ uk, bool_decide (uk_Name uk = "PRIMARY");
     GetWhere := λ t, if decide (Where t = "") then "true" else Where t;
     NewWhereCtx := λ _ _, where_error |}.

Definition table_t (where_ : string) : Table :=
  {| TableSchema := "s"; TableName := "t"; Where := where_;
     OriginalTableColumns := None; ColumnMapFrom := []; ColumnMap := [];
     UseUniqueKey := None |}.

Definition inspector (rowImage : string) : Inspector :=
  {| mysqlContext :=
       {| ConnConfig := {| Host := "127.0.0.1"; Port := 3306 |};
          SkipPrivilegeCheck := false;
          BinlogRowImage := rowImage |};
     logged := [];
     queried := [] |}.

(** scenario 2: [t (a FLOAT UNIQUE, b INT UNIQUE)] *)
Definition server_a_b : World :=
  server [key_row "a" "a" "0"; key_row "b" "b" "0"] ["a"] None.

(** scenario 1: [t (id INT PRIMARY KEY, v FLOAT)], with a unique key on [v]
    discovered first *)
Definition server_v_id : World :=
  server [key_row "v" "v" "0"; key_row "PRIMARY" "id" "0"] ["v"] None.

(** the same table with a row filter that does not parse *)
Definition server_bad_where : World :=
  server [key_row "PRIMARY" "id" "0"] [] (Some (Errorf "syntax error in where")).

(** the theorem at scenario 2: the FLOAT key [a] is rejected, [b] is chosen *)
Lemma ValidateOriginalTable_chooses_key_witness :
  uk_Name <$> UseUniqueKey (ValidateOriginalTable server_a_b "s" "t" (table_t "")
                              (inspector "FULL")).1.2 = Some "b" ∧
  (ValidateOriginalTable server_a_b "s" "t" (table_t "") (inspector "FULL")).1.1 = None.
Proof.
  rewrite (ValidateOriginalTable_chooses_key server_a_b "s" "t" (table_t "")
             (inspector "FULL") [{[ "Name" := "t"; "Comment" := "" ]}]
             [key_row "a" "a" "0"; key_row "b" "b" "0"] (one_column "id")).
  - split; vm_compute; reflexivity.
  - reflexivity.
  - discriminate.
  - constructor; [vm_compute; discriminate | constructor].
  - reflexivity.
  - reflexivity.
  - reflexivity.
  - reflexivity.
Defined.

Example scenario_1_primary_preferred :
  uk_Name <$> UseUniqueKey (ValidateOriginalTable server_v_id "s" "t" (table_t "")
                              (inspector "FULL")).1.2 = Some "PRIMARY".
Proof. vm_compute. reflexivity. Qed.

Example minimal_row_image_needs_primary :
  UseUniqueKey (ValidateOriginalTable server_a_b "s" "t" (table_t "")
                  (inspector "MINIMAL")).1.2 = None ∧
  (ValidateOriginalTable server_a_b "s" "t" (table_t "") (inspector "MINIMAL")).1.1 = None.
Proof. vm_compute. split; reflexivity. Qed.

(** C5, at a table whose row filter does not parse.  The design document
    has the failure logged as a warning and the table accepted.
    [ValidateOriginalTable] logs it at the error level and returns the
    error of the parser; no warning is logged. *)
Theorem ValidateOriginalTable_where_error_is_fatal :
  let r := ValidateOriginalTable server_bad_where "s" "t" (table_t "id >")
             (inspector "FULL") in
  r.1.1 = Some (Errorf "syntax error in where") ∧
  last (logged r.2) = Some (Log LError "Error parsing where") ∧
  Forall (λ e, log_level e ≠ LWarn) (logged r.2).
Proof.
  vm_compute. split; [reflexivity|]. split; [reflexivity|].
  repeat constructor; discriminate.
Qed.

End Inspector.

(** ** The bulk-load path of the applier: [ApplierOracle.ApplyEventQueries] *)

Module Applier.
Import GoStrings.

(** *** Data *)

(** a row of [entry.ValuesX]: a cell is a [*[]byte], nil for SQL NULL *)
Abbreviation row := (list (option string)).

Record DumpEntry : Type :=
  { SystemVariablesStatement : string;
    SqlMode : string;
    DbSQL : string;
    TbSQL : list string;
    TableSchema : string;
    TableName : string;
    ValuesX : list row }.

(** *** What lies outside the file: the destination and the [sql] package *)
Record Dest : Type :=
  { (* sql.IgnoreError, sql.IgnoreExistsError *)
    IgnoreError : error -> bool;
    IgnoreExistsError : error -> bool;
    (* umconf.EscapeName, sql.EscapeValue *)
    EscapeName : string -> string;
    EscapeValue : string -> string;
    (* a.dbs[i].Db.ExecContext(ctx, query) on worker connection i *)
    conn_exec : nat -> string -> option error;
    (* db.BeginTx *)
    begin_tx : option error;
    (* tx.ExecContext(ctx, query), in a transaction that has applied [done] *)
    tx_exec : list string -> string -> option error;
    (* tx.Commit() of a transaction that has applied [done] *)
    tx_commit : list string -> option error }.

(** *** The applier and the destination's side of it *)
Record applier : Type :=
  { dbs : nat;                          (* len(a.dbs) *)
    logged : list log_entry;
    on_workers : list (nat * string);   (* statements the workers applied *)
    tx : list string;                   (* statements the open transaction applied *)
    committed : list (list string);     (* the transactions committed, in order *)
    reported : list error;              (* a.onError(common.TaskStateDead, err) *)
    TotalRowsReplayed : Z }.

Definition with_logged (a : applier) (v : list log_entry) : applier :=
  {| dbs := dbs a; logged := v; on_workers := on_workers a; tx := tx a;
     committed := committed a; reported := reported a;
     TotalRowsReplayed := TotalRowsReplayed a |}.
Definition with_on_workers (a : applier) (v : list (nat * string)) : applier :=
  {| dbs := dbs a; logged := logged a; on_workers := v; tx := tx a;
     committed := committed a; reported := reported a;
     TotalRowsReplayed := TotalRowsReplayed a |}.
Definition with_tx (a : applier) (v : list string) : applier :=
  {| dbs := dbs a; logged := logged a; on_workers := on_workers a; tx := v;
     committed := committed a; reported := reported a;
     TotalRowsReplayed := TotalRowsReplayed a |}.
Definition with_committed (a : applier) (v : list (list string)) : applier :=
  {| dbs := dbs a; logged := logged a; on_workers := on_workers a; tx := tx a;
     committed := v; reported := reported a;
     TotalRowsReplayed := TotalRowsReplayed a |}.
Definition with_reported (a : applier) (v : list error) : applier :=
  {| dbs := dbs a; logged := logged a; on_workers := on_workers a; tx := tx a;
     committed := committed a; reported := v;
     TotalRowsReplayed := TotalRowsReplayed a |}.
Definition with_TotalRowsReplayed (a : applier) (v : Z) : applier :=
  {| dbs := dbs a; logged := logged a; on_workers := on_workers a; tx := tx a;
     committed := committed a; reported := reported a;
     TotalRowsReplayed := v |}.

(** a statement of the function: it executes [return err], or goes on *)
Inductive flow (X : Type) : Type :=
| Return (err : option error)
| Next (x : X).
Arguments Return {X} err.
Arguments Next {X} x.

Definition Ap (X : Type) : Type := applier -> flow X * applier.

#[global] Instance Ap_ret : MRet Ap := λ X x a, (Next x, a).
#[global] Instance Ap_bind : MBind Ap := λ X Y f m a,
  match m a with
  | (Return err, a') => (Return err, a')
  | (Next x, a') => f x a'
  end.

Definition return_ {X} (err : option error) : Ap X := λ a, (Return err, a).

Definition logger (l : level) (m : string) : Ap unit := λ a,
  (Next (), with_logged a (logged a ++ [Log l m])).

(** the function's body run to its [return] *)
Definition body (m : Ap unit) (a : applier) : option error * applier :=
  match m a with
  | (Return err, a') => (err, a')
  | (Next _, a') => (None, a')
  end.

(** [defer f()] followed by the rest of the function: [f] runs once the rest
    has returned *)
Definition defer {X} (f : applier -> applier) (rest : Ap X) : Ap X := λ a,
  let (r, a') := rest a in (r, f a').

(** [for _, x := range l { body }] *)
Fixpoint for_each {X} (l : list X) (f : X -> Ap unit) : Ap unit :=
  match l with
  | [] => mret ()
  | x :: l' => f x ;; for_each l' f
  end.

(** [g.StrLim(s, n)] *)
Definition StrLim (s : string) (n : nat) : string := String.substring 0 n s.

(** *** [ApplyEventQueries] *)

Definition BufSizeLimit : Z := 1 * 1024 * 1024.

(** [a.dbs[i].Db.ExecContext(a.ctx, query)] *)
Definition worker_exec (d : Dest) (i : nat) (query : string) : Ap (option error) := λ a,
  match conn_exec d i query with
  | Some err => (Next (Some err), a)
  | None => (Next None, with_on_workers a (on_workers a ++ [(i, query)]))
  end.

(** [tx.ExecContext(a.ctx, query)] *)
Definition tx_ExecContext (d : Dest) (query : string) : Ap (option error) := λ a,
  match tx_exec d (tx a) query with
  | Some err => (Next (Some err), a)
  | None => (Next None, with_tx a (tx a ++ [query]))
  end.

(** the deferred function: commit, report a failed commit, count the rows *)
Definition deferred (d : Dest) (nRows : Z) (a : applier) : applier :=
  let a :=
    match tx_commit d (tx a) with
    | Some err => with_reported a (reported a ++ [err])
    | None => with_committed a (committed a ++ [tx a])
    end in
  with_TotalRowsReplayed a (TotalRowsReplayed a + nRows).

(** the closure [execQuery] *)
Definition execQuery (d : Dest) (query : string) : Ap (option error) :=
  logger LDebug "ApplyEventQueries. exec" ;;
  err ← tx_ExecContext d query;
  match err with
  | Some err =>
      let queryStart := StrLim query 10 in
      let errCtx := Wrapf err ("tx.Exec. queryStart " +:+ queryStart +:+ " seq") in
      if negb (IgnoreError d err) then
        logger LError "ApplyEventQueries. exec error" ;; mret (Some errCtx)
      else
        (if negb (IgnoreExistsError d err)
         then logger LWarn "ApplyEventQueries. ignore error"
         else mret ()) ;;
        mret None
  | None => mret None
  end.

(** the loop [for j := range entry.ValuesX[i]] *)
Fixpoint write_cells (d : Dest) (cells : row) (firstCol : bool) (buf : string) : string :=
  match cells with
  | [] => buf
  | colData :: rest =>
      let buf := if firstCol then buf else buf +:+ "," in
      let buf :=
        match colData with
        | Some v => (buf +:+ "'") +:+ EscapeValue d v +:+ "'"
        | None => buf +:+ "NULL"
        end in
      write_cells d rest false buf
  end.

(** the buffer after row [cells] has been written behind [buf] *)
Definition write_row (d : Dest) (entry : DumpEntry) (buf : string) (cells : row)
  : string :=
  let buf :=
    if (len buf =? 0)%Z
    then buf +:+ "replace into " +:+ EscapeName d (TableSchema entry) +:+ "."
             +:+ EscapeName d (TableName entry) +:+ " values ("
    else buf +:+ ",(" in
  write_cells d cells true buf +:+ ")".

(** [for i, _ := range entry.ValuesX { ... }], at index [i] of [n] rows *)
Fixpoint rows_loop (d : Dest) (entry : DumpEntry) (n i : nat) (rows : list row)
    (buf : string) : Ap unit :=
  match rows with
  | [] => mret ()
  | cells :: rest =>
      let buf := write_row d entry buf cells in
      let needInsert :=
        (Z.of_nat i =? Z.of_nat n - 1)%Z || (BufSizeLimit <=? len buf)%Z in
      if needInsert then
        err ← execQuery d buf;
        match err with
        | Some err => return_ (Some err)
        | None => rows_loop d entry n (S i) rest ""
        end
      else rows_loop d entry n (S i) rest buf
  end.

(** [for i := range a.dbs { ... }] with [query] on each worker connection *)
Definition worker_step (d : Dest) (what query : string) (i : nat) : Ap unit :=
  logger LDebug what ;;
  err ← worker_exec d i query;
  match err with
  | Some err => logger LError "err exec sysvar query." ;; return_ (Some err)
  | None => mret ()
  end.

Definition on_each_worker (d : Dest) (what query : string) : Ap unit :=
  n ← (λ a, (Next (dbs a), a));
  for_each (seq 0 n) (worker_step d what query).

(** the statements run on every worker connection before the transaction *)
Definition prepare_workers (d : Dest) (entry : DumpEntry) : Ap unit :=
  (if decide (SystemVariablesStatement entry ≠ "")
   then on_each_worker d "exec sysvar query" (SystemVariablesStatement entry)
   else mret ()) ;;
  (if decide (SqlMode entry ≠ "")
   then on_each_worker d "exec sqlmode query" (SqlMode entry)
   else mret ()).

(** [for _, query := range queries { ... }] *)
Definition queries_loop (d : Dest) (queries : list string) : Ap unit :=
  for_each queries (λ query,
    if decide (query = "") then mret () else
    err ← execQuery d query;
    match err with
    | Some err => return_ (Some err)
    | None => mret ()
    end).

Definition sessionQuery : string := "SET @@session.foreign_key_checks = 0".

(** from [tx.ExecContext(a.ctx, sessionQuery)] to the end of the function *)
Definition in_transaction (d : Dest) (entry : DumpEntry) (queries : list string)
  : Ap unit :=
  err ← tx_ExecContext d sessionQuery;
  match err with
  | Some err => return_ (Some err)
  | None =>
      queries_loop d queries ;;
      rows_loop d entry (length (ValuesX entry)) 0 (ValuesX entry) "" ;;
      return_ None
  end.

Definition ApplyEventQueries (d : Dest) (entry : DumpEntry)
  : applier -> option error * applier :=
  body (
    logger LDebug "ApplyEventQueries" ;;
    prepare_workers d entry ;;
    let queries :=
      [SystemVariablesStatement entry; SqlMode entry; DbSQL entry] ++ TbSQL entry in
    match begin_tx d with
    | Some err => return_ (Some err)
    | None =>
        (λ a, (Next (), with_tx a [])) ;;
        let nRows := Z.of_nat (length (ValuesX entry)) in
        defer (deferred d nRows) (in_transaction d entry queries)
    end).

(** *** The SQL of a batch, in the words of the design document *)

(** NULL for a nil cell, the escaped value in single quotes otherwise *)
Definition cell_sql (d : Dest) (colData : option string) : string :=
  match colData with
  | Some v => "'" +:+ EscapeValue d v +:+ "'"
  | None => "NULL"
  end.

Fixpoint join (sep : string) (l : list string) : string :=
  match l with
  | [] => ""
  | x :: rest =>
      match rest with
      | [] => x
      | _ :: _ => x +:+ sep +:+ join sep rest
      end
  end.

Definition row_sql (d : Dest) (cells : row) : string :=
  "(" +:+ join "," (map (cell_sql d) cells) +:+ ")".

(** [replace into s.t values (...),(...),...] over the rows of a batch *)
Definition statement (d : Dest) (entry : DumpEntry) (batch : list row) : string :=
  "replace into " +:+ EscapeName d (TableSchema entry) +:+ "."
    +:+ EscapeName d (TableName entry) +:+ " values "
    +:+ join "," (map (row_sql d) batch).

(** the statements the loop over the rows passes to [execQuery], when each
    returns nil *)
Fixpoint flushed (d : Dest) (entry : DumpEntry) (n i : nat) (rows : list row)
    (buf : string) : list string :=
  match rows with
  | [] => []
  | cells :: rest =>
      let buf := write_row d entry buf cells in
      if (Z.of_nat i =? Z.of_nat n - 1)%Z || (BufSizeLimit <=? len buf)%Z
      then buf :: flushed d entry n (S i) rest ""
      else flushed d entry n (S i) rest buf
  end.

(** running statements through [execQuery] up to the first error it returns *)
Definition exec_each (d : Dest) (stmts : list string) : Ap unit :=
  for_each stmts (λ query,
    err ← execQuery d query;
    match err with
    | Some err => return_ (Some err)
    | None => mret ()
    end).

(** the error [execQuery] returns for a failed statement *)
Definition wrapped (err : error) (query : string) : error :=
  Wrapf err ("tx.Exec. queryStart " +:+ StrLim query 10 +:+ " seq").

(** what a transaction that has applied [done] makes of [stmts]: the error
    of the first statement that fails with an error [IgnoreError] rejects,
    and the statements applied by then *)
Fixpoint applied (d : Dest) (done : list string) (stmts : list string)
  : option error * list string :=
  match stmts with
  | [] => (None, done)
  | query :: rest =>
      match tx_exec d done query with
      | None => applied d (done ++ [query]) rest
      | Some err =>
          if IgnoreError d err then applied d done rest
          else (Some (wrapped err query), done)
      end
  end.

(** *** Rendering *)

Lemma write_cells_sep d cells buf :
  cells ≠ [] ->
  write_cells d cells false buf = write_cells d cells true (buf +:+ ",").
Proof. by destruct cells. Qed.

Lemma write_cells_join d cells buf :
  write_cells d cells true buf = buf +:+ join "," (map (cell_sql d) cells).
Proof.
  revert buf. induction cells as [|c rest IH]; intros buf.
  - cbn. by rewrite string_app_empty_r.
  - cbn [write_cells map join].
    assert (Hcell : match c with
                    | Some v => (buf +:+ "'") +:+ EscapeValue d v +:+ "'"
                    | None => buf +:+ "NULL"
                    end = buf +:+ cell_sql d c).
    { destruct c; cbn [cell_sql]; [by rewrite string_app_assoc | done]. }
    rewrite Hcell. destruct rest as [|c' rest]; [done|].
    rewrite write_cells_sep by done. rewrite IH.
    cbn [map]. by rewrite !string_app_assoc.
Qed.

Lemma join_snoc sep l x :
  l ≠ [] -> join sep (l ++ [x]) = join sep l +:+ sep +:+ x.
Proof.
  induction l as [|y l IH]; [done|]. intros _.
  destruct l as [|z l]; [done|].
  change (join sep ((y :: z :: l) ++ [x])) with (y +:+ sep +:+ join sep ((z :: l) ++ [x])).
  rewrite IH by done.
  change (join sep (y :: z :: l)) with (y +:+ sep +:+ join sep (z :: l)).
  by rewrite !string_app_assoc.
Qed.

Lemma len_statement_pos d entry batch : (0 < len (statement d entry batch))%Z.
Proof.
  unfold statement. rewrite len_app.
  assert (0 <= len (EscapeName d (TableSchema entry) +:+ "." +:+
                    EscapeName d (TableName entry) +:+ " values " +:+
                    join "," (map (row_sql d) batch)))%Z by (unfold len; lia).
  change (len "replace into ") with 13%Z. lia.
Qed.

Lemma write_row_first d entry cells :
  write_row d entry "" cells = statement d entry [cells].
Proof.
  unfold write_row, statement. change (len "" =? 0)%Z with true.
  cbn [map join]. rewrite write_cells_join. unfold row_sql.
  rewrite append_nil, !string_app_assoc. reflexivity.
Qed.

Lemma write_row_next d entry batch cells :
  batch ≠ [] ->
  write_row d entry (statement d entry batch) cells = statement d entry (batch ++ [cells]).
Proof.
  intros Hne. unfold write_row.
  pose proof (len_statement_pos d entry batch) as Hpos.
  destruct (Z.eqb_spec (len (statement d entry batch)) 0) as [Hz|_]; [lia|].
  rewrite write_cells_join. unfold statement.
  rewrite map_app. cbn [map]. rewrite join_snoc by (by destruct batch).
  unfold row_sql at 2. rewrite !string_app_assoc. reflexivity.
Qed.

(** the buffer while the rows of [batch] are in it *)
Definition buffer (d : Dest) (entry : DumpEntry) (batch : list row) : string :=
  match batch with
  | [] => ""
  | _ :: _ => statement d entry batch
  end.

Lemma write_row_buffer d entry batch cells :
  write_row d entry (buffer d entry batch) cells = statement d entry (batch ++ [cells]).
Proof.
  destruct batch as [|r batch].
  - apply write_row_first.
  - by apply write_row_next.
Qed.

(** *** Batching *)

(** [batches] cut [rows] the way the design document says: every batch but
    the last has reached the limit with its last row, no batch had reached
    it before its last row, and no batch is empty *)
Record batching (d : Dest) (entry : DumpEntry) (rows : list row)
    (batches : list (list row)) : Prop :=
  { batches_cover : concat batches = rows;
    batches_nonempty : Forall (λ b, b ≠ []) batches;
    batches_not_early :
      Forall (λ b, ∀ k, 0 < k < length b ->
                (len (statement d entry (take k b)) < BufSizeLimit)%Z) batches;
    batches_full :
      ∀ before b after, batches = before ++ b :: after -> after ≠ [] ->
        (BufSizeLimit <= len (statement d entry b))%Z }.

Lemma flushed_batches d entry n rows : ∀ i cur,
  n = i + length rows ->
  (cur = [] ∨ rows ≠ []) ->
  (∀ k, 0 < k <= length cur ->
     (len (statement d entry (take k cur)) < BufSizeLimit)%Z) ->
  ∃ batches,
    batching d entry (cur ++ rows) batches ∧
    flushed d entry n i rows (buffer d entry cur) = map (statement d entry) batches.
Proof.
  induction rows as [|cells rest IH]; intros i cur Hn Hcur Hshort.
  { destruct Hcur as [->|?]; [|done]. exists []. split; [|done].
    split; [done|constructor|constructor|]. intros [] ??; discriminate. }
  cbn [flushed]. rewrite write_row_buffer.
  assert (Hlast : (Z.of_nat i =? Z.of_nat n - 1)%Z = bool_decide (rest = [])).
  { cbn [length] in Hn. destruct rest as [|r rest].
    - cbn [length] in Hn. rewrite bool_decide_eq_true_2 by done. apply Z.eqb_eq. lia.
    - cbn [length] in Hn. rewrite bool_decide_eq_false_2 by done. apply Z.eqb_neq. lia. }
  rewrite Hlast. clear Hlast.
  set (cur' := cur ++ [cells]).
  assert (Hprefix : ∀ k, 0 < k < length cur' ->
            (len (statement d entry (take k cur')) < BufSizeLimit)%Z).
  { intros k Hk. unfold cur' in *. rewrite length_app in Hk. cbn [length] in Hk.
    rewrite take_app_le by lia. apply Hshort. lia. }
  destruct (bool_decide (rest = []) || (BufSizeLimit <=? len (statement d entry cur'))%Z)
    eqn:Hflush.
  - (* the buffer is flushed: [cur'] is a batch *)
    destruct (IH (S i) []) as (batches & Hb & Hf).
    { cbn [length] in Hn. lia. }
    { by left. }
    { intros k Hk. cbn [length] in Hk. lia. }
    exists (cur' :: batches). split.
    + destruct Hb as [Hcover Hnonempty Hearly Hfull]. split.
      * cbn [concat]. rewrite Hcover. unfold cur'. by rewrite <- app_assoc.
      * constructor; [by destruct cur | done].
      * by constructor.
      * intros before b after Heq Hafter.
        destruct before as [|b0 before]; cbn [app] in Heq; injection Heq as <- Heq.
        -- subst batches. apply orb_true_iff in Hflush as [Hrest|Hlimit].
           ++ apply bool_decide_eq_true in Hrest. subst rest.
              cbn [app] in Hcover. destruct after as [|a after]; [done|].
              apply Forall_cons in Hnonempty as [Ha _].
              cbn [concat] in Hcover. by destruct a.
           ++ by apply Z.leb_le.
        -- by eapply Hfull.
    + change (buffer d entry []) with "" in Hf. cbn [map]. by rewrite Hf.
  - (* the buffer is kept: [cur'] goes on growing *)
    apply orb_false_iff in Hflush as [Hrest Hlimit].
    apply bool_decide_eq_false in Hrest. apply Z.leb_gt in Hlimit.
    destruct (IH (S i) cur') as (batches & Hb & Hf).
    { cbn [length] in Hn. lia. }
    { by right. }
    { intros k Hk. destruct (decide (k = length cur')) as [->|Hne].
      - by rewrite firstn_all.
      - apply Hprefix. lia. }
    exists batches. split.
    + unfold cur' in Hb. by rewrite <- app_assoc in Hb.
    + rewrite <- Hf. unfold buffer, cur'. by destruct cur.
Qed.

Lemma for_each_run {X} (f : X -> Ap unit) x l a :
  for_each (x :: l) f a =
  match f x a with
  | (Return err, a') => (Return err, a')
  | (Next _, a') => for_each l f a'
  end.
Proof. reflexivity. Qed.

Lemma ap_bind {X Y} (m : Ap X) (f : X -> Ap Y) a :
  (m ≫= f) a =
  match m a with
  | (Return err, a') => (Return err, a')
  | (Next x, a') => f x a'
  end.
Proof. reflexivity. Qed.

(** the loop over the rows runs the statements [flushed] lists, one after
    the other, up to the first error of [execQuery] *)
Lemma rows_loop_flushed d entry n rows : ∀ i buf a,
  rows_loop d entry n i rows buf a = exec_each d (flushed d entry n i rows buf) a.
Proof.
  induction rows as [|cells rest IH]; intros i buf a; [done|].
  cbn [rows_loop flushed].
  destruct ((Z.of_nat i =? Z.of_nat n - 1)%Z || _); [|apply IH].
  unfold exec_each. rewrite for_each_run, !ap_bind.
  destruct (execQuery d (write_row d entry buf cells) a) as [[err|[err|]] a'];
    [done|done|]. apply IH.
Qed.

(** the loop over the rows runs one statement per batch of a cut of the rows *)
Lemma rows_loop_batches d entry :
  ∃ batches,
    batching d entry (ValuesX entry) batches ∧
    ∀ a, rows_loop d entry (length (ValuesX entry)) 0 (ValuesX entry) "" a
         = exec_each d (map (statement d entry) batches) a.
Proof.
  destruct (flushed_batches d entry (length (ValuesX entry)) (ValuesX entry) 0 [])
    as (batches & Hb & Hf); [done|by left|cbn; lia|].
  exists batches. split; [done|].
  intros a. rewrite rows_loop_flushed. change "" with (buffer d entry []).
  by rewrite Hf.
Qed.

(** C4.  The rows of [entry.ValuesX] are cut into batches, in order and
    without loss; each batch goes to [execQuery] as one statement [replace
    into s.t values (...),(...)], in which a nil cell reads NULL and any
    other cell reads as its escaped value between single quotes
    ([statement], [row_sql], [cell_sql]).  A batch ends exactly where the
    rendered statement has reached [BufSizeLimit], 1 MiB, or the rows end:
    no batch had reached the limit before its last row, and every batch but
    the last has.  With no rows there is no batch, and nothing is executed. *)
Theorem rows_are_batched (d : Dest) (entry : DumpEntry) :
  ∃ batches,
    batching d entry (ValuesX entry) batches ∧
    (∀ a, rows_loop d entry (length (ValuesX entry)) 0 (ValuesX entry) "" a
          = exec_each d (map (statement d entry) batches) a) ∧
    (ValuesX entry = [] -> batches = [] ∧
       ∀ a, rows_loop d entry (length (ValuesX entry)) 0 (ValuesX entry) "" a
            = (Next (), a)).
Proof.
  destruct (flushed_batches d entry (length (ValuesX entry)) (ValuesX entry) 0 [])
    as (batches & Hb & Hf); [done|by left|cbn; lia|].
  exists batches. split; [done|]. split.
  - intros a. rewrite rows_loop_flushed. change "" with (buffer d entry []).
    by rewrite Hf.
  - intros Hnil. split.
    + destruct Hb as [Hcover Hnonempty _ _]. cbn [app] in Hcover.
      rewrite Hnil in Hcover. destruct batches as [|b batches]; [done|].
      apply Forall_cons in Hnonempty as [Hne _]. cbn [concat] in Hcover.
      by destruct b.
    + by rewrite Hnil.
Qed.

(** *** The transaction *)

(** what a statement leaves alone *)
Definition same_destination (a a' : applier) : Prop :=
  dbs a' = dbs a ∧ committed a' = committed a ∧ reported a' = reported a ∧
  TotalRowsReplayed a' = TotalRowsReplayed a.

Lemma same_destination_refl a : same_destination a a.
Proof. by repeat split. Qed.

Lemma same_destination_trans a b c :
  same_destination a b -> same_destination b c -> same_destination a c.
Proof. unfold same_destination. intros (?&?&?&?) (?&?&?&?). repeat split; congruence. Qed.

(** the warnings in what was logged between two states *)
Definition warned (l : list log_entry) : list string :=
  log_msg <$> filter (λ e, log_level e = LWarn) l.

(** [execQuery], computed *)
Lemma execQuery_run d query a :
  execQuery d query a =
  let a1 := with_logged a (logged a ++ [Log LDebug "ApplyEventQueries. exec"]) in
  match tx_exec d (tx a) query with
  | None => (Next None, with_tx a1 (tx a ++ [query]))
  | Some err =>
      if IgnoreError d err then
        if IgnoreExistsError d err then (Next None, a1)
        else (Next None,
              with_logged a1 (logged a1 ++ [Log LWarn "ApplyEventQueries. ignore error"]))
      else (Next (Some (wrapped err query)),
            with_logged a1 (logged a1 ++ [Log LError "ApplyEventQueries. exec error"]))
  end.
Proof.
  unfold execQuery, mbind, Ap_bind, logger, tx_ExecContext, mret, Ap_ret.
  cbn [tx with_logged].
  destruct (tx_exec d (tx a) query) as [err|]; [|reflexivity].
  destruct (IgnoreError d err), (IgnoreExistsError d err); reflexivity.
Qed.

(** [execQuery] on a statement that fails: an error [IgnoreError] accepts is
    swallowed, with a warning unless [IgnoreExistsError] accepts it too; any
    other error is returned wrapped.  The transaction stays as it was. *)
Lemma execQuery_failed d query a err :
  tx_exec d (tx a) query = Some err ->
  let r := execQuery d query a in
  tx r.2 = tx a ∧ same_destination a r.2 ∧
  (IgnoreError d err = true ->
     r.1 = Next None ∧
     ∃ new, logged r.2 = logged a ++ new ∧
       warned new = if IgnoreExistsError d err then []
                    else ["ApplyEventQueries. ignore error"]) ∧
  (IgnoreError d err = false -> r.1 = Next (Some (wrapped err query))).
Proof.
  intros Hexec. cbv zeta. rewrite execQuery_run, Hexec. cbv zeta.
  destruct (IgnoreError d err); [destruct (IgnoreExistsError d err)|];
    cbn [fst snd tx with_logged logged];
    (split; [done|]); (split; [by repeat split|]).
  - split; [|done]. intros _. split; [done|].
    by exists [Log LDebug "ApplyEventQueries. exec"].
  - split; [|done]. intros _. split; [done|].
    exists [Log LDebug "ApplyEventQueries. exec";
            Log LWarn "ApplyEventQueries. ignore error"].
    split; [by rewrite <- app_assoc | by vm_compute].
  - split; [done|]. by intros _.
Qed.

Lemma execQuery_applied d query a :
  tx_exec d (tx a) query = None ->
  let r := execQuery d query a in
  r.1 = Next None ∧ tx r.2 = tx a ++ [query] ∧ same_destination a r.2.
Proof.
  intros Hexec. cbv zeta. rewrite execQuery_run, Hexec. cbv zeta.
  cbn [fst snd tx with_tx]. by repeat split.
Qed.

Definition flow_of (r : option error) : flow unit :=
  match r with Some err => Return (Some err) | None => Next () end.

(** [exec_each] follows [applied] *)
Lemma exec_each_applied d stmts : ∀ a,
  let r := exec_each d stmts a in
  r.1 = flow_of (applied d (tx a) stmts).1 ∧
  tx r.2 = (applied d (tx a) stmts).2 ∧
  same_destination a r.2.
Proof.
  induction stmts as [|query rest IH]; intros a.
  { cbn. split; [done|]. split; [done|]. apply same_destination_refl. }
  cbv zeta. unfold exec_each. rewrite for_each_run, ap_bind. cbn [applied].
  destruct (tx_exec d (tx a) query) as [err|] eqn:Hexec.
  - destruct (execQuery_failed d query a err Hexec) as (Htx & Hsame & Hign & Hfatal).
    destruct (IgnoreError d err).
    + destruct (Hign eq_refl) as [Hr _].
      destruct (execQuery d query a) as [r a1]. cbn [fst snd] in *. subst r.
      cbn [mret Ap_ret]. fold (exec_each d rest a1).
      destruct (IH a1) as (H1 & H2 & H3). rewrite Htx in *.
      split; [done|]. split; [done|]. by eapply same_destination_trans.
    + specialize (Hfatal eq_refl).
      destruct (execQuery d query a) as [r a1]. cbn [fst snd] in *. subst r.
      by cbn.
  - destruct (execQuery_applied d query a Hexec) as (Hr & Htx & Hsame).
    destruct (execQuery d query a) as [r a1]. cbn [fst snd] in *. subst r.
    cbn [mret Ap_ret]. fold (exec_each d rest a1).
    destruct (IH a1) as (H1 & H2 & H3). rewrite Htx in *.
    split; [done|]. split; [done|]. by eapply same_destination_trans.
Qed.

Lemma queries_loop_exec_each d queries a :
  queries_loop d queries a = exec_each d (filter (λ q, q ≠ "") queries) a.
Proof.
  revert a. induction queries as [|q queries IH]; intros a; [done|].
  unfold queries_loop. rewrite for_each_run, filter_cons.
  destruct (decide (q = "")) as [->|Hne].
  - rewrite decide_False by (by intros ?). cbn [mret Ap_ret]. apply IH.
  - rewrite decide_True by done. unfold exec_each. rewrite for_each_run.
    match goal with
    | |- context [match ?m a with _ => _ end] => destruct (m a) as [[err|[]] a']
    end; [done|]. apply IH.
Qed.

Lemma applied_app d l1 l2 : ∀ ran,
  applied d ran (l1 ++ l2) =
  match applied d ran l1 with
  | (Some err, ran') => (Some err, ran')
  | (None, ran') => applied d ran' l2
  end.
Proof.
  induction l1 as [|q l1 IH]; intros ran; [done|].
  cbn [app applied]. destruct (tx_exec d ran q) as [err|]; [|apply IH].
  destruct (IgnoreError d err); [apply IH|done].
Qed.

Lemma exec_each_cons d q l a :
  exec_each d (q :: l) a =
  match execQuery d q a with
  | (Return err, a') => (Return err, a')
  | (Next (Some err), a') => (Return (Some err), a')
  | (Next None, a') => exec_each d l a'
  end.
Proof.
  unfold exec_each. rewrite for_each_run, ap_bind.
  by destruct (execQuery d q a) as [[err|[err|]] a'].
Qed.

Lemma exec_each_app d l1 l2 a :
  exec_each d (l1 ++ l2) a = (exec_each d l1 ;; exec_each d l2) a.
Proof.
  revert a. induction l1 as [|q l1 IH]; intros a; [done|].
  rewrite <- app_comm_cons, ap_bind, !exec_each_cons.
  destruct (execQuery d q a) as [[err|[err|]] a']; [done|done|].
  by rewrite IH, ap_bind.
Qed.

(** where [applied] stops with an error: at the first statement whose error
    [IgnoreError] rejects; nothing behind it has run *)
Lemma applied_fatal d stmts : ∀ ran e ran',
  applied d ran stmts = (Some e, ran') ->
  ∃ before query after err,
    stmts = before ++ query :: after ∧
    applied d ran before = (None, ran') ∧
    tx_exec d ran' query = Some err ∧
    IgnoreError d err = false ∧
    e = wrapped err query.
Proof.
  induction stmts as [|q rest IH]; intros ran e ran' H; [done|].
  cbn [applied] in H. destruct (tx_exec d ran q) as [err|] eqn:Hexec.
  - destruct (IgnoreError d err) eqn:Hign.
    + destruct (IH _ _ _ H) as (before & query & after & err' & -> & Hb & Hq & Hi & ->).
      exists (q :: before), query, after, err'. cbn [applied app].
      by rewrite Hexec, Hign.
    + injection H as <- <-. by exists [], q, rest, err.
  - destruct (IH _ _ _ H) as (before & query & after & err' & -> & Hb & Hq & Hi & ->).
    exists (q :: before), query, after, err'. cbn [applied app].
    by rewrite Hexec.
Qed.

Lemma worker_step_ok d what query i a :
  conn_exec d i query = None ->
  worker_step d what query i a =
  (Next (),
   let a1 := with_logged a (logged a ++ [Log LDebug what]) in
   with_on_workers a1 (on_workers a1 ++ [(i, query)])).
Proof.
  intros Hok. unfold worker_step, mbind, Ap_bind, logger, worker_exec.
  by rewrite Hok.
Qed.

Lemma on_each_worker_ok d what query a :
  (∀ i query, conn_exec d i query = None) ->
  let r := on_each_worker d what query a in
  r.1 = Next () ∧ tx r.2 = tx a ∧ same_destination a r.2.
Proof.
  intros Hok. cbv zeta. unfold on_each_worker. rewrite ap_bind.
  generalize (seq 0 (dbs a)). intros l. revert a.
  induction l as [|i l IH]; intros a.
  { split; [done|]. split; [done|]. apply same_destination_refl. }
  rewrite for_each_run, worker_step_ok by done. cbv zeta.
  match goal with |- context [for_each l _ ?a1] => destruct (IH a1) as (H1 & H2 & H3) end.
  split; [done|]. split; [done|].
  eapply same_destination_trans; [|exact H3]. by repeat split.
Qed.

Lemma prepare_workers_ok d entry a :
  (∀ i query, conn_exec d i query = None) ->
  let r := prepare_workers d entry a in
  r.1 = Next () ∧ tx r.2 = tx a ∧ same_destination a r.2.
Proof.
  intros Hok. cbv zeta. unfold prepare_workers. rewrite ap_bind.
  assert (Hstep : ∀ (P : Prop) (c : {P} + {¬ P}) what query a0,
    let m := if c then on_each_worker d what query else mret () in
    (m a0).1 = Next () ∧ tx (m a0).2 = tx a0 ∧ same_destination a0 (m a0).2).
  { intros P [] what query a0; cbv zeta.
    - by apply on_each_worker_ok.
    - split; [done|]. split; [done|]. apply same_destination_refl. }
  destruct (Hstep _ (decide (SystemVariablesStatement entry ≠ ""))
              "exec sysvar query" (SystemVariablesStatement entry) a) as (H1 & H2 & H3).
  cbv zeta in *.
  match type of H1 with (?m a).1 = _ => destruct (m a) as [r1 a1] end.
  cbn [fst snd] in *. subst r1.
  destruct (Hstep _ (decide (SqlMode entry ≠ ""))
              "exec sqlmode query" (SqlMode entry) a1) as (H4 & H5 & H6).
  cbv zeta in *. split; [done|]. split; [congruence|].
  by eapply same_destination_trans.
Qed.

(** the statements of the transaction behind the session statement: the
    non-empty queries of the entry, then one statement per batch of rows *)
Definition transaction_statements (d : Dest) (entry : DumpEntry)
    (batches : list (list row)) : list string :=
  filter (λ q, q ≠ "")
    ([SystemVariablesStatement entry; SqlMode entry; DbSQL entry] ++ TbSQL entry)
  ++ map (statement d entry) batches.

(** the error the transaction ends with and the statements it has applied by
    then: the session statement is not passed through [IgnoreError] *)
Definition transaction_outcome (d : Dest) (stmts : list string)
  : option error * list string :=
  match tx_exec d [] sessionQuery with
  | Some err => (Some err, [])
  | None => applied d [sessionQuery] stmts
  end.

Lemma in_transaction_outcome d entry batches a :
  tx a = [] ->
  (∀ a0, rows_loop d entry (length (ValuesX entry)) 0 (ValuesX entry) "" a0
         = exec_each d (map (statement d entry) batches) a0) ->
  let queries :=
    [SystemVariablesStatement entry; SqlMode entry; DbSQL entry] ++ TbSQL entry in
  let o := transaction_outcome d (transaction_statements d entry batches) in
  let r := in_transaction d entry queries a in
  r.1 = Return o.1 ∧ tx r.2 = o.2 ∧ same_destination a r.2.
Proof.
  intros Htx Hrows. cbv zeta. unfold in_transaction, transaction_outcome.
  rewrite ap_bind.
  assert (Hsession : tx_ExecContext d sessionQuery a =
    match tx_exec d [] sessionQuery with
    | Some err => (Next (Some err), a)
    | None => (Next None, with_tx a ([] ++ [sessionQuery]))
    end) by (unfold tx_ExecContext; by rewrite Htx).
  rewrite Hsession. clear Hsession.
  destruct (tx_exec d [] sessionQuery) as [err|].
  { split; [done|]. split; [done|]. apply same_destination_refl. }
  set (a1 := with_tx a ([] ++ [sessionQuery])).
  rewrite ap_bind, queries_loop_exec_each.
  unfold transaction_statements. rewrite applied_app.
  set (qs := filter _ _).
  destruct (exec_each_applied d qs a1) as (H1 & H2 & H3).
  change (tx a1) with [sessionQuery] in *.
  destruct (exec_each d qs a1) as [r1 a2]. cbn [fst snd] in *.
  destruct (applied d [sessionQuery] qs) as [[e|] ran1]; cbn [fst snd flow_of] in *;
    subst r1.
  { split; [done|]. split; [done|].
    eapply same_destination_trans; [|exact H3]. by repeat split. }
  rewrite ap_bind, Hrows.
  destruct (exec_each_applied d (map (statement d entry) batches) a2) as (H4 & H5 & H6).
  rewrite H2 in *.
  destruct (exec_each d (map (statement d entry) batches) a2) as [r2 a3].
  cbn [fst snd] in *.
  destruct (applied d ran1 (map (statement d entry) batches)) as [[e|] ran2];
    cbn [fst snd flow_of] in *; subst r2.
  - split; [done|]. split; [done|].
    eapply same_destination_trans; [|exact H6].
    eapply same_destination_trans; [|exact H3]. by repeat split.
  - split; [done|]. split; [done|].
    eapply same_destination_trans; [|exact H6].
    eapply same_destination_trans; [|exact H3]. by repeat split.
Qed.

(** [ApplyEventQueries] on workers that accept their statements and a
    destination that opens the transaction: the error is the one the
    transaction ends with, and the deferred function runs on the applier the
    transaction leaves *)
Lemma ApplyEventQueries_run d entry batches a :
  (∀ i query, conn_exec d i query = None) ->
  begin_tx d = None ->
  (∀ a0, rows_loop d entry (length (ValuesX entry)) 0 (ValuesX entry) "" a0
         = exec_each d (map (statement d entry) batches) a0) ->
  let o := transaction_outcome d (transaction_statements d entry batches) in
  ∃ a',
    ApplyEventQueries d entry a
      = (o.1, deferred d (Z.of_nat (length (ValuesX entry))) a') ∧
    tx a' = o.2 ∧ same_destination a a'.
Proof.
  intros Hworkers Hbegin Hrows. cbv zeta.
  unfold ApplyEventQueries, body. rewrite !ap_bind. cbn [logger].
  set (a1 := with_logged a _). rewrite ap_bind.
  destruct (prepare_workers_ok d entry a1 Hworkers) as (H1 & H2 & H3).
  destruct (prepare_workers d entry a1) as [r1 a2]. cbn [fst snd] in *. subst r1.
  rewrite Hbegin, ap_bind. set (a3 := with_tx a2 []).
  unfold defer.
  destruct (in_transaction_outcome d entry batches a3 eq_refl Hrows) as (H4 & H5 & H6).
  cbv zeta in *.
  destruct (in_transaction d entry _ a3) as [r2 a4]. cbn [fst snd] in *. subst r2.
  exists a4. split; [done|]. split; [done|].
  eapply same_destination_trans; [|exact H6].
  eapply same_destination_trans; [|by repeat split].
  eapply same_destination_trans; [|exact H3]. by repeat split.
Qed.

(** C3, amended.  In [ApplyEventQueries], once the transaction is open: a
    statement error that satisfies [IgnoreError] is swallowed, with a warning
    logged unless it satisfies [IgnoreExistsError] too, and the statements
    behind it run; the first error that does not satisfy [IgnoreError] ends
    the run and is returned to the caller, wrapped.  In both cases the
    deferred [Commit] then runs on the transaction as it is: what the
    statements before the error have applied is committed, nothing is rolled
    back; only a failing [Commit] leaves it uncommitted, and is reported. *)
Theorem ApplyEventQueries_error_discipline (d : Dest) (entry : DumpEntry) (a : applier) :
  (∀ i query, conn_exec d i query = None) ->
  begin_tx d = None ->
  (∀ a0 query err, tx_exec d (tx a0) query = Some err ->
     let r := execQuery d query a0 in
     tx r.2 = tx a0 ∧
     (IgnoreError d err = true ->
        r.1 = Next None ∧
        ∃ new, logged r.2 = logged a0 ++ new ∧
          warned new = if IgnoreExistsError d err then []
                       else ["ApplyEventQueries. ignore error"]) ∧
     (IgnoreError d err = false -> r.1 = Next (Some (wrapped err query)))) ∧
  ∃ batches,
    batching d entry (ValuesX entry) batches ∧
    let o := transaction_outcome d (transaction_statements d entry batches) in
    let r := ApplyEventQueries d entry a in
    r.1 = o.1 ∧
    match tx_commit d o.2 with
    | None => committed r.2 = committed a ++ [o.2] ∧ reported r.2 = reported a
    | Some err => committed r.2 = committed a ∧ reported r.2 = reported a ++ [err]
    end.
Proof.
  intros Hworkers Hbegin. split.
  { intros a0 query err Hexec.
    destruct (execQuery_failed d query a0 err Hexec) as (H1 & _ & H2 & H3). auto. }
  destruct (rows_loop_batches d entry) as (batches & Hb & Hrows).
  exists batches. split; [done|]. cbv zeta.
  destruct (ApplyEventQueries_run d entry batches a Hworkers Hbegin Hrows)
    as (a' & -> & Htx & _ & Hc & Hr & _).
  split; [done|]. unfold deferred. cbn [fst snd]. rewrite Htx.
  destruct (tx_commit d _); cbn; by rewrite ?Hc, ?Hr, ?Htx.
Qed.

(** *** A destination, two entries *)

Definition syntax_error : error :=
  Errorf "Error 1064: You have an error in your SQL syntax".

Definition table_exists : error :=
  Errorf "Error 1050: Table 't' already exists".

(** a destination that rejects the statement [create table broken] and
    finds the table [t] there already; only the latter error is ignored *)
Definition destination : Dest :=
  {| IgnoreError := λ err, bool_decide (err = table_exists);
     IgnoreExistsError := λ err, bool_decide (err = table_exists);
     EscapeName := λ name, "`" +:+ name +:+ "`";
     EscapeValue := λ v, v;
     conn_exec := λ _ _, None;
     begin_tx := None;
     tx_exec := λ _ query,
       if decide (query = "create table broken") then Some syntax_error
       else if decide (query = "create table t (a int, b varchar(8))")
            then Some table_exists
            else None;
     tx_commit := λ _, None |}.

Definition idle : applier :=
  {| dbs := 1; logged := []; on_workers := []; tx := []; committed := [];
     reported := []; TotalRowsReplayed := 0 |}.

(** the entry of scenario 5 of the design document *)
Definition entry_s_t : DumpEntry :=
  {| SystemVariablesStatement := "";
     SqlMode := "";
     DbSQL := "create database if not exists s";
     TbSQL := ["create table t (a int, b varchar(8))"];
     TableSchema := "s";
     TableName := "t";
     ValuesX := [[Some "1"; Some "x"]; [Some "2"; None]] |}.

(** an entry whose table statement the destination rejects *)
Definition entry_broken : DumpEntry :=
  {| SystemVariablesStatement := "";
     SqlMode := "";
     DbSQL := "create database if not exists s";
     TbSQL := ["create table broken"];
     TableSchema := "s";
     TableName := "t";
     ValuesX := [[Some "1"; Some "x"]] |}.

(** scenario 5: the two rows go out as one statement; the table being
    there already is no error *)
Example scenario_5_one_statement :
  let r := ApplyEventQueries destination entry_s_t idle in
  r.1 = None ∧
  committed r.2 =
    [[sessionQuery;
      "create database if not exists s";
      "replace into `s`.`t` values ('1','x'),('2',NULL)"]].
Proof. vm_compute. split; reflexivity. Qed.

(** C3 as the design document has it, refuted: the table statement fails
    with an error [IgnoreError] rejects.  The error reaches the caller, but
    the transaction is not aborted: the deferred [Commit] commits the two
    statements that ran before the failing one. *)
Lemma ApplyEventQueries_commits_after_error :
  let r := ApplyEventQueries destination entry_broken idle in
  IgnoreError destination syntax_error = false ∧
  r.1 = Some (wrapped syntax_error "create table broken") ∧
  committed r.2 = [[sessionQuery; "create database if not exists s"]].
Proof. vm_compute. repeat split; reflexivity. Qed.

(** the theorem at that entry *)
Lemma ApplyEventQueries_error_discipline_witness :
  (∀ i query, conn_exec destination i query = None) ∧
  begin_tx destination = None ∧
  ∃ batches,
    batching destination entry_broken (ValuesX entry_broken) batches ∧
    let o := transaction_outcome destination
               (transaction_statements destination entry_broken batches) in
    let r := ApplyEventQueries destination entry_broken idle in
    r.1 = o.1 ∧
    match tx_commit destination o.2 with
    | None => committed r.2 = committed idle ++ [o.2] ∧ reported r.2 = reported idle
    | Some err => committed r.2 = committed idle ∧ reported r.2 = reported idle ++ [err]
    end.
Proof.
  split; [reflexivity|]. split; [reflexivity|].
  exact (proj2 (ApplyEventQueries_error_discipline destination entry_broken idle
                  (λ _ _, eq_refl) eq_refl)).
Defined.

End Applier.

(** ** The schema catalog: [TableChecker.checkColumnByName] (package inspector) *)

Module Checker.
Import Merge.

(** A table of the catalog.  The checker only reads it, so the columns are
    kept by value: the names of [table.Cols], in order. *)
Record CreateTableStmt : Type := { Cols : list ColumnName }.

(** [schemaTables map[string]map[string]*ast.CreateTableStmt] *)
Record TableChecker : Type :=
  { schemaTables : gmap string (gmap string CreateTableStmt) }.

(** [newTableChecker()] *)
Definition newTableChecker : TableChecker := {| schemaTables := ∅ |}.

(** [t.add(schemaName, tableName, table)] *)
Definition add (t : TableChecker) (schemaName tableName : string)
    (table : CreateTableStmt) : TableChecker :=
  match schemaTables t !! schemaName with
  | Some tables =>
      {| schemaTables := <[schemaName := <[tableName := table]> tables]> (schemaTables t) |}
  | None =>
      {| schemaTables := <[schemaName := {[ tableName := table ]}]> (schemaTables t) |}
  end.

(** [tableExistCol(table, colName)] *)
Definition tableExistCol (table : CreateTableStmt) (colName : string) : bool :=
  existsb (λ col, bool_decide (CIStr_String (cn_Name col) = colName)) (Cols table).

(** the body of [if exist { ... }]: on [(colExists, colIsAmbiguous)] *)
Definition found (acc : bool * bool) : bool * bool :=
  (true, if acc.1 then true else acc.2).

(** [if exist { ... }] for a table *)
Definition look (colName : string) (table : CreateTableStmt) (acc : bool * bool)
  : bool * bool :=
  if tableExistCol table colName then found acc else acc.

(** the body of [for _, tables := range t.schemaTables] *)
Definition scan_schema (tableName colName : string)
    (tables : gmap string CreateTableStmt) (acc : bool * bool) : bool * bool :=
  let acc :=
    match tables !! tableName with
    | Some table => look colName table acc
    | None => acc
    end in
  if decide (tableName ≠ "") then acc
  else map_fold (λ _ table acc, look colName table acc) acc tables.

(** [t.checkColumnByName(colNameStmt)]: [(colExists, colIsAmbiguous)].  Go
    walks a map in an order of its choosing; [map_fold] walks it in one. *)
Definition checkColumnByName (t : TableChecker) (colNameStmt : ColumnName)
  : bool * bool :=
  let schemaName := CIStr_String (cn_Schema colNameStmt) in
  let tableName := CIStr_String (cn_Table colNameStmt) in
  let colName := CIStr_String (cn_Name colNameStmt) in
  match schemaTables t !! schemaName ≫= (λ tables, tables !! tableName) with
  | Some table => (tableExistCol table colName, false)
  | None =>
      if decide (schemaName ≠ "") then (false, false)
      else map_fold (λ _ tables acc, scan_schema tableName colName tables acc)
             (false, false) (schemaTables t)
  end.

(** *** The catalog in the words of the design document *)

(** table [tableName] of schema [schemaName] is in the catalog and has a
    column [colName] *)
Definition has_column (t : TableChecker) (schemaName tableName colName : string)
  : Prop :=
  ∃ tables table,
    schemaTables t !! schemaName = Some tables ∧
    tables !! tableName = Some table ∧
    tableExistCol table colName = true.

(** no table of the catalog is named by the empty string *)
Definition tables_named (t : TableChecker) : Prop :=
  ∀ schemaName tables,
    schemaTables t !! schemaName = Some tables -> tables !! "" = None.

(** a column reference *)
Definition column_ref (schemaName tableName colName : string) : ColumnName :=
  {| cn_Schema := ci schemaName; cn_Table := ci tableName; cn_Name := ci colName |}.

Definition table_of (cols : list string) : CreateTableStmt :=
  {| Cols := map (λ c, column_ref "" "" c) cols |}.

(** two schemas, each with a table [t (c)] *)
Definition two_schemas : TableChecker :=
  add (add newTableChecker "s1" "t" (table_of ["c"])) "s2" "t" (table_of ["c"]).

(** *** Facts *)

(** A walk over a map whose step, at an entry, records one find or at least
    two: what it has recorded at the end does not depend on the order.  The
    first flag says that some entry had a find, the second that there were
    two finds, counting what the flags held on entry. *)
Lemma walk_flags {V} (Q : V -> Prop) (step : string -> V -> bool * bool -> bool * bool)
    (one two : V -> Prop) :
  (∀ k v acc, Q v ->
     ((step k v acc).1 = true <-> acc.1 = true ∨ one v) ∧
     ((step k v acc).2 = true <-> acc.2 = true ∨ (acc.1 = true ∧ one v) ∨ two v)) ->
  ∀ (m : gmap string V) acc,
    map_Forall (λ _ v, Q v) m ->
    let r := map_fold step acc m in
    (r.1 = true <-> acc.1 = true ∨ ∃ k v, m !! k = Some v ∧ one v) ∧
    (r.2 = true <->
       acc.2 = true ∨
       (acc.1 = true ∧ ∃ k v, m !! k = Some v ∧ one v) ∨
       (∃ k v, m !! k = Some v ∧ two v) ∨
       (∃ k1 v1 k2 v2, k1 ≠ k2 ∧ m !! k1 = Some v1 ∧ m !! k2 = Some v2 ∧
          one v1 ∧ one v2)).
Proof.
  intros Hstep m acc. cbv zeta.
  apply (map_fold_weak_ind (λ r (m : gmap string V),
    map_Forall (λ _ v, Q v) m ->
    (r.1 = true <-> acc.1 = true ∨ ∃ k v, m !! k = Some v ∧ one v) ∧
    (r.2 = true <->
       acc.2 = true ∨
       (acc.1 = true ∧ ∃ k v, m !! k = Some v ∧ one v) ∨
       (∃ k v, m !! k = Some v ∧ two v) ∨
       (∃ k1 v1 k2 v2, k1 ≠ k2 ∧ m !! k1 = Some v1 ∧ m !! k2 = Some v2 ∧
          one v1 ∧ one v2)))).
  - intros _. split.
    + split; [auto|]. intros [?|(k & v & Hk & _)]; [done|].
      by rewrite lookup_empty in Hk.
    + split; [auto|].
      intros [?|[[_ (k & v & Hk & _)]|[(k & v & Hk & _)|(k & v & ? & ? & _ & Hk & _)]]];
        [done|by rewrite lookup_empty in Hk..].
  - clear m. intros i x m r Hi IH HQ.
    apply map_Forall_insert in HQ as [Hx HQ]; [|done].
    destruct (IH HQ) as [IH1 IH2]. clear IH.
    destruct (Hstep i x r Hx) as [H1 H2]. rewrite H1, H2, IH1, IH2.
    clear H1 H2 IH1 IH2 Hstep.
    assert (Hin : ∀ k v, m !! k = Some v -> <[i:=x]> m !! k = Some v ∧ k ≠ i).
    { intros k v Hk. assert (k ≠ i) by congruence.
      by rewrite lookup_insert_ne. }
    assert (Hout : ∀ k v, <[i:=x]> m !! k = Some v ->
                          (k = i ∧ v = x) ∨ (k ≠ i ∧ m !! k = Some v)).
    { intros k v Hk. destruct (decide (k = i)) as [->|Hne].
      - rewrite lookup_insert_eq in Hk. left. split; congruence.
      - rewrite lookup_insert_ne in Hk by done. by right. }
    assert (Hi' : <[i:=x]> m !! i = Some x) by apply lookup_insert_eq.
    split.
    + split.
      * intros [[?|(k & v & Hk & Ho)]|Ho]; [by left| |].
        -- right. exists k, v. split; [by apply Hin|done].
        -- right. by exists i, x.
      * intros [?|(k & v & Hk & Ho)]; [by left; left|].
        destruct (Hout k v Hk) as [[-> ->]|[_ Hk']]; [by right|].
        left. right. by exists k, v.
    + split.
      * intros [[?|[[? (k & v & Hk & Ho)]|[(k & v & Hk & Ht)|
                 (k1 & v1 & k2 & v2 & Hne & Hk1 & Hk2 & Ho1 & Ho2)]]]|
                [[[?|(k & v & Hk & Ho)] Ho']|Ht]].
        -- by left.
        -- right. left. split; [done|]. exists k, v. split; [by apply Hin|done].
        -- right. right. left. exists k, v. split; [by apply Hin|done].
        -- right. right. right. exists k1, v1, k2, v2.
           split; [done|]. split; [by apply Hin|]. split; [by apply Hin|done].
        -- right. left. split; [done|]. by exists i, x.
        -- right. right. right. exists k, v, i, x.
           destruct (Hin k v Hk) as [? ?]. by repeat split.
        -- right. right. left. by exists i, x.
      * intros [?|[[He (k & v & Hk & Ho)]|[(k & v & Hk & Ht)|
                 (k1 & v1 & k2 & v2 & Hne & Hk1 & Hk2 & Ho1 & Ho2)]]].
        -- by left; left.
        -- destruct (Hout k v Hk) as [[-> ->]|[_ Hk']].
           ++ right. left. split; [by left|done].
           ++ left. right. left. split; [done|]. by exists k, v.
        -- destruct (Hout k v Hk) as [[-> ->]|[_ Hk']].
           ++ by right; right.
           ++ left. right. right. left. by exists k, v.
        -- destruct (Hout k1 v1 Hk1) as [[-> ->]|[_ Hk1']],
             (Hout k2 v2 Hk2) as [[-> ->]|[_ Hk2']].
           ++ done.
           ++ right. left. split; [|done]. right. by exists k2, v2.
           ++ right. left. split; [|done]. right. by exists k1, v1.
           ++ left. right. right. right. by exists k1, v1, k2, v2.
Qed.

Lemma look_flags colName table acc :
  ((look colName table acc).1 = true <->
     acc.1 = true ∨ tableExistCol table colName = true) ∧
  ((look colName table acc).2 = true <->
     acc.2 = true ∨ (acc.1 = true ∧ tableExistCol table colName = true) ∨ False).
Proof.
  unfold look, found. destruct acc as [[] []], (tableExistCol table colName);
    cbn; intuition congruence.
Qed.

(** what a schema adds to the flags: a find ([one_in]) or two ([two_in]) *)
Definition one_in (tableName colName : string) (tables : gmap string CreateTableStmt)
  : Prop :=
  ∃ n table, tables !! n = Some table ∧ tableExistCol table colName = true ∧
             (tableName ≠ "" -> n = tableName).

Definition two_in (tableName colName : string) (tables : gmap string CreateTableStmt)
  : Prop :=
  ∃ n1 table1 n2 table2,
    n1 ≠ n2 ∧ tables !! n1 = Some table1 ∧ tables !! n2 = Some table2 ∧
    tableExistCol table1 colName = true ∧ tableExistCol table2 colName = true ∧
    tableName = "".

Lemma scan_schema_flags tableName colName tables acc :
  tables !! "" = None ->
  ((scan_schema tableName colName tables acc).1 = true <->
     acc.1 = true ∨ one_in tableName colName tables) ∧
  ((scan_schema tableName colName tables acc).2 = true <->
     acc.2 = true ∨ (acc.1 = true ∧ one_in tableName colName tables) ∨
     two_in tableName colName tables).
Proof.
  intros Hnamed. unfold scan_schema.
  destruct (decide (tableName ≠ "")) as [Hne|Heq].
  - (* a table qualifier: the one table of that name *)
    assert (Hone : one_in tableName colName tables <->
              ∃ table, tables !! tableName = Some table ∧
                       tableExistCol table colName = true).
    { split.
      - intros (n & table & Hn & Hc & Hq). rewrite (Hq Hne) in Hn. by exists table.
      - intros (table & Hn & Hc). by exists tableName, table. }
    assert (Htwo : ¬ two_in tableName colName tables).
    { intros (? & ? & ? & ? & _ & _ & _ & _ & _ & ?). done. }
    rewrite Hone. destruct (tables !! tableName) as [table|].
    + destruct (look_flags colName table acc) as [-> ->]. split.
      * split; (intros [?|H]; [by left|right]); [by exists table|].
        destruct H as (table' & [= <-] & ?). done.
      * split.
        -- intros [?|[[? ?]|[]]]; [by left|]. right. left. split; [done|]. by exists table.
        -- intros [?|[[? (table' & [= <-] & ?)]|?]]; [by left| |done].
           right. by left.
    + split; (split; [auto|]).
      * intros [?|(? & ? & _)]; done.
      * intros [?|[[_ (? & ? & _)]|?]]; done.
  - (* no table qualifier: every table of the schema *)
    apply dec_stable in Heq. subst tableName. rewrite Hnamed.
    destruct (walk_flags (λ _, True) (λ _ table acc, look colName table acc)
                (λ table, tableExistCol table colName = true) (λ _, False)
                (λ _ table acc _, look_flags colName table acc) tables acc)
      as [-> ->]; [by intros ???|].
    split.
    + split; (intros [?|H]; [by left|right]).
      * destruct H as (n & table & ? & ?). by exists n, table.
      * destruct H as (n & table & ? & ? & _). by exists n, table.
    + split.
      * intros [?|[[? (n & table & ? & ?)]|[(? & ? & _ & [])|
                 (n1 & t1 & n2 & t2 & ? & ? & ? & ? & ?)]]].
        -- by left.
        -- right. left. split; [done|]. by exists n, table.
        -- right. right. by exists n1, t1, n2, t2.
      * intros [?|[[? (n & table & ? & ? & _)]|
                 (n1 & t1 & n2 & t2 & ? & ? & ? & ? & ? & _)]].
        -- by left.
        -- right. left. split; [done|]. by exists n, table.
        -- right. right. right. by exists n1, t1, n2, t2.
Qed.

(** C6 as the design document has it, refuted: with a table [t (c)] in each
    of two schemas, the reference [t.c] carries a table qualifier, and is
    reported ambiguous all the same. *)
Lemma checkColumnByName_qualified_ambiguous :
  checkColumnByName two_schemas (column_ref "" "t" "c") = (true, true) ∧
  CIStr_String (cn_Table (column_ref "" "t" "c")) ≠ "".
Proof. split; [vm_compute; reflexivity | discriminate]. Qed.

(** C6, amended.  In a catalog whose tables have names:
    - a reference that names a schema is resolved in that schema's table of
      that name, and only there: it exists if that table has the column, and
      is never ambiguous;
    - a reference without a schema is looked up in every schema, in the
      table its table qualifier names or, when it is bare, in all tables;
      it exists when one of them has the column, and it is ambiguous exactly
      when more than one of them has. *)
Theorem checkColumnByName_resolves (t : TableChecker) (colNameStmt : ColumnName) :
  tables_named t ->
  let schemaName := CIStr_String (cn_Schema colNameStmt) in
  let tableName := CIStr_String (cn_Table colNameStmt) in
  let colName := CIStr_String (cn_Name colNameStmt) in
  let direct := schemaTables t !! schemaName ≫= (λ tables, tables !! tableName) in
  let r := checkColumnByName t colNameStmt in
  (∀ table, direct = Some table -> r = (tableExistCol table colName, false)) ∧
  (direct = None -> schemaName ≠ "" -> r = (false, false)) ∧
  (direct = None -> schemaName = "" ->
     (r.1 = true <->
        ∃ s n, has_column t s n colName ∧ (tableName ≠ "" -> n = tableName)) ∧
     (r.2 = true <->
        ∃ s1 n1 s2 n2,
          (s1, n1) ≠ (s2, n2) ∧
          has_column t s1 n1 colName ∧ has_column t s2 n2 colName ∧
          (tableName ≠ "" -> n1 = tableName ∧ n2 = tableName))).
Proof.
  intros Hnamed. cbv zeta. unfold checkColumnByName.
  set (schemaName := CIStr_String (cn_Schema colNameStmt)).
  set (tableName := CIStr_String (cn_Table colNameStmt)).
  set (colName := CIStr_String (cn_Name colNameStmt)).
  destruct (schemaTables t !! schemaName ≫= _) as [table|] eqn:Hdirect.
  { split; [by intros ? [= <-]|]. split; intros; discriminate. }
  split; [intros; discriminate|]. split.
  { intros _ Hne. by rewrite decide_True. }
  intros _ Heq. rewrite decide_False by (by intros ?).
  destruct (walk_flags (λ tables, tables !! "" = None)
              (λ _ tables acc, scan_schema tableName colName tables acc)
              (one_in tableName colName) (two_in tableName colName)
              (λ _ tables acc H, scan_schema_flags tableName colName tables acc H)
              (schemaTables t) (false, false)) as [-> ->].
  { intros s tables Hs. by eapply Hnamed. }
  cbn [fst snd]. split.
  - split.
    + intros [?|(s & tables & Hs & n & table & Hn & Hc & Hq)]; [done|].
      exists s, n. split; [by exists tables, table|done].
    + intros (s & n & (tables & table & Hs & Hn & Hc) & Hq).
      right. exists s, tables. split; [done|]. by exists n, table.
  - split.
    + intros [?|[[? _]|[(s & tables & Hs & n1 & t1 & n2 & t2 & Hne & H1 & H2 & Hc1 & Hc2 & Hq)|
               (s1 & ts1 & s2 & ts2 & Hne & Hs1 & Hs2 &
                (n1 & t1 & Hn1 & Hc1 & Hq1) & (n2 & t2 & Hn2 & Hc2 & Hq2))]]];
        [done|done| |].
      * exists s, n1, s, n2. split; [congruence|].
        split; [by exists tables, t1|]. split; [by exists tables, t2|].
        intros Hq'. by destruct Hq'.
      * exists s1, n1, s2, n2. split; [congruence|].
        split; [by exists ts1, t1|]. split; [by exists ts2, t2|]. auto.
    + intros (s1 & n1 & s2 & n2 & Hne & (ts1 & t1 & Hs1 & Hn1 & Hc1) &
              (ts2 & t2 & Hs2 & Hn2 & Hc2) & Hq).
      right. right. destruct (decide (s1 = s2)) as [->|Hs].
      * left. rewrite Hs1 in Hs2. injection Hs2 as <-.
        exists s2, ts1. split; [done|]. exists n1, t1, n2, t2.
        split; [congruence|]. repeat (split; [done|]).
        destruct (decide (tableName = "")) as [?|Hq']; [done|].
        destruct (Hq Hq') as [-> ->]. done.
      * right. exists s1, ts1, s2, ts2. split; [done|]. split; [done|]. split; [done|].
        split; [exists n1, t1|exists n2, t2]; (split; [done|]); (split; [done|]);
          intros Hq'; by destruct (Hq Hq').
Qed.

(** [add] keeps the tables named *)
Lemma tables_named_new : tables_named newTableChecker.
Proof.
  intros s tables Hs. cbn [newTableChecker schemaTables] in Hs.
  by rewrite lookup_empty in Hs.
Qed.

Lemma tables_named_add t schemaName tableName table :
  tables_named t -> tableName ≠ "" ->
  tables_named (add t schemaName tableName table).
Proof.
  intros Hnamed Hne s tables Hs. unfold add in Hs.
  destruct (schemaTables t !! schemaName) as [old|] eqn:Hold; cbn [schemaTables] in Hs.
  - destruct (decide (s = schemaName)) as [->|Hs'].
    + rewrite lookup_insert_eq in Hs. injection Hs as <-.
      rewrite lookup_insert_ne by done. by eapply Hnamed.
    + rewrite lookup_insert_ne in Hs by done. by eapply Hnamed.
  - destruct (decide (s = schemaName)) as [->|Hs'].
    + rewrite lookup_insert_eq in Hs. injection Hs as <-.
      by rewrite lookup_singleton_ne.
    + rewrite lookup_insert_ne in Hs by done. by eapply Hnamed.
Qed.

Lemma two_schemas_named : tables_named two_schemas.
Proof.
  unfold two_schemas.
  apply tables_named_add;
    [apply tables_named_add; [apply tables_named_new | discriminate] | discriminate].
Qed.

(** the theorem at the catalog of the counterexample *)
Lemma checkColumnByName_resolves_witness :
  tables_named two_schemas ∧
  ((checkColumnByName two_schemas (column_ref "" "t" "c")).2 = true <->
     ∃ s1 n1 s2 n2,
       (s1, n1) ≠ (s2, n2) ∧
       has_column two_schemas s1 n1 "c" ∧ has_column two_schemas s2 n2 "c" ∧
       ("t" ≠ "" -> n1 = "t" ∧ n2 = "t")).
Proof.
  split; [exact two_schemas_named|].
  exact (proj2 (proj2 (proj2 (checkColumnByName_resolves two_schemas
                  (column_ref "" "t" "c") two_schemas_named)) eq_refl eq_refl)).
Defined.

End Checker.

(** ** The incremental subscription of the applier:
    the callback of [ApplierOracle.subscribeNats] *)

Module Subscriber.
Import GoStrings.

(** [common.NatsMsgMerger], the reassembler, as the callback uses it:
    [Handle] takes a segment and says whether the message is complete,
    [GetBytes] is the payload, [Reset] empties the merger. *)
Class NatsMsgMerger (S : Type) : Type :=
  { Handle : S -> string -> S * (error + bool);
    GetBytes : S -> string;
    Reset : S -> S }.

(** [gonats.Msg] *)
Record Msg : Type := { Data : string; Reply : string }.

(** what the callback does to the world outside *)
Inductive event : Type :=
| Publish (subject : string)   (* a.natsConn.Publish(subject, nil) *)
| Enqueue (bs : string)        (* a.ai.incrBytesQueue <- bs *)
| OnError (err : error).       (* a.onError(common.TaskStateDead, err) *)

Record applier (S : Type) : Type :=
  { incrNMM : S;
    incrBytesQueue : list string;   (* what the channel buffers, oldest first *)
    queue_cap : nat;                (* cap(a.ai.incrBytesQueue) *)
    shutdownCh : bool;              (* closed *)
    memory2 : Z;
    Stage : string;
    events : list event }.
Arguments incrNMM {S} a.
Arguments incrBytesQueue {S} a.
Arguments queue_cap {S} a.
Arguments shutdownCh {S} a.
Arguments memory2 {S} a.
Arguments Stage {S} a.
Arguments events {S} a.

(** where the callback stands: returned, or in its [select] *)
Inductive callback : Type :=
| Returned
| Selecting (m : Msg) (bs : string).

Definition StageWaitingForMasterToSendEvent : string :=
  "Waiting for master to send event".

Section callback.
Context {S : Type} `{NatsMsgMerger S}.

(** the error of [a.natsConn.Publish(subject, nil)], if any *)
Variable publish_error : string -> option error.

Definition with_events (a : applier S) (v : list event) : applier S :=
  {| incrNMM := incrNMM a; incrBytesQueue := incrBytesQueue a;
     queue_cap := queue_cap a; shutdownCh := shutdownCh a;
     memory2 := memory2 a; Stage := Stage a; events := v |}.

Definition with_incrNMM (a : applier S) (v : S) : applier S :=
  {| incrNMM := v; incrBytesQueue := incrBytesQueue a;
     queue_cap := queue_cap a; shutdownCh := shutdownCh a;
     memory2 := memory2 a; Stage := Stage a; events := events a |}.

Definition with_queue (a : applier S) (v : list string) : applier S :=
  {| incrNMM := incrNMM a; incrBytesQueue := v;
     queue_cap := queue_cap a; shutdownCh := shutdownCh a;
     memory2 := memory2 a; Stage := Stage a; events := events a |}.

Definition with_shutdownCh (a : applier S) (v : bool) : applier S :=
  {| incrNMM := incrNMM a; incrBytesQueue := incrBytesQueue a;
     queue_cap := queue_cap a; shutdownCh := v;
     memory2 := memory2 a; Stage := Stage a; events := events a |}.

Definition with_memory2 (a : applier S) (v : Z) : applier S :=
  {| incrNMM := incrNMM a; incrBytesQueue := incrBytesQueue a;
     queue_cap := queue_cap a; shutdownCh := shutdownCh a;
     memory2 := v; Stage := Stage a; events := events a |}.

Definition with_Stage (a : applier S) (v : string) : applier S :=
  {| incrNMM := incrNMM a; incrBytesQueue := incrBytesQueue a;
     queue_cap := queue_cap a; shutdownCh := shutdownCh a;
     memory2 := memory2 a; Stage := v; events := events a |}.

(** [if err := a.natsConn.Publish(m.Reply, nil); err != nil {
      a.onError(common.TaskStateDead, err); return }]: the applier after, and
    whether the callback goes on *)
Definition publish_reply (a : applier S) (m : Msg) : applier S * bool :=
  let a := with_events a (events a ++ [Publish (Reply m)]) in
  match publish_error (Reply m) with
  | Some err => (with_events a (events a ++ [OnError err]), false)
  | None => (a, true)
  end.

(** the callback, from its entry to its return or to its [select] *)
Definition receive (a : applier S) (m : Msg) : applier S * callback :=
  let (nmm, r) := Handle (incrNMM a) (Data m) in
  let a := with_incrNMM a nmm in
  match r with
  | inl err =>
      (with_events a (events a ++ [OnError (Wrapf err "incrNMM.Handle")]), Returned)
  | inr false => ((publish_reply a m).1, Returned)
  | inr true => (a, Selecting m (GetBytes nmm))
  end.

(** [case a.ai.incrBytesQueue <- bs:] and its body *)
Definition sent (a : applier S) (m : Msg) (bs : string) : applier S :=
  let a := with_queue a (incrBytesQueue a ++ [bs]) in
  let a := with_events a (events a ++ [Enqueue bs]) in
  let a := with_memory2 a (memory2 a + len bs) in
  let a := with_incrNMM a (Reset (incrNMM a)) in
  let (a, ok) := publish_reply a m in
  if ok then with_Stage a StageWaitingForMasterToSendEvent else a.

(** The [select] of the callback: the send can be chosen when the channel
    has room, the receive from [shutdownCh] when that is closed; with
    neither, the callback waits. *)
Inductive select_step : applier S -> Msg -> string -> applier S -> Prop :=
| select_send a m bs :
    length (incrBytesQueue a) < queue_cap a ->
    select_step a m bs (sent a m bs)
| select_shutdown a m bs :
    shutdownCh a = true ->
    select_step a m bs a.

(** what the other goroutines do meanwhile: the consumer takes a payload
    off the queue, [Shutdown] closes the channel *)
Inductive other_step : applier S -> applier S -> Prop :=
| other_receives a bs rest :
    incrBytesQueue a = bs :: rest ->
    other_step a (with_queue a rest)
| other_closes a :
    other_step a (with_shutdownCh a true).

(** the subscription: the bus hands a message to the callback when the
    callback has returned from the one before *)
Inductive step : applier S * callback -> applier S * callback -> Prop :=
| step_receive a m :
    step (a, Returned) (receive a m)
| step_select a m bs a' :
    select_step a m bs a' ->
    step (a, Selecting m bs) (a', Returned)
| step_other a a' c :
    other_step a a' ->
    step (a, c) (a', c).

End callback.

(** *** Facts *)

Section facts.
Context {S : Type} `{NatsMsgMerger S}.
Variable publish_error : string -> option error.

Lemma publish_reply_events (a : applier S) m :
  incrBytesQueue (publish_reply publish_error a m).1 = incrBytesQueue a ∧
  ∃ tail, events (publish_reply publish_error a m).1
          = events a ++ Publish (Reply m) :: tail.
Proof.
  unfold publish_reply. destruct (publish_error (Reply m)) as [err|]; cbn.
  - split; [done|]. exists [OnError err]. by rewrite <- app_assoc.
  - split; [done|]. by exists [].
Qed.

(** the other goroutines publish nothing *)
Lemma other_steps_events (a a' : applier S) :
  rtc other_step a a' -> events a' = events a.
Proof.
  induction 1 as [|a b c Hstep _ IH]; [done|].
  rewrite IH. by destruct Hstep.
Qed.

Lemma sent_events (a : applier S) m bs :
  incrBytesQueue (sent publish_error a m bs) = incrBytesQueue a ++ [bs] ∧
  ∃ tail, events (sent publish_error a m bs)
          = events a ++ Enqueue bs :: Publish (Reply m) :: tail.
Proof.
  unfold sent.
  match goal with |- context [publish_reply _ ?x m] => set (a1 := x) end.
  destruct (publish_reply_events a1 m) as [Hq [tail Hev]].
  destruct (publish_reply publish_error a1 m) as [a2 ok]. cbn [fst snd] in *.
  assert (Hq2 : incrBytesQueue a2 = incrBytesQueue a ++ [bs]) by by rewrite Hq.
  assert (Hev2 : events a2 = events a ++ Enqueue bs :: Publish (Reply m) :: tail).
  { rewrite Hev. cbn. by rewrite <- app_assoc. }
  destruct ok; cbn; split; eauto.
Qed.

(** with the queue full and [shutdownCh] open, a callback in its [select]
    stays there: the only steps are those of the other goroutines *)
Lemma waits_in_select (a : applier S) m bs x :
  queue_cap a <= length (incrBytesQueue a) -> shutdownCh a = false ->
  step publish_error (a, Selecting m bs) x ->
  ∃ a', other_step a a' ∧ x = (a', Selecting m bs).
Proof.
  intros Hfull Hopen Hstep.
  inversion Hstep as [|a0 m0 bs0 a' Hsel|a0 a' c Hother]; subst.
  - inversion Hsel; subst; [lia|congruence].
  - by exists a'.
Qed.

(** C9.  A segment that does not complete its message is acknowledged at
    once: the callback publishes on the reply subject before anything else
    and returns, and the queue is not touched.  For the segment that
    completes a message the callback publishes nothing before its [select];
    while it waits there, nothing is published, whatever the other
    goroutines do; when the [select] fires, either the payload is put on
    [incrBytesQueue] and the acknowledgement is published behind it, or the
    closed [shutdownCh] was chosen and none is published.  As long as the
    queue is full and [shutdownCh] is open the [select] cannot fire: the
    acknowledgement waits for the queue. *)
Theorem acknowledgement_order (a : applier S) (m : Msg) (nmm : S) :
  (Handle (incrNMM a) (Data m) = (nmm, inr false) ->
     let r := receive publish_error a m in
     r.2 = Returned ∧
     incrBytesQueue r.1 = incrBytesQueue a ∧
     ∃ tail, events r.1 = events a ++ Publish (Reply m) :: tail) ∧
  (Handle (incrNMM a) (Data m) = (nmm, inr true) ->
     let bs := GetBytes nmm in
     let r := receive publish_error a m in
     r.2 = Selecting m bs ∧
     events r.1 = events a ∧
     ∀ a2, rtc other_step r.1 a2 ->
       events a2 = events a ∧
       (∀ a3, select_step publish_error a2 m bs a3 ->
          (length (incrBytesQueue a2) < queue_cap a2 ∧
           incrBytesQueue a3 = incrBytesQueue a2 ++ [bs] ∧
           ∃ tail, events a3 = events a ++ Enqueue bs :: Publish (Reply m) :: tail) ∨
          (shutdownCh a2 = true ∧ a3 = a2)) ∧
       (queue_cap a2 <= length (incrBytesQueue a2) -> shutdownCh a2 = false ->
          ∀ a3, ¬ select_step publish_error a2 m bs a3)).
Proof.
  split.
  - intros Hhandle. cbv zeta. unfold receive. rewrite Hhandle.
    cbn [fst snd]. split; [done|].
    apply (publish_reply_events (with_incrNMM a nmm) m).
  - intros Hhandle. cbv zeta. unfold receive. rewrite Hhandle. cbn [fst snd].
    split; [done|]. split; [done|].
    intros a2 Hrun. apply other_steps_events in Hrun. cbn [events with_incrNMM] in Hrun.
    split; [done|]. split.
    + intros a3 Hsel. inversion Hsel as [a0 m0 bs0 Hroom|a0 m0 bs0 Hclosed]; subst.
      * left. split; [done|].
        destruct (sent_events a2 m (GetBytes nmm)) as [Hq [tail Hev]].
        split; [done|]. exists tail. by rewrite Hev, Hrun.
      * by right.
    + intros Hfull Hopen a3 Hsel.
      inversion Hsel as [a0 m0 bs0 Hroom|a0 m0 bs0 Hclosed]; subst; [lia|congruence].
Qed.

End facts.

(** *** A merger and a run *)

(** a merger that takes the first byte of a segment as its last-segment
    mark and keeps the rest *)
#[global] Instance flag_merger : NatsMsgMerger string :=
  {| Handle := λ buf data,
       match data with
       | EmptyString => (buf, inl (Errorf "short segment"))
       | String c rest => (buf +:+ rest, inr (Ascii.eqb c "1"))
       end;
     GetBytes := λ buf, buf;
     Reset := λ _, "" |}.

Definition subscribed (queue : list string) (cap : nat) : applier string :=
  {| incrNMM := ""; incrBytesQueue := queue; queue_cap := cap; shutdownCh := false;
     memory2 := 0; Stage := ""; events := [] |}.

(** two segments of one message, with room in the queue *)
Example two_segments :
  ∃ a1 a2,
    receive (λ _, None) (subscribed [] 1) {| Data := "0ab"; Reply := "r1" |}
      = (a1, Returned) ∧
    events a1 = [Publish "r1"] ∧
    receive (λ _, None) a1 {| Data := "1cd"; Reply := "r2" |}
      = (a2, Selecting {| Data := "1cd"; Reply := "r2" |} "abcd") ∧
    events a2 = [Publish "r1"] ∧
    events (sent (λ _, None) a2 {| Data := "1cd"; Reply := "r2" |} "abcd")
      = [Publish "r1"; Enqueue "abcd"; Publish "r2"].
Proof. do 2 eexists. repeat split; reflexivity. Qed.

(** with the queue full and no shutdown, the callback stays in its select *)
Example full_queue_blocks a' :
  ¬ select_step (λ _, None) (subscribed ["x"] 1)
      {| Data := "1cd"; Reply := "r2" |} "cd" a'.
Proof. inversion 1; subst; cbn in *; [lia|discriminate]. Qed.

End Subscriber.

(** ** The list utilities of package inspector

    A slice of strings that is only read, or built by [append] and returned,
    is the list of its elements: nil and the empty slice both read []. *)

Module Duplicates.

(** *** [RemoveArrayRepeat] *)

(** [for _, j := range output { if i == j { repeat = true; break } }] *)
Fixpoint repeat_in (i : string) (output : list string) : bool :=
  match output with
  | [] => false
  | j :: rest => if decide (i = j) then true else repeat_in i rest
  end.

(** [for _, i := range input { ... }], entered with [output] *)
Fixpoint RemoveArrayRepeat_loop (input output : list string) : list string :=
  match input with
  | [] => output
  | i :: rest =>
      let repeat := repeat_in i output in
      RemoveArrayRepeat_loop rest (if negb repeat then output ++ [i] else output)
  end.

Definition RemoveArrayRepeat (input : list string) : list string :=
  RemoveArrayRepeat_loop input [].

(** *** [removeDuplicate] *)

(** [for _, v := range c { ... }], entered with [tmpMap] and [result] *)
Fixpoint removeDuplicate_loop (c : list string) (tmpMap : gmap string unit)
    (result : list string) : list string :=
  match c with
  | [] => result
  | v :: rest =>
      let beforeLen := size tmpMap in
      let tmpMap := <[v := ()]> tmpMap in
      let AfterLen := size tmpMap in
      removeDuplicate_loop rest tmpMap
        (if decide (beforeLen ≠ AfterLen) then result ++ [v] else result)
  end.

Definition removeDuplicate (c : list string) : list string :=
  removeDuplicate_loop c ∅ [].

(** *** [getDuplicate] *)

(** [for j, v2 := range c { ... }] inside the iteration [i, v1], entered at
    index [j] *)
Fixpoint getDuplicate_inner (i : nat) (v1 : string) (j : nat) (c : list string)
    (d : list string) : list string :=
  match c with
  | [] => d
  | v2 :: rest =>
      getDuplicate_inner i v1 (S j) rest
        (if decide (j <= i) then d   (* i >= j *)
         else if decide (v1 = v2) then d ++ [v1] else d)
  end.

(** [for i, v1 := range c { ... }], entered at index [i]; [whole] is [c] *)
Fixpoint getDuplicate_outer (whole : list string) (i : nat) (c : list string)
    (d : list string) : list string :=
  match c with
  | [] => d
  | v1 :: rest =>
      getDuplicate_outer whole (S i) rest (getDuplicate_inner i v1 0 whole d)
  end.

Definition getDuplicate (c : list string) : list string :=
  removeDuplicate (getDuplicate_outer c 0 c []).

(** *** Facts *)

Lemma repeat_in_elem i output : repeat_in i output = bool_decide (i ∈ output).
Proof.
  induction output as [|j rest IH]; cbn [repeat_in].
  - by rewrite bool_decide_eq_false_2 by (by intros ?%elem_of_nil).
  - destruct (decide (i = j)) as [->|Hne].
    + by rewrite bool_decide_eq_true_2 by left.
    + rewrite IH. apply bool_decide_ext. rewrite elem_of_cons.
      split; [by right | by intros [?|?]].
Qed.

(** the loop of [RemoveArrayRepeat] appends to [output] what the loop from
    the empty slice finds and [output] does not hold *)
Lemma RemoveArrayRepeat_loop_from input : ∀ output,
  RemoveArrayRepeat_loop input output
  = output ++ filter (λ x, x ∉ output) (RemoveArrayRepeat_loop input []).
Proof.
  induction input as [|i rest IH]; intros output.
  - cbn. by rewrite app_nil_r.
  - cbn [RemoveArrayRepeat_loop repeat_in negb app].
    rewrite (IH [i]), repeat_in_elem.
    destruct (decide (i ∈ output)) as [Hin|Hout].
    + rewrite bool_decide_eq_true_2 by done. cbn [negb]. rewrite IH.
      f_equal. cbn [app]. rewrite filter_cons_False by (intros H; by apply H).
      rewrite list_filter_filter. apply list_filter_iff.
      intros x. split; [|by intros [? _]]. intros Hx. split; [done|].
      intros ?%list_elem_of_singleton. by subst.
    + rewrite bool_decide_eq_false_2 by done. cbn [negb]. rewrite IH.
      rewrite <- app_assoc. f_equal. cbn [app].
      rewrite filter_cons_True by done. f_equal.
      rewrite list_filter_filter. apply list_filter_iff.
      intros x. rewrite elem_of_app, !list_elem_of_singleton. tauto.
Qed.

Lemma RemoveArrayRepeat_cons i input :
  RemoveArrayRepeat (i :: input) = i :: filter (λ x, x ≠ i) (RemoveArrayRepeat input).
Proof.
  unfold RemoveArrayRepeat. cbn [RemoveArrayRepeat_loop repeat_in negb app].
  rewrite RemoveArrayRepeat_loop_from. cbn [app]. f_equal.
  apply list_filter_iff. intros x. by rewrite list_elem_of_singleton.
Qed.

(** the two loops do the same, as long as the map holds the results *)
Lemma removeDuplicate_loop_same c : ∀ tmpMap result,
  (∀ x, x ∈ result <-> tmpMap !! x = Some ()) ->
  removeDuplicate_loop c tmpMap result = RemoveArrayRepeat_loop c result.
Proof.
  induction c as [|v rest IH]; intros tmpMap result Hinv; [done|].
  cbn [removeDuplicate_loop RemoveArrayRepeat_loop]. rewrite repeat_in_elem.
  rewrite map_size_insert.
  destruct (tmpMap !! v) as [[]|] eqn:Hv.
  - rewrite decide_False by (cbn; lia).
    rewrite bool_decide_eq_true_2 by (by apply Hinv). cbn [negb].
    apply IH. intros x. rewrite Hinv. destruct (decide (x = v)) as [->|Hne].
    + by rewrite lookup_insert_eq.
    + by rewrite lookup_insert_ne.
  - rewrite decide_True by (cbn; lia).
    rewrite bool_decide_eq_false_2 by (rewrite Hinv; congruence). cbn [negb].
    apply IH. intros x. rewrite elem_of_app, list_elem_of_singleton, Hinv.
    destruct (decide (x = v)) as [->|Hne].
    + rewrite lookup_insert_eq. tauto.
    + rewrite lookup_insert_ne by done. tauto.
Qed.

Lemma removeDuplicate_same c : removeDuplicate c = RemoveArrayRepeat c.
Proof.
  apply removeDuplicate_loop_same. intros x. rewrite lookup_empty.
  split; [by intros ?%elem_of_nil | done].
Qed.

Lemma removeDuplicate_cons v c :
  removeDuplicate (v :: c) = v :: filter (λ x, x ≠ v) (removeDuplicate c).
Proof. rewrite !removeDuplicate_same. apply RemoveArrayRepeat_cons. Qed.

Lemma removeDuplicate_elem c x : x ∈ removeDuplicate c <-> x ∈ c.
Proof.
  induction c as [|v c IH]; [done|].
  rewrite removeDuplicate_cons, !elem_of_cons, list_elem_of_filter, IH.
  destruct (decide (x = v)); tauto.
Qed.

Lemma removeDuplicate_NoDup c : NoDup (removeDuplicate c).
Proof.
  induction c as [|v c IH]; [constructor|].
  rewrite removeDuplicate_cons. constructor.
  - rewrite list_elem_of_filter. by intros [? _].
  - by apply NoDup_filter.
Qed.

Lemma removeDuplicate_sublist c : removeDuplicate c `sublist_of` c.
Proof.
  induction c as [|v c IH]; [done|].
  rewrite removeDuplicate_cons. apply sublist_skip.
  etrans; [apply sublist_filter|done].
Qed.

Lemma filter_other_id (v : string) (c : list string) :
  v ∉ c -> filter (λ x, x ≠ v) c = c.
Proof.
  induction c as [|y c IH]; [done|]. intros [Hne Hv]%not_elem_of_cons.
  rewrite filter_cons_True by done. f_equal. by apply IH.
Qed.

Lemma removeDuplicate_NoDup_id c : NoDup c -> removeDuplicate c = c.
Proof.
  induction 1 as [|v c Hv Hc IH]; [done|].
  by rewrite removeDuplicate_cons, IH, filter_other_id.
Qed.

(** what the inner loop appends: [v1], once for every position behind [i]
    that holds it *)
Lemma getDuplicate_inner_elem i v1 c : ∀ j d x,
  x ∈ getDuplicate_inner i v1 j c d <->
  x ∈ d ∨ (x = v1 ∧ ∃ k, c !! k = Some v1 ∧ i < j + k).
Proof.
  induction c as [|v2 rest IH]; intros j d x; cbn [getDuplicate_inner].
  - split; [auto|]. intros [?|[_ [k [Hk _]]]]; [done|]. by rewrite lookup_nil in Hk.
  - rewrite IH. split.
    + intros [Hd|[-> (k & Hk & Hlt)]].
      * destruct (decide (j <= i)); [by left|].
        destruct (decide (v1 = v2)) as [->|]; [|by left].
        apply elem_of_app in Hd as [?|Hx]; [by left|].
        apply list_elem_of_singleton in Hx as ->. right. split; [done|]. exists 0. split; [done|lia].
      * right. split; [done|]. exists (S k). split; [done|lia].
    + intros [Hd|[-> (k & Hk & Hlt)]].
      * left. destruct (decide (j <= i)); [done|].
        destruct (decide (v1 = v2)); [|done]. apply elem_of_app. by left.
      * destruct k as [|k]; cbn in Hk.
        -- injection Hk as <-. left. rewrite decide_False by lia.
           rewrite decide_True by done. apply elem_of_app. right. by left.
        -- right. split; [done|]. exists k. split; [done|lia].
Qed.

Lemma getDuplicate_outer_elem whole c : ∀ i d x,
  x ∈ getDuplicate_outer whole i c d <->
  x ∈ d ∨ ∃ k m, c !! k = Some x ∧ whole !! m = Some x ∧ i + k < m.
Proof.
  induction c as [|v1 rest IH]; intros i d x; cbn [getDuplicate_outer].
  - split; [auto|]. intros [?|(k & m & Hk & _)]; [done|]. by rewrite lookup_nil in Hk.
  - rewrite IH, getDuplicate_inner_elem. split.
    + intros [[Hd|[-> (m & Hm & Hlt)]]|(k & m & Hk & Hm & Hlt)].
      * by left.
      * right. exists 0, m. split; [done|]. split; [done|lia].
      * right. exists (S k), m. split; [done|]. split; [done|lia].
    + intros [Hd|(k & m & Hk & Hm & Hlt)]; [by left; left|].
      destruct k as [|k]; cbn in Hk.
      * injection Hk as ->. left. right. split; [done|]. exists m. split; [done|lia].
      * right. exists k, m. split; [done|]. split; [done|lia].
Qed.

(** X1.  [removeDuplicate] keeps the first occurrence of every value of [c]
    and drops the later ones: the result has no duplicates, holds exactly
    the values of [c], in the order of [c]; it is [c] itself when [c] has no
    duplicates. *)
Theorem removeDuplicate_keeps_first (c : list string) :
  NoDup (removeDuplicate c) ∧
  (∀ x, x ∈ removeDuplicate c <-> x ∈ c) ∧
  removeDuplicate c `sublist_of` c ∧
  (∀ v rest, c = v :: rest ->
     removeDuplicate c = v :: filter (λ x, x ≠ v) (removeDuplicate rest)) ∧
  (removeDuplicate c = c <-> NoDup c).
Proof.
  split; [apply removeDuplicate_NoDup|].
  split; [apply removeDuplicate_elem|].
  split; [apply removeDuplicate_sublist|].
  split; [intros v rest ->; apply removeDuplicate_cons|].
  split; [intros <-; apply removeDuplicate_NoDup | apply removeDuplicate_NoDup_id].
Qed.

(** X2.  [RemoveArrayRepeat] and [removeDuplicate] return the same values in
    the same order, whatever the input: the quadratic scan of the output and
    the map of seen values decide alike. *)
Theorem RemoveArrayRepeat_is_removeDuplicate (input : list string) :
  RemoveArrayRepeat input = removeDuplicate input.
Proof. symmetry. apply removeDuplicate_same. Qed.

(** X3.  [getDuplicate] returns the values that stand at two positions of [c]
    at least, each once; it returns none exactly when [c] has no
    duplicates. *)
Theorem getDuplicate_twice (c : list string) :
  (∀ x, x ∈ getDuplicate c <->
        ∃ i j, i < j ∧ c !! i = Some x ∧ c !! j = Some x) ∧
  NoDup (getDuplicate c) ∧
  (getDuplicate c = [] <-> NoDup c).
Proof.
  assert (Helem : ∀ x, x ∈ getDuplicate c <->
            ∃ i j, i < j ∧ c !! i = Some x ∧ c !! j = Some x).
  { intros x. unfold getDuplicate.
    rewrite removeDuplicate_elem, getDuplicate_outer_elem. split.
    - intros [?%elem_of_nil|(k & m & Hk & Hm & Hlt)]; [done|].
      exists k, m. split; [lia|done].
    - intros (i & j & Hlt & Hi & Hj). right. exists i, j. split; [done|].
      split; [done|lia]. }
  split; [done|]. split; [apply removeDuplicate_NoDup|].
  rewrite NoDup_alt. split.
  - intros Hnil i j x Hi Hj.
    destruct (Nat.lt_trichotomy i j) as [Hlt|[->|Hlt]]; [|done|].
    + assert (Hx : x ∈ getDuplicate c) by (apply Helem; eauto).
      rewrite Hnil in Hx. by apply elem_of_nil in Hx.
    + assert (Hx : x ∈ getDuplicate c) by (apply Helem; eauto).
      rewrite Hnil in Hx. by apply elem_of_nil in Hx.
  - intros Hinj. destruct (getDuplicate c) as [|x l] eqn:Hd; [done|].
    assert (Hx : x ∈ x :: l) by left.
    apply Helem in Hx as (i & j & Hlt & Hi & Hj).
    specialize (Hinj i j x Hi Hj). lia.
Qed.

Example RemoveArrayRepeat_a_b_a :
  RemoveArrayRepeat ["a"; "b"; "a"; "c"; "b"] = ["a"; "b"; "c"] ∧
  removeDuplicate ["a"; "b"; "a"; "c"; "b"] = ["a"; "b"; "c"].
Proof. split; vm_compute; reflexivity. Qed.

Example getDuplicate_a_b_a :
  getDuplicate ["a"; "b"; "a"; "c"; "b"; "a"] = ["a"; "b"] ∧
  getDuplicate ["a"; "b"; "c"] = [].
Proof. split; vm_compute; reflexivity. Qed.

End Duplicates.

(** ** The tables of a join: [getTables], [getTableSources] (package inspector) *)

Module Joins.
Import GoSlice Merge.

(** what [ast.TableSource.Source] holds, as the two functions tell it
    apart: a [*ast.TableName], or a node of another type (a subquery) *)
Inductive Source : Type :=
| TableNameSource (n : option TableName)   (* a *ast.TableName, nil or not *)
| OtherSource.

Record TableSource : Type := { ts_Source : Source; ts_AsName : string }.

(** [ast.ResultSetNode], the interface, by the dynamic types the type
    switches know, and [ast.Join] *)
Inductive ResultSetNode : Type :=
| NoNode                                    (* the nil interface *)
| TableSourceNode (t : option TableSource)  (* a *ast.TableSource, nil or not *)
| JoinNode (j : option Join)                (* a *ast.Join, nil or not *)
| OtherNode                                 (* any other node type *)
with Join : Type :=
| mkJoin (Left Right : ResultSetNode).

Definition Left (j : Join) : ResultSetNode := let (l, _) := j in l.
Definition Right (j : Join) : ResultSetNode := let (_, r) := j in r.

(** [getTables(stmt)] on a [stmt] that is not nil *)
Fixpoint getTables_of (stmt : Join) : go (list (option TableName)) :=
  let tables := [] in
  match
    match Right stmt with
    | NoNode => Yields tables
    | TableSourceNode None => Panics NilDereference      (* t.Source *)
    | TableSourceNode (Some t) =>
        match ts_Source t with
        | TableNameSource tableName => Yields (tables ++ [tableName])
        | OtherSource => Yields tables
        end
    | JoinNode None => Yields tables                      (* getTables(nil) *)
    | JoinNode (Some t) =>
        match getTables_of t with
        | Panics k => Panics k
        | Yields l => Yields (tables ++ l)
        end
    | OtherNode => Yields tables
    end
  with
  | Panics k => Panics k
  | Yields tables =>
      match Left stmt with
      | NoNode => Yields tables
      | TableSourceNode None => Panics NilDereference
      | TableSourceNode (Some t) =>
          match ts_Source t with
          | TableNameSource tableName => Yields (tables ++ [tableName])
          | OtherSource => Yields tables
          end
      | JoinNode None => Yields tables
      | JoinNode (Some t) =>
          match getTables_of t with
          | Panics k => Panics k
          | Yields l => Yields (tables ++ l)
          end
      | OtherNode => Yields tables
      end
  end.

Definition getTables (stmt : option Join) : go (list (option TableName)) :=
  match stmt with
  | None => Yields []
  | Some stmt => getTables_of stmt
  end.

(** [getTableSources(stmt)] on a [stmt] that is not nil *)
Fixpoint getTableSources_of (stmt : Join) : list (option TableSource) :=
  let sources := [] in
  let sources :=
    match Left stmt with
    | TableSourceNode t => sources ++ [t]
    | JoinNode (Some t) => sources ++ getTableSources_of t
    | _ => sources
    end in
  match Right stmt with
  | TableSourceNode t => sources ++ [t]
  | JoinNode (Some t) => sources ++ getTableSources_of t
  | _ => sources
  end.

Definition getTableSources (stmt : option Join) : list (option TableSource) :=
  match stmt with
  | None => []
  | Some stmt => getTableSources_of stmt
  end.

(** the table names behind a list of sources, in its order: a source that
    is no table name gives none, a nil source cannot be read *)
Fixpoint table_names (sources : list (option TableSource))
  : go (list (option TableName)) :=
  match sources with
  | [] => Yields []
  | None :: _ => Panics NilDereference
  | Some t :: rest =>
      match table_names rest with
      | Panics k => Panics k
      | Yields l =>
          Yields (match ts_Source t with
                  | TableNameSource n => n :: l
                  | OtherSource => l
                  end)
      end
  end.

(** [t1 JOIN t2 JOIN (SELECT ...) AS s], as the parser nests it *)
Definition table (name : string) : ResultSetNode :=
  TableSourceNode (Some {| ts_Source := TableNameSource
                             (Some {| tn_Schema := ci ""; tn_Name := ci name |});
                           ts_AsName := "" |}).

Definition subquery (name : string) : ResultSetNode :=
  TableSourceNode (Some {| ts_Source := OtherSource; ts_AsName := name |}).

Definition t1_t2_s : Join :=
  mkJoin (JoinNode (Some (mkJoin (table "t1") (table "t2")))) (subquery "s").

(** the number of joins under a join, itself counted *)
Fixpoint joins (stmt : Join) : nat :=
  S (match Left stmt with JoinNode (Some t) => joins t | _ => 0 end
     + match Right stmt with JoinNode (Some t) => joins t | _ => 0 end).

(** what one side of a join gives to each of the two functions *)
Definition side_tables (node : ResultSetNode) : go (list (option TableName)) :=
  match node with
  | TableSourceNode None => Panics NilDereference
  | TableSourceNode (Some t) =>
      match ts_Source t with
      | TableNameSource tableName => Yields [tableName]
      | OtherSource => Yields []
      end
  | JoinNode (Some t) => getTables_of t
  | _ => Yields []
  end.

Definition side_sources (node : ResultSetNode) : list (option TableSource) :=
  match node with
  | TableSourceNode t => [t]
  | JoinNode (Some t) => getTableSources_of t
  | _ => []
  end.

(** *** Facts *)

(** the only panic of the two functions *)
Lemma table_names_panic sources k :
  table_names sources = Panics k -> k = NilDereference.
Proof.
  induction sources as [|[t|] rest IH]; cbn; [done| |by intros [= <-]].
  destruct (table_names rest); [auto|done].
Qed.

Lemma table_names_app l1 l2 :
  table_names (l1 ++ l2) =
  match table_names l1, table_names l2 with
  | Yields a, Yields b => Yields (a ++ b)
  | _, _ => Panics NilDereference
  end.
Proof.
  induction l1 as [|[t|] l1 IH]; cbn [app table_names].
  - destruct (table_names l2) as [k|b] eqn:H; [|done].
    by apply table_names_panic in H as ->.
  - rewrite IH. destruct (table_names l1), (table_names l2); try done.
    by destruct (ts_Source t).
  - done.
Qed.

Lemma getTables_of_sides l r :
  getTables_of (mkJoin l r) =
  match side_tables r, side_tables l with
  | Yields a, Yields b => Yields (a ++ b)
  | Panics k, _ | _, Panics k => Panics k
  end.
Proof.
  cbn [getTables_of Left Right].
  destruct r as [|[t|]|[t|]|]; cbn [side_tables app];
    try (destruct (ts_Source t)); try (destruct (getTables_of t)); try done;
    destruct l as [|[t'|]|[t'|]|]; cbn [side_tables app];
    try (destruct (ts_Source t')); try (destruct (getTables_of t'));
    by rewrite ?app_nil_r.
Qed.

Lemma getTableSources_of_sides l r :
  getTableSources_of (mkJoin l r) = side_sources l ++ side_sources r.
Proof.
  cbn [getTableSources_of Left Right].
  destruct l as [|?|[?|]|], r as [|?|[?|]|]; cbn [side_sources app];
    by rewrite ?app_nil_r.
Qed.

Lemma getTables_of_names stmt :
  getTables_of stmt = table_names (reverse (getTableSources_of stmt)).
Proof.
  remember (joins stmt) as n eqn:Hn. revert stmt Hn.
  induction n as [n IH] using lt_wf_ind. intros [l r] Hn.
  cbn [joins Left Right] in Hn.
  assert (Hside : ∀ node,
    match node with JoinNode (Some t) => joins t | _ => 0 end < n ->
    side_tables node = table_names (reverse (side_sources node))).
  { intros [|[t|]|[t|]|] Hlt; cbn; try done.
    - by destruct (ts_Source t).
    - by apply (IH (joins t)). }
  rewrite getTables_of_sides, getTableSources_of_sides, reverse_app, table_names_app.
  rewrite <- !Hside by lia.
  destruct (side_tables r) as [k|a] eqn:Hr, (side_tables l) as [k'|b] eqn:Hl; try done.
  - rewrite Hside in Hr by lia. by apply table_names_panic in Hr as ->.
  - rewrite Hside in Hr by lia. by apply table_names_panic in Hr as ->.
  - rewrite Hside in Hl by lia. by apply table_names_panic in Hl as ->.
Qed.

(** X4.  [getTables] lists the tables of a join from right to left: its
    result is the table names of the sources [getTableSources] returns, read
    in reverse; a source that is a subquery gives no name.  It panics exactly
    when one of these sources is a nil pointer. *)
Theorem getTables_reverses_getTableSources (stmt : option Join) :
  getTables stmt = table_names (reverse (getTableSources stmt)).
Proof. destruct stmt as [stmt|]; [apply getTables_of_names | done]. Qed.

Example getTables_t1_t2_s :
  getTableSources (Some t1_t2_s)
    = [Some {| ts_Source := TableNameSource (Some {| tn_Schema := ci ""; tn_Name := ci "t1" |});
               ts_AsName := "" |};
       Some {| ts_Source := TableNameSource (Some {| tn_Schema := ci ""; tn_Name := ci "t2" |});
               ts_AsName := "" |};
       Some {| ts_Source := OtherSource; ts_AsName := "s" |}] ∧
  getTables (Some t1_t2_s)
    = Yields [Some {| tn_Schema := ci ""; tn_Name := ci "t2" |};
              Some {| tn_Schema := ci ""; tn_Name := ci "t1" |}].
Proof. split; reflexivity. Qed.

End Joins.

(** ** More on [mergeAlterToTable]: the kinds it merges and their order *)

Module MergeKinds.
Import GoSlice Merge.

(** the kinds of specification [mergeAlterToTable] asks
    [getAlterTableSpecByTp] for, in the order it asks *)
Definition merged_kinds : list AlterTableType :=
  [AlterTableRenameTable; AlterTableDropColumn; AlterTableChangeColumn;
   AlterTableModifyColumn; AlterTableAlterColumn; AlterTableAddColumns;
   AlterTableDropPrimaryKey; AlterTableDropIndex; AlterTableRenameIndex;
   AlterTableAddConstraint].

(** [DROP FOREIGN KEY name] *)
Definition drop_foreign_key (name : string) : AlterTableSpec :=
  {| as_Tp := AlterTableDropForeignKey; as_Name := name; as_Constraint := None;
     as_NewTable := None; as_NewColumns := []; as_OldColumnName := None;
     as_FromKey := ci ""; as_ToKey := ci "" |}.

(** [ALTER TABLE c DROP FOREIGN KEY fk1] *)
Definition alter_drop_foreign_key : AlterTableStmt :=
  {| at_Specs := [drop_foreign_key "fk1"] |}.

(** [ALTER TABLE t ADD COLUMN b INT, DROP COLUMN b] and
    [ALTER TABLE t DROP COLUMN b, ADD COLUMN b INT] *)
Definition alter_add_b_drop_b : AlterTableStmt :=
  {| at_Specs := [add_column (Some 1); drop_column "b"] |}.

Definition alter_drop_b_add_b : AlterTableStmt :=
  {| at_Specs := [drop_column "b"; add_column (Some 1)] |}.

(** *** Facts *)

Lemma getAlterTableSpecByTp_other specs tp :
  Forall (λ spec, as_Tp spec ≠ tp) specs ->
  getAlterTableSpecByTp specs [tp] = [].
Proof.
  induction 1 as [|spec specs Hne _ IH]; [done|].
  unfold getAlterTableSpecByTp in *. cbn in *.
  rewrite decide_False by done. exact IH.
Qed.

(** X7.  A specification of a kind the function does not ask for (table
    options, DROP FOREIGN KEY, LOCK, ALGORITHM, FORCE) is passed over: an
    ALTER TABLE made of such specifications only -- or of none -- gives a new
    CreateTableStmt with the fields of the old one and a nil error, and
    writes nothing else. *)
Theorem merge_passes_over_other_kinds grow a alterTable h old :
  createTables h !! a = Some old ->
  Forall (λ spec, as_Tp spec ∉ merged_kinds) (at_Specs alterTable) ->
  mergeAlterToTable grow (Some a) alterTable h
    = Done (Some (length (createTables h)), None)
           (with_createTables h (createTables h ++ [old])).
Proof.
  intros Hold Hother. unfold mergeAlterToTable, run. rewrite bind_unfold.
  unfold get_table at 1. unfold deref at 1. rewrite Hold.
  rewrite bind_unfold. unfold new_table at 1. rewrite bind_unfold.
  unfold merge_groups.
  assert (Hnone : ∀ tp, tp ∈ merged_kinds ->
            getAlterTableSpecByTp (at_Specs alterTable) [tp] = []).
  { intros tp Htp. apply getAlterTableSpecByTp_other.
    eapply Forall_impl; [exact Hother|]. intros spec Hspec Heq. apply Hspec. by rewrite Heq. }
  rewrite !Hnone by (unfold merged_kinds; set_solver).
  cbn. by destruct old.
Qed.

(** the theorem at [ALTER TABLE c DROP FOREIGN KEY fk1] on the table with
    the index and the foreign key fk1: both constraints are still there *)
Lemma merge_passes_over_other_kinds_witness :
  ∃ h',
    mergeAlterToTable growslice (Some 0) alter_drop_foreign_key heap_c_fk1
      = Done (Some 1, None) h' ∧
    constraint_names <$> view (Some 1) h' = Some ["fk1"; "fk1"].
Proof.
  eexists. split.
  - apply (merge_passes_over_other_kinds growslice 0 alter_drop_foreign_key heap_c_fk1).
    + reflexivity.
    + apply (bool_decide_unpack _). vm_compute. exact I.
  - vm_compute. reflexivity.
Defined.

(** X8.  The specifications are merged kind by kind, in the fixed order of
    [merged_kinds], not in the order the statement lists them: two
    statements that list the same specifications of every kind, in the same
    order within each kind, merge alike. *)
Theorem merge_order_is_by_kind grow oldTable alterTable alterTable' h :
  (∀ tp, tp ∈ merged_kinds ->
     getAlterTableSpecByTp (at_Specs alterTable) [tp]
     = getAlterTableSpecByTp (at_Specs alterTable') [tp]) ->
  mergeAlterToTable grow oldTable alterTable h
  = mergeAlterToTable grow oldTable alterTable' h.
Proof.
  intros Hsame. unfold mergeAlterToTable, merge_groups.
  by rewrite !Hsame by (unfold merged_kinds; set_solver).
Qed.

(** the theorem at ADD COLUMN b, DROP COLUMN b against DROP COLUMN b, ADD
    COLUMN b on [CREATE TABLE t (a INT)]: in both orders the column is
    dropped first, is not found, and the merge is rejected *)
Lemma merge_order_is_by_kind_witness :
  mergeAlterToTable growslice (Some 0) alter_add_b_drop_b heap_t_a
    = mergeAlterToTable growslice (Some 0) alter_drop_b_add_b heap_t_a ∧
  ∃ h', mergeAlterToTable growslice (Some 0) alter_add_b_drop_b heap_t_a
          = Done (Some 0, None) h'.
Proof.
  split.
  - apply (merge_order_is_by_kind growslice (Some 0) alter_add_b_drop_b
             alter_drop_b_add_b heap_t_a).
    intros tp Htp. unfold merged_kinds in Htp.
    repeat (apply elem_of_cons in Htp as [->|Htp]; [reflexivity|]).
    by apply elem_of_nil in Htp.
  - eexists. vm_compute. reflexivity.
Defined.

(** the returns of [mergeAlterToTable], at an ALTER that applies *)
Lemma mergeAlterToTable_error_nil_witness :
  ∃ p e h',
    mergeAlterToTable growslice (Some 0) alter_add_b heap_t_a = Done (p, e) h' ∧
    e = None ∧ (p = Some 0 ∨ p = Some (length (createTables heap_t_a))).
Proof.
  eexists _, _, _. split; [vm_compute; reflexivity|].
  eapply (mergeAlterToTable_error_nil growslice (Some 0) alter_add_b heap_t_a).
  vm_compute. reflexivity.
Defined.

(** the struct behind [oldTable], at the rejected merge that rewrote its
    columns *)
Lemma mergeAlterToTable_keeps_struct_witness :
  ∃ r h',
    mergeAlterToTable growslice (Some 0) alter_drop_a_drop_nope heap_t_a_b = Done r h' ∧
    createTables h' !! 0 = createTables heap_t_a_b !! 0.
Proof.
  eexists _, _. split; [vm_compute; reflexivity|].
  eapply (mergeAlterToTable_keeps_struct growslice 0 alter_drop_a_drop_nope heap_t_a_b).
  vm_compute. reflexivity.
Defined.

End MergeKinds.

(** ** More on the Inspector: [InitDBConnections], [validateTable] and the
    error paths of [ValidateOriginalTable] *)

Module InspectorInit.
Import GoStrings Inspector.

(** [Inspector.InitDBConnections]; [CreateDB] is what [usql.CreateDB]
    returns for the inspector's URI *)
Definition InitDBConnections (w : World) (CreateDB : option error) : St (option error) :=
  logger LDebug "CreateDB" ;;
  match CreateDB with
  | Some err => mret (Some err)
  | None =>
      logger LDebug "validateGrants" ;;
      err ← validateGrants w;
      match err with
      | Some err =>
          logger LError "Unexpected error on validateGrants" ;; mret (Some err)
      | None =>
          logger LDebug "validateGTIDMode" ;;
          err ← validateGTIDMode w;
          match err with
          | Some err => mret (Some err)
          | None =>
              logger LDebug "validateBinlogs" ;;
              err ← validateBinlogs w;
              match err with
              | Some err => mret (Some err)
              | None => logger LInfo "Initiated" ;; mret None
              end
          end
      end
  end.

(** the query of [validateTable] *)
Definition table_status_query (w : World) (databaseName tableName : string) : string :=
  "show table status from " +:+ EscapeName w databaseName +:+ " like '" +:+ tableName +:+ "'".

(** its two errors *)
Definition is_a_view (w : World) (databaseName tableName : string) : error :=
  Errorf (EscapeName w databaseName +:+ "." +:+ EscapeName w tableName
          +:+ " is a VIEW, not a real table. Bailing out").

Definition cannot_find (w : World) (databaseName tableName : string) : error :=
  Errorf ("Cannot find table " +:+ EscapeName w databaseName +:+ "."
          +:+ EscapeName w tableName +:+ "!").

(** the key the loop of [ValidateOriginalTable] leaves for a table that
    enters with [use]: a valid PRIMARY candidate, else [use], else the first
    valid candidate *)
Definition key_after (w : World) (rowImage : string) (cands : list UniqueKey)
    (use : option UniqueKey) : option UniqueKey :=
  match find (λ uk, accepted w rowImage uk && IsPrimary w uk) cands with
  | Some pk => Some pk
  | None =>
      match use with
      | Some uk => Some uk
      | None => find (accepted w rowImage) cands
      end
  end.

(** the table [ValidateOriginalTable] leaves once keys and columns are read *)
Definition inspected (w : World) (rowImage : string) (table : Table)
    (columns : ColumnList) (rows : list RowMap) : Table :=
  with_UseUniqueKey
    (with_ColumnMap (with_OriginalTableColumns table (Some columns))
       (BuildColumnMapIndex w (ColumnMapFrom table) (Ordinals columns)))
    (key_after w rowImage (candidates w table rows) (UseUniqueKey table)).

(** the table of scenario 2 entering with a key chosen earlier, which the
    server no longer has *)
Definition key_gone : UniqueKey :=
  {| uk_Name := "gone"; uk_Columns := one_column "x"; HasNullable := true;
     IsAutoIncrement := false; LastMaxVals := [""] |}.

Definition table_t_preset : Table :=
  {| TableSchema := "s"; TableName := "t"; Where := "";
     OriginalTableColumns := None; ColumnMapFrom := []; ColumnMap := [];
     UseUniqueKey := Some key_gone |}.

(** a server on which [s.t] is a view *)
Definition server_view : World :=
  {| show_grants := inl no_answer;
     select_gtid_mode := inr "ON";
     select_log_bin := inr (true, "ROW");
     select_binlog_row_image := inr "FULL";
     show_table_status := λ _ _, inr [{[ "Name" := "t"; "Comment" := "VIEW" ]}];
     select_uniques := λ _ _, inr [];
     GetTableColumns := λ _ _, inr (one_column "id");
     ApplyColumnTypes := λ _ _ columns, columns;
     BuildColumnMapIndex := λ _ _, [];
     ParseColumnList := one_column;
     GetBool := λ m key, bool_decide (GetString m key = "1");
     EscapeName := λ name, "`" +:+ name +:+ "`";
     IsPrimary := λ uk, bool_decide (uk_Name uk = "PRIMARY");
     GetWhere := λ t, if decide (Where t = "") then "true" else Where t;
     NewWhereCtx := λ _ _, None |}.

(** *** Facts *)

Lemma validateGrants_result w i :
  ((validateGrants w i).1 = None <->
     SkipPrivilegeCheck (mysqlContext i) = true ∨
     ∃ rows, show_grants w = inr rows ∧ sufficient rows) ∧
  mysqlContext (validateGrants w i).2 = mysqlContext i ∧
  queried (validateGrants w i).2 =
    queried i ++ (if SkipPrivilegeCheck (mysqlContext i) then []
                  else ["show grants for current_user()"]).
Proof.
  unfold validateGrants. rewrite st_bind. simpl.
  destruct (SkipPrivilegeCheck (mysqlContext i)) eqn:Hskip.
  { simpl. rewrite app_nil_r. split; [split; auto|done]. }
  rewrite st_bind. unfold QueryRowsMap. rewrite st_bind. simpl.
  destruct (show_grants w) as [e|rows] eqn:Hshow; simpl.
  { split; [|done]. split; [discriminate|].
    intros [?|(rows & ? & _)]; discriminate. }
  pose proof (each_row_scan rows no_grants) as Hnone.
  pose proof (scanned_flags rows) as (HAll & HSuper & HClient & HSlave & HSel).
  simpl in *.
  destruct (each_row rows scan_row no_grants) as [err g]. simpl in *. subst err.
  assert (Hsuff : sufficient rows <->
    foundAll g = true ∨
    (foundSuper g = true ∧ foundReplicationSlave g = true ∧ foundDBAll g = true) ∨
    (foundReplicationClient g = true ∧ foundReplicationSlave g = true ∧
     foundDBAll g = true)).
  { unfold sufficient. by rewrite HAll, HSuper, HClient, HSlave, HSel. }
  clear HAll HSuper HClient HSlave HSel.
  assert (Hiff : ∀ P : Prop,
    (P <-> false = true ∨ ∃ rows0, inr rows = inr rows0 (A:=error) ∧ sufficient rows0) <->
    (P <-> sufficient rows)).
  { intros P. split; intros HP; rewrite HP; split.
    - intros [?|(rows0 & Heq & Hs)]; [done|]. by injection Heq as <-.
    - intros Hs. right. by exists rows.
    - intros Hs. right. by exists rows.
    - intros [?|(rows0 & Heq & Hs)]; [done|]. by injection Heq as <-. }
  rewrite Hiff, Hsuff. clear Hiff.
  destruct (foundAll g), (foundSuper g), (foundReplicationSlave g), (foundDBAll g),
    (foundReplicationClient g); simpl;
    (split; [split; [intros; try discriminate; auto | intros; try done; intuition discriminate]|done]).
Qed.

Lemma validateGTIDMode_result w i :
  ((validateGTIDMode w i).1 = None <-> select_gtid_mode w = inr "ON") ∧
  mysqlContext (validateGTIDMode w i).2 = mysqlContext i ∧
  queried (validateGTIDMode w i).2 = queried i ++ ["SELECT @@GTID_MODE"].
Proof.
  unfold validateGTIDMode, QueryRow. rewrite !st_bind. simpl.
  destruct (select_gtid_mode w) as [e|mode]; simpl; [by split|].
  destruct (decide (mode ≠ "ON")) as [Hne|Heq]; simpl.
  - split; [|done]. split; [done|]. intros [= ->]. done.
  - apply dec_stable in Heq as ->. by split.
Qed.

Lemma validateBinlogs_result w i :
  ((validateBinlogs w i).1 = None <-> select_log_bin w = inr (true, "ROW")) ∧
  ((validateBinlogs w i).1 = None ->
     queried (validateBinlogs w i).2 =
       queried i ++ ["select @@log_bin, @@binlog_format"; "select @@binlog_row_image"]).
Proof.
  unfold validateBinlogs, QueryRow. rewrite !st_bind. simpl.
  destruct (select_log_bin w) as [e|[[] format]]; simpl; [by split| |by split].
  destruct (decide (format ≠ "ROW")) as [Hne|Heq]; simpl.
  - split; [|done]. split; [done|]. intros [= ->]. done.
  - apply dec_stable in Heq as ->.
    destruct (select_binlog_row_image w); simpl;
      (split; [done|]); intros _; by rewrite <- app_assoc.
Qed.

(** the row of [show table status] says VIEW *)
Definition says_view (rowMap : RowMap) : bool :=
  bool_decide (GetString rowMap "Comment" = "VIEW").

(** [validateTable], computed: the first VIEW row ends it; without one the
    table is found when there is a row at all *)
Lemma validateTable_run w databaseName tableName i :
  validateTable w databaseName tableName i =
  (match show_table_status w databaseName tableName with
   | inl err => Some err
   | inr status =>
       if existsb says_view status then Some (is_a_view w databaseName tableName)
       else match status with
            | [] => Some (cannot_find w databaseName tableName)
            | _ :: _ => None
            end
   end,
   {| mysqlContext := mysqlContext i; logged := logged i;
      queried := queried i ++ [table_status_query w databaseName tableName] |}).
Proof.
  unfold validateTable, QueryRowsMap. rewrite !st_bind.
  cbn [sends mret St_ret fst snd]. fold (table_status_query w databaseName tableName).
  destruct (show_table_status w databaseName tableName) as [err|status]; [done|].
  cbn [mret St_ret fst snd].
  match goal with |- context [each_row status ?f false] => set (cb := f) end.
  assert (Hrows : ∀ found, each_row status cb found =
            if existsb says_view status
            then (Some (is_a_view w databaseName tableName),
                  (each_row status cb found).2)
            else (None, match status with [] => found | _ :: _ => true end)).
  { induction status as [|row rest IH]; intros found; [done|].
    cbn [each_row existsb]. unfold cb at 1 3, says_view at 1.
    destruct (decide (GetString row "Comment" = "VIEW")) as [Hv|Hv].
    - by rewrite bool_decide_eq_true_2.
    - rewrite bool_decide_eq_false_2 by done. cbn [orb]. rewrite IH.
      destruct (existsb says_view rest); [done|]. by destruct rest. }
  rewrite Hrows. destruct (existsb says_view status); [done|]. by destruct status.
Qed.

Lemma getCandidateUniqueKeys_run w databaseName tableName i :
  getCandidateUniqueKeys w databaseName tableName i =
  match select_uniques w databaseName tableName with
  | inl err =>
      (([], Some err),
       {| mysqlContext := mysqlContext i; logged := logged i;
          queried := queried i ++ [uniques_query] |})
  | inr rows =>
      ((map (uniqueKey_of_row w) rows, None),
       {| mysqlContext := mysqlContext i;
          logged := logged i ++ [Log LDebug "Potential unique keys."];
          queried := queried i ++ [uniques_query] |})
  end.
Proof.
  unfold getCandidateUniqueKeys, QueryRowsMap. rewrite !st_bind.
  cbn [sends mret St_ret fst snd].
  destruct (select_uniques w databaseName tableName) as [err|rows]; [done|].
  cbn [mret St_ret fst snd].
  match goal with |- context [each_row rows ?f []] => set (cb := f) end.
  assert (Hrows : ∀ acc, each_row rows cb acc =
                         (None, acc ++ map (uniqueKey_of_row w) rows)).
  { induction rows as [|r rows IH]; intros acc; cbn [each_row map].
    - by rewrite app_nil_r.
    - unfold cb at 1. rewrite IH. by rewrite <- app_assoc. }
  by rewrite Hrows.
Qed.

Lemma InspectTableColumnsAndUniqueKeys_run w databaseName tableName i :
  InspectTableColumnsAndUniqueKeys w databaseName tableName i =
  match select_uniques w databaseName tableName with
  | inl err =>
      (([], inl err),
       {| mysqlContext := mysqlContext i; logged := logged i;
          queried := queried i ++ [uniques_query] |})
  | inr rows =>
      ((map (uniqueKey_of_row w) rows, GetTableColumns w databaseName tableName),
       {| mysqlContext := mysqlContext i;
          logged := logged i ++ [Log LDebug "Potential unique keys."];
          queried := queried i ++ [uniques_query] |})
  end.
Proof.
  unfold InspectTableColumnsAndUniqueKeys. rewrite st_bind, getCandidateUniqueKeys_run.
  by destruct (select_uniques w databaseName tableName).
Qed.

(** [ValidateOriginalTable] on a table that is there, with keys and columns
    read: the table it leaves, and the error of the row filter *)
Lemma ValidateOriginalTable_run w databaseName tableName table i rows columns :
  (validateTable w databaseName tableName i).1 = None ->
  select_uniques w databaseName tableName = inr rows ->
  GetTableColumns w databaseName tableName = inr columns ->
  let table' := inspected w (BinlogRowImage (mysqlContext i)) table columns rows in
  ∃ i', ValidateOriginalTable w databaseName tableName table i
          = ((NewWhereCtx w (GetWhere w table') table', table'), i') ∧
        mysqlContext i' = mysqlContext i.
Proof.
  intros Htable Hrows Hcols. cbv zeta.
  rewrite validateTable_run in Htable. cbn [fst] in Htable.
  unfold ValidateOriginalTable. rewrite !st_bind.
  rewrite validateTable_run. cbn [fst snd]. rewrite Htable.
  cbn [logger fst snd mysqlContext logged queried].
  rewrite st_bind. unfold InspectTableColumnsAndUniqueKeys at 1 2. rewrite !st_bind.
  rewrite getCandidateUniqueKeys_run, Hrows. cbn [fst snd]. rewrite Hcols.
  cbn [mret St_ret fst snd]. rewrite !st_bind.
  match goal with |- context [logger LDebug "table has unique keys" ?i0] =>
    set (i4 := (logger LDebug "table has unique keys" i0).2) end.
  assert (Hc4 : mysqlContext i4 = mysqlContext i) by done.
  clearbody i4.
  set (t1 := with_ColumnMap _ _).
  destruct (select_unique_key_result w t1 (map (uniqueKey_of_row w) rows)
              (UseUniqueKey t1) i4) as [Hkey Hc5].
  rewrite Hkey. clear Hkey. rewrite Hc4 in *.
  assert (Hcand : map (typed w t1) (map (uniqueKey_of_row w) rows)
                  = candidates w table rows).
  { unfold candidates. by rewrite map_map. }
  rewrite Hcand.
  change (UseUniqueKey t1) with (UseUniqueKey table).
  fold (key_after w (BinlogRowImage (mysqlContext i)) (candidates w table rows)
          (UseUniqueKey table)).
  change (with_UseUniqueKey t1 _)
    with (inspected w (BinlogRowImage (mysqlContext i)) table columns rows).
  set (table' := inspected _ _ _ _ _).
  set (i5 := (select_unique_key _ _ _ _ _).2) in *. clearbody i5.
  destruct (key_after _ _ _ _); cbn [logger fst snd];
    destruct (NewWhereCtx w (GetWhere w table') table');
    rewrite ?st_bind; cbn [logger mret St_ret fst snd mysqlContext]; eauto.
Qed.

(** what [validateTable] returns does not depend on the Inspector it runs in *)
Lemma validateTable_same w databaseName tableName i i' :
  (validateTable w databaseName tableName i).1
  = (validateTable w databaseName tableName i').1.
Proof. by rewrite !validateTable_run. Qed.

(** X9.  [InitDBConnections] succeeds exactly when the connection is
    created, the grants are sufficient (or their check is skipped), GTID mode
    is ON and binary logging is on in ROW format.  It stops at the first
    check that fails: with no connection it sends no query, and with
    insufficient grants, or none shown, the grants query is the only one it
    sends.  When it succeeds it has sent the queries of the three checks in
    their order. *)
Theorem InitDBConnections_decides (w : World) (CreateDB : option error) (i : Inspector) :
  let r := InitDBConnections w CreateDB i in
  let skip := SkipPrivilegeCheck (mysqlContext i) in
  (r.1 = None <->
     CreateDB = None ∧
     (skip = true ∨ ∃ rows, show_grants w = inr rows ∧ sufficient rows) ∧
     select_gtid_mode w = inr "ON" ∧
     select_log_bin w = inr (true, "ROW")) ∧
  (∀ err, CreateDB = Some err -> r.1 = Some err ∧ queried r.2 = queried i) ∧
  (CreateDB = None -> skip = false ->
   ¬ (∃ rows, show_grants w = inr rows ∧ sufficient rows) ->
     r.1 ≠ None ∧ queried r.2 = queried i ++ ["show grants for current_user()"]) ∧
  (r.1 = None ->
     queried r.2 =
       queried i ++ (if skip then [] else ["show grants for current_user()"])
                 ++ ["SELECT @@GTID_MODE"; "select @@log_bin, @@binlog_format";
                     "select @@binlog_row_image"]).
Proof.
  cbv zeta. unfold InitDBConnections. rewrite st_bind.
  set (i1 := (logger LDebug "CreateDB" i).2).
  assert (Hi1 : mysqlContext i1 = mysqlContext i ∧ queried i1 = queried i) by done.
  clearbody i1. destruct Hi1 as [Hc1 Hq1].
  destruct CreateDB as [err|]; cbn [mret St_ret fst snd].
  { split; [split; [done|by intros [? _]]|].
    split; [by intros ? [= <-]|]. split; [done|done]. }
  rewrite st_bind. set (i2 := (logger LDebug "validateGrants" i1).2).
  assert (Hi2 : mysqlContext i2 = mysqlContext i ∧ queried i2 = queried i)
    by (by rewrite <- Hc1, <- Hq1).
  clearbody i2. clear i1 Hc1 Hq1. destruct Hi2 as [Hc2 Hq2].
  rewrite st_bind.
  destruct (validateGrants_result w i2) as (Hgr & Hc3 & Hq3).
  rewrite Hc2 in Hgr, Hc3, Hq3. rewrite Hq2 in Hq3.
  destruct (validateGrants w i2) as [gr i3]. cbn [fst snd] in *.
  destruct gr as [err|].
  { rewrite st_bind. cbn [logger mret St_ret fst snd queried].
    assert (Hno : ¬ (SkipPrivilegeCheck (mysqlContext i) = true ∨
                     ∃ rows, show_grants w = inr rows ∧ sufficient rows))
      by (intros H; by apply Hgr in H).
    split; [split; [done|by intros (_ & ? & _)]|].
    split; [done|]. split; [|done]. intros _ Hskip _.
    split; [done|]. by rewrite Hq3, Hskip. }
  assert (Hok : SkipPrivilegeCheck (mysqlContext i) = true ∨
                ∃ rows, show_grants w = inr rows ∧ sufficient rows) by (by apply Hgr).
  clear Hgr. rewrite st_bind.
  set (i4 := (logger LDebug "validateGTIDMode" i3).2).
  assert (Hi4 : mysqlContext i4 = mysqlContext i ∧ queried i4 = queried i3) by done.
  clearbody i4. destruct Hi4 as [Hc4 Hq4]. rewrite st_bind.
  destruct (validateGTIDMode_result w i4) as (Hgt & Hc5 & Hq5).
  rewrite Hc4 in Hc5. rewrite Hq4, Hq3 in Hq5.
  destruct (validateGTIDMode w i4) as [gt i5]. cbn [fst snd] in *.
  destruct gt as [err|]; cbn [mret St_ret fst snd].
  { assert (Hno : select_gtid_mode w ≠ inr "ON") by (intros H; by apply Hgt in H).
    split; [split; [done|by intros (_ & _ & ? & _)]|].
    split; [done|]. split; [|done]. intros _ Hskip Hnone.
    destruct Hok as [?|?]; [congruence|done]. }
  assert (Hon : select_gtid_mode w = inr "ON") by (by apply Hgt).
  clear Hgt. rewrite st_bind.
  set (i6 := (logger LDebug "validateBinlogs" i5).2).
  assert (Hi6 : mysqlContext i6 = mysqlContext i ∧ queried i6 = queried i5) by done.
  clearbody i6. destruct Hi6 as [Hc6 Hq6]. rewrite st_bind.
  destruct (validateBinlogs_result w i6) as (Hbl & Hq7).
  rewrite Hq6, Hq5 in Hq7.
  destruct (validateBinlogs w i6) as [bl i7]. cbn [fst snd] in *.
  destruct bl as [err|]; cbn [mret St_ret fst snd].
  { assert (Hno : select_log_bin w ≠ inr (true, "ROW")) by (intros H; by apply Hbl in H).
    split; [split; [done|by intros (_ & _ & _ & ?)]|].
    split; [done|]. split; [|done]. intros _ Hskip Hnone.
    destruct Hok as [?|?]; [congruence|done]. }
  rewrite st_bind. cbn [logger mret St_ret fst snd queried].
  split; [split; [intros _|done]|].
  { split; [done|]. split; [done|]. split; [done|]. by apply Hbl. }
  split; [done|]. split.
  - intros _ Hskip Hnone. destruct Hok as [?|?]; [congruence|done].
  - intros _. rewrite Hq7 by done. by rewrite <- !app_assoc.
Qed.

(** a server that passes, and the same one in GTID mode OFF (scenario 7) *)
Example InitDBConnections_passes :
  let w := with_grants (server [] [] None) ["GRANT ALL PRIVILEGES ON *.* TO 'repl'@'%'"] in
  let r := InitDBConnections w None fresh_inspector in
  r.1 = None ∧ BinlogRowImage (mysqlContext r.2) = "FULL".
Proof. vm_compute. split; reflexivity. Qed.

(** X10.  [validateTable] succeeds exactly when the status query is
    answered with at least one row and no row says VIEW.  A row that says
    VIEW gives the is-a-view error, also when other rows do not; an answer
    without rows gives the cannot-find error; a failed query gives its own
    error.  The query is sent once and the configuration is not touched. *)
Theorem validateTable_decides (w : World) (databaseName tableName : string)
    (i : Inspector) :
  let r := validateTable w databaseName tableName i in
  (r.1 = None <->
     ∃ status, show_table_status w databaseName tableName = inr status ∧
       status ≠ [] ∧ Forall (λ row, GetString row "Comment" ≠ "VIEW") status) ∧
  (∀ status, show_table_status w databaseName tableName = inr status ->
     Exists (λ row, GetString row "Comment" = "VIEW") status ->
     r.1 = Some (is_a_view w databaseName tableName)) ∧
  (show_table_status w databaseName tableName = inr [] ->
     r.1 = Some (cannot_find w databaseName tableName)) ∧
  (∀ err, show_table_status w databaseName tableName = inl err -> r.1 = Some err) ∧
  queried r.2 = queried i ++ [table_status_query w databaseName tableName] ∧
  mysqlContext r.2 = mysqlContext i.
Proof.
  cbv zeta. rewrite validateTable_run. cbn [fst snd queried mysqlContext].
  assert (Hviews : ∀ status : list RowMap,
    existsb says_view status = true <->
    Exists (λ row, GetString row "Comment" = "VIEW") status).
  { intros status. rewrite existsb_exists, Exists_exists. unfold says_view.
    split; intros (row & Hin & Hrow); exists row.
    - apply bool_decide_eq_true in Hrow. split; [by apply list_elem_of_In|done].
    - split; [by apply list_elem_of_In|by apply bool_decide_eq_true]. }
  destruct (show_table_status w databaseName tableName) as [err|status].
  { split; [split; [done|by intros (? & ? & _)]|]. split; [done|].
    split; [done|]. split; [by intros ? [= <-]|done]. }
  destruct (existsb says_view status) eqn:Hv.
  - apply Hviews in Hv. split.
    { split; [done|]. intros (status0 & [= <-] & _ & Hall).
      apply Exists_exists in Hv as (row & Hin & Hrow).
      rewrite Forall_forall in Hall. by destruct (Hall row Hin). }
    split; [done|]. split; [|done]. intros [= ->]. by apply Exists_nil in Hv.
  - assert (Hnv : Forall (λ row : RowMap, GetString row "Comment" ≠ "VIEW") status).
    { apply Forall_forall. intros row Hin Hrow.
      assert (existsb says_view status = true); [|congruence].
      apply Hviews, Exists_exists. eauto. }
    split.
    { destruct status as [|row rest].
      - split; [done|]. by intros (status0 & [= <-] & ? & _).
      - split; [|done]. intros _. by exists (row :: rest). }
    split.
    { intros status0 [= <-] Hex. apply Hviews in Hex. congruence. }
    split; [by intros [= ->]|done].
Qed.

Lemma key_after_again w rowImage cands use :
  key_after w rowImage cands (key_after w rowImage cands use)
  = key_after w rowImage cands use.
Proof.
  unfold key_after. destruct (find _ cands); [done|].
  destruct use; [done|]. by destruct (find _ cands).
Qed.

(** X11.  The error paths of [ValidateOriginalTable].  When [validateTable]
    fails (no answer, no such table, a view) its error is returned, the
    table descriptor is left as it was, and the unique-key query is not sent.
    When the table is there and reading the unique keys, or then the
    columns, fails, that error is returned and the descriptor comes back with
    [OriginalTableColumns] nil and nothing else changed. *)
Theorem ValidateOriginalTable_errors (w : World) (databaseName tableName : string)
    (table : Table) (i : Inspector) :
  let r := ValidateOriginalTable w databaseName tableName table i in
  (∀ err, (validateTable w databaseName tableName i).1 = Some err ->
     r.1 = (Some err, table) ∧
     queried r.2 = queried i ++ [table_status_query w databaseName tableName]) ∧
  ((validateTable w databaseName tableName i).1 = None ->
   ∀ err, select_uniques w databaseName tableName = inl err ->
     r.1 = (Some err, with_OriginalTableColumns table None) ∧
     queried r.2 = queried i ++ [table_status_query w databaseName tableName;
                                 uniques_query]) ∧
  ((validateTable w databaseName tableName i).1 = None ->
   ∀ rows err, select_uniques w databaseName tableName = inr rows ->
     GetTableColumns w databaseName tableName = inl err ->
     r.1 = (Some err, with_OriginalTableColumns table None)).
Proof.
  cbv zeta. split; [|split].
  - intros err Hv. unfold ValidateOriginalTable. rewrite !st_bind.
    rewrite validateTable_run in Hv. rewrite validateTable_run.
    cbn [fst snd logger mysqlContext logged queried] in *. by rewrite Hv.
  - intros Hv err Hu. unfold ValidateOriginalTable. rewrite !st_bind.
    rewrite validateTable_run in Hv. rewrite validateTable_run.
    cbn [fst snd logger mysqlContext logged queried] in *. rewrite Hv.
    rewrite !st_bind, InspectTableColumnsAndUniqueKeys_run, Hu.
    cbn [mret St_ret fst snd queried]. by rewrite <- app_assoc.
  - intros Hv rows err Hu Hcols. unfold ValidateOriginalTable. rewrite !st_bind.
    rewrite validateTable_run in Hv. rewrite validateTable_run.
    cbn [fst snd logger mysqlContext logged queried] in *. rewrite Hv.
    rewrite !st_bind, InspectTableColumnsAndUniqueKeys_run, Hu.
    cbn [fst snd]. by rewrite Hcols.
Qed.

Example ValidateOriginalTable_on_a_view :
  (ValidateOriginalTable server_view "s" "t" (table_t "") (inspector "FULL")).1
  = (Some (Errorf "`s`.`t` is a VIEW, not a real table. Bailing out"), table_t "").
Proof. vm_compute. reflexivity. Qed.

(** X12.  Key-selection stability: validating a table again, with the
    descriptor the first validation left and an unchanged server, changes
    nothing -- the same key, columns and column map, and success again. *)
Theorem ValidateOriginalTable_twice (w : World) (databaseName tableName : string)
    (table : Table) (i : Inspector) (rows : list RowMap) (columns : ColumnList) :
  (validateTable w databaseName tableName i).1 = None ->
  select_uniques w databaseName tableName = inr rows ->
  GetTableColumns w databaseName tableName = inr columns ->
  let r := ValidateOriginalTable w databaseName tableName table i in
  r.1.1 = None ->
  (ValidateOriginalTable w databaseName tableName r.1.2 r.2).1 = r.1.
Proof.
  intros Htable Hrows Hcols. cbv zeta.
  destruct (ValidateOriginalTable_run w databaseName tableName table i rows columns
              Htable Hrows Hcols) as (i' & -> & Hc).
  cbn [fst snd]. intros Hwhere.
  set (table' := inspected _ _ _ _ _) in *.
  assert (Htable' : (validateTable w databaseName tableName i').1 = None)
    by (by rewrite (validateTable_same _ _ _ i' i)).
  destruct (ValidateOriginalTable_run w databaseName tableName table' i' rows columns
              Htable' Hrows Hcols) as (i'' & -> & _).
  cbn [fst]. rewrite Hc.
  assert (Hsame : inspected w (BinlogRowImage (mysqlContext i)) table' columns rows
                  = table').
  { unfold table', inspected, candidates, typed, with_UseUniqueKey, with_ColumnMap,
      with_OriginalTableColumns.
    cbn [UseUniqueKey ColumnMapFrom TableSchema TableName Where OriginalTableColumns
         ColumnMap].
    by rewrite key_after_again. }
  by rewrite Hsame.
Qed.

(** the theorem at scenario 2 *)
Lemma ValidateOriginalTable_twice_witness :
  let r := ValidateOriginalTable server_a_b "s" "t" (table_t "") (inspector "FULL") in
  (ValidateOriginalTable server_a_b "s" "t" r.1.2 r.2).1 = r.1 ∧
  uk_Name <$> UseUniqueKey r.1.2 = Some "b".
Proof.
  split; [|vm_compute; reflexivity].
  apply (ValidateOriginalTable_twice server_a_b "s" "t" (table_t "") (inspector "FULL")
           [key_row "a" "a" "0"; key_row "b" "b" "0"] (one_column "id")).
  - vm_compute. reflexivity.
  - reflexivity.
  - reflexivity.
  - vm_compute. reflexivity.
Defined.

(** X13.  A key that [table.UseUniqueKey] holds on entry is replaced by a
    valid PRIMARY candidate only: without one it stays, whether or not it is
    itself valid or still among the candidates. *)
Theorem ValidateOriginalTable_keeps_preset_key (w : World)
    (databaseName tableName : string) (table : Table) (i : Inspector)
    (rows : list RowMap) (columns : ColumnList) (uk : UniqueKey) :
  (validateTable w databaseName tableName i).1 = None ->
  select_uniques w databaseName tableName = inr rows ->
  GetTableColumns w databaseName tableName = inr columns ->
  UseUniqueKey table = Some uk ->
  UseUniqueKey (ValidateOriginalTable w databaseName tableName table i).1.2 =
    match find (λ c, accepted w (BinlogRowImage (mysqlContext i)) c && IsPrimary w c)
               (candidates w table rows) with
    | Some pk => Some pk
    | None => Some uk
    end.
Proof.
  intros Htable Hrows Hcols Huse.
  destruct (ValidateOriginalTable_run w databaseName tableName table i rows columns
              Htable Hrows Hcols) as (i' & -> & _).
  cbn [fst snd]. unfold inspected. cbn [UseUniqueKey with_UseUniqueKey].
  unfold key_after. by rewrite Huse.
Qed.

(** the theorem at scenario 2, entered with a key the server no longer has:
    the key stays, although [b] is a valid candidate *)
Lemma ValidateOriginalTable_keeps_preset_key_witness :
  uk_Name <$> UseUniqueKey
    (ValidateOriginalTable server_a_b "s" "t" table_t_preset (inspector "FULL")).1.2
  = Some "gone".
Proof.
  rewrite (ValidateOriginalTable_keeps_preset_key server_a_b "s" "t" table_t_preset
             (inspector "FULL") [key_row "a" "a" "0"; key_row "b" "b" "0"]
             (one_column "id") key_gone).
  - vm_compute. reflexivity.
  - vm_compute. reflexivity.
  - reflexivity.
  - reflexivity.
  - reflexivity.
Defined.

End InspectorInit.

(** ** More on [ApplyEventQueries]: the worker connections, [BeginTx] and
    the row counter *)

Module ApplierRuns.
Import GoStrings Applier.

(** a destination whose second worker connection rejects the system
    variables, and an applier with three connections *)
Definition sysvars : string := "SET @@session.time_zone = '+00:00'".

Definition second_worker_fails : Dest :=
  {| IgnoreError := IgnoreError destination;
     IgnoreExistsError := IgnoreExistsError destination;
     EscapeName := EscapeName destination;
     EscapeValue := EscapeValue destination;
     conn_exec := λ i _, if decide (i = 1) then Some syntax_error else None;
     begin_tx := None;
     tx_exec := tx_exec destination;
     tx_commit := tx_commit destination |}.

Definition three_workers : applier :=
  {| dbs := 3; logged := []; on_workers := []; tx := []; committed := [];
     reported := []; TotalRowsReplayed := 0 |}.

Definition entry_sysvars : DumpEntry :=
  {| SystemVariablesStatement := sysvars;
     SqlMode := "";
     DbSQL := "";
     TbSQL := [];
     TableSchema := "s";
     TableName := "t";
     ValuesX := [[Some "1"]] |}.

(** *** Facts *)

Lemma for_each_app {X} (f : X -> Ap unit) l1 l2 a :
  for_each (l1 ++ l2) f a =
  match for_each l1 f a with
  | (Return err, a') => (Return err, a')
  | (Next _, a') => for_each l2 f a'
  end.
Proof.
  revert a. induction l1 as [|x l1 IH]; intros a; [done|].
  rewrite <- app_comm_cons, !for_each_run.
  destruct (f x a) as [[err|[]] a']; [done|]. apply IH.
Qed.

(** the loop over worker connections that accept the statement *)
Lemma workers_loop_ok d what query l : ∀ a,
  (∀ j, j ∈ l -> conn_exec d j query = None) ->
  ∃ a', for_each l (worker_step d what query) a = (Next (), a') ∧
        on_workers a' = on_workers a ++ map (λ j, (j, query)) l ∧
        tx a' = tx a ∧ same_destination a a'.
Proof.
  induction l as [|i l IH]; intros a Hok.
  { exists a. cbn. rewrite app_nil_r. split; [done|]. split; [done|]. split; [done|].
    apply same_destination_refl. }
  rewrite for_each_run, worker_step_ok by (apply Hok; left). cbv zeta.
  match goal with |- context [for_each l _ ?a1] =>
    destruct (IH a1) as (a' & -> & H2 & H3 & H4) end.
  { intros j Hj. apply Hok. by right. }
  exists a'. split; [done|]. split.
  - rewrite H2. cbn [on_workers with_on_workers with_logged map].
    by rewrite <- app_assoc.
  - split; [by rewrite H3|].
    eapply same_destination_trans; [|exact H4]. by repeat split.
Qed.

(** the loop over the worker connections when connection [k] is the first
    to fail *)
Lemma on_each_worker_fails d what query a k err :
  k < dbs a ->
  (∀ j, j < k -> conn_exec d j query = None) ->
  conn_exec d k query = Some err ->
  ∃ a', on_each_worker d what query a = (Return (Some err), a') ∧
        on_workers a' = on_workers a ++ map (λ j, (j, query)) (seq 0 k) ∧
        tx a' = tx a ∧ same_destination a a'.
Proof.
  intros Hk Hbefore Hfail. unfold on_each_worker. rewrite ap_bind.
  assert (Hseq : seq 0 (dbs a) = seq 0 k ++ k :: seq (S k) (dbs a - S k)).
  { replace (dbs a) with (k + S (dbs a - S k)) at 1 by lia.
    by rewrite seq_app. }
  rewrite Hseq, for_each_app.
  destruct (workers_loop_ok d what query (seq 0 k) a) as (a1 & -> & H2 & H3 & H4).
  { intros j Hj. apply Hbefore. apply elem_of_seq in Hj. lia. }
  rewrite for_each_run.
  unfold worker_step, mbind, Ap_bind, logger, worker_exec. rewrite Hfail.
  eexists. split; [reflexivity|]. cbn [on_workers tx with_logged].
  split; [done|]. split; [done|].
  eapply same_destination_trans; [exact H4|]. by repeat split.
Qed.

(** X14.  A system-variables statement that a worker connection rejects
    ends [ApplyEventQueries] before the transaction is opened: the error
    comes back as the connection gave it, the connections before the failing
    one keep the statement they applied, no transaction is begun or
    committed, nothing is reported and no row is counted. *)
Theorem ApplyEventQueries_worker_failure (d : Dest) (entry : DumpEntry) (a : applier)
    (k : nat) (err : error) :
  SystemVariablesStatement entry ≠ "" ->
  k < dbs a ->
  (∀ j, j < k -> conn_exec d j (SystemVariablesStatement entry) = None) ->
  conn_exec d k (SystemVariablesStatement entry) = Some err ->
  let r := ApplyEventQueries d entry a in
  r.1 = Some err ∧
  on_workers r.2
    = on_workers a ++ map (λ j, (j, SystemVariablesStatement entry)) (seq 0 k) ∧
  tx r.2 = tx a ∧ same_destination a r.2.
Proof.
  intros Hne Hk Hbefore Hfail. cbv zeta.
  unfold ApplyEventQueries, body. rewrite !ap_bind. cbn [logger].
  set (a1 := with_logged a _). rewrite ap_bind.
  unfold prepare_workers. rewrite ap_bind, decide_True by done.
  destruct (on_each_worker_fails d "exec sysvar query" (SystemVariablesStatement entry)
              a1 k err Hk Hbefore Hfail) as (a2 & -> & H2 & H3 & H4).
  cbn [fst snd]. split; [done|]. split; [done|]. split; [done|].
  eapply same_destination_trans; [|exact H4]. by repeat split.
Qed.

(** the theorem at three connections of which the second rejects the
    statement: the first has applied it *)
Lemma ApplyEventQueries_worker_failure_witness :
  let r := ApplyEventQueries second_worker_fails entry_sysvars three_workers in
  r.1 = Some syntax_error ∧
  on_workers r.2 = [(0, sysvars)] ∧
  tx r.2 = [] ∧ same_destination three_workers r.2.
Proof.
  apply (ApplyEventQueries_worker_failure second_worker_fails entry_sysvars
           three_workers 1 syntax_error).
  - discriminate.
  - vm_compute. lia.
  - intros j Hj. by replace j with 0 by lia.
  - reflexivity.
Defined.



End ApplierRuns.

(** ** The applier's connection set-up: [ApplierOracle.initDBConnections],
    [InitDB], [ValidateGrants] (package oracle) *)

Module OracleInit.
Import GoStrings.

(** a row of [sql.QueryRowsMap] *)
Abbreviation RowMap := (gmap string string).

(** Go's [int] on the 64-bit platforms the driver is built for *)
Definition int (z : Z) : Z := ((z + 2 ^ 63) mod 2 ^ 64 - 2 ^ 63)%Z.

(** [base.GetSomeSysVars]'s result, as far as it is read *)
Record SomeSysVars : Type :=
  { Err : option error; Version : string; LowerCaseTableNames : Z }.

(** *** What lies outside the file *)
Record World : Type :=
  { (* g.DtleSchemaName, g.GtidExecutedTableV4 *)
    DtleSchemaName : string;
    GtidExecutedTableV4 : string;
    (* sql.CreateDB(uri) *)
    CreateDB : option error;
    (* sql.CreateConns(db, count): how many connections come back, and the error *)
    CreateConns : Z -> nat * option error;
    (* base.GetSomeSysVars(db, logger) *)
    GetSomeSysVars : SomeSysVars;
    (* show grants for current_user() *)
    show_grants : error + list RowMap;
    (* a.db.ExecContext(ctx, `use mysql`) *)
    use_mysql : option error }.

(** *** The applier, as far as the set-up reads and writes it *)
Record applier : Type :=
  { SkipPrivilegeCheck : bool;          (* a.mysqlContext.SkipPrivilegeCheck *)
    ExpandSyntaxSupport : bool;         (* a.mysqlContext.ExpandSyntaxSupport *)
    ParallelWorkers : Z;                (* a.mysqlContext.ParallelWorkers *)
    MySQLVersion : string;
    lowerCaseTableNames : Z;
    db : bool;                          (* a.db is set *)
    MaxOpenConns : option Z;            (* a.db.SetMaxOpenConns(n) *)
    dbs : nat;                          (* len(a.dbs) *)
    logged : list log_entry;
    sent : list string }.               (* statements sent to the server *)

Definition Or (A : Type) : Type := applier -> A * applier.

#[global] Instance Or_ret : MRet Or := λ A x a, (x, a).
#[global] Instance Or_bind : MBind Or := λ A B f m a, let (x, a') := m a in f x a'.

(** the applier with one more line in its log *)
Definition logs (l : level) (m : string) (a : applier) : applier :=
  {| SkipPrivilegeCheck := SkipPrivilegeCheck a;
     ExpandSyntaxSupport := ExpandSyntaxSupport a;
     ParallelWorkers := ParallelWorkers a; MySQLVersion := MySQLVersion a;
     lowerCaseTableNames := lowerCaseTableNames a; db := db a;
     MaxOpenConns := MaxOpenConns a; dbs := dbs a;
     logged := logged a ++ [Log l m]; sent := sent a |}.

Definition logger (l : level) (m : string) : Or unit := λ a, ((), logs l m a).

Definition sends (query : string) : Or unit := λ a,
  ((), {| SkipPrivilegeCheck := SkipPrivilegeCheck a;
          ExpandSyntaxSupport := ExpandSyntaxSupport a;
          ParallelWorkers := ParallelWorkers a; MySQLVersion := MySQLVersion a;
          lowerCaseTableNames := lowerCaseTableNames a; db := db a;
          MaxOpenConns := MaxOpenConns a; dbs := dbs a;
          logged := logged a; sent := sent a ++ [query] |}).

Definition get : Or applier := λ a, (a, a).

Definition set_db : Or unit := λ a,
  ((), {| SkipPrivilegeCheck := SkipPrivilegeCheck a;
          ExpandSyntaxSupport := ExpandSyntaxSupport a;
          ParallelWorkers := ParallelWorkers a; MySQLVersion := MySQLVersion a;
          lowerCaseTableNames := lowerCaseTableNames a; db := true;
          MaxOpenConns := MaxOpenConns a; dbs := dbs a;
          logged := logged a; sent := sent a |}).

Definition SetMaxOpenConns (n : Z) : Or unit := λ a,
  ((), {| SkipPrivilegeCheck := SkipPrivilegeCheck a;
          ExpandSyntaxSupport := ExpandSyntaxSupport a;
          ParallelWorkers := ParallelWorkers a; MySQLVersion := MySQLVersion a;
          lowerCaseTableNames := lowerCaseTableNames a; db := db a;
          MaxOpenConns := Some n; dbs := dbs a;
          logged := logged a; sent := sent a |}).

Definition set_dbs (n : nat) : Or unit := λ a,
  ((), {| SkipPrivilegeCheck := SkipPrivilegeCheck a;
          ExpandSyntaxSupport := ExpandSyntaxSupport a;
          ParallelWorkers := ParallelWorkers a; MySQLVersion := MySQLVersion a;
          lowerCaseTableNames := lowerCaseTableNames a; db := db a;
          MaxOpenConns := MaxOpenConns a; dbs := n;
          logged := logged a; sent := sent a |}).

Definition set_sysvars (version : string) (lctn : Z) : Or unit := λ a,
  ((), {| SkipPrivilegeCheck := SkipPrivilegeCheck a;
          ExpandSyntaxSupport := ExpandSyntaxSupport a;
          ParallelWorkers := ParallelWorkers a; MySQLVersion := version;
          lowerCaseTableNames := lctn; db := db a;
          MaxOpenConns := MaxOpenConns a; dbs := dbs a;
          logged := logged a; sent := sent a |}).

Definition set_ParallelWorkers (n : Z) : Or unit := λ a,
  ((), {| SkipPrivilegeCheck := SkipPrivilegeCheck a;
          ExpandSyntaxSupport := ExpandSyntaxSupport a;
          ParallelWorkers := n; MySQLVersion := MySQLVersion a;
          lowerCaseTableNames := lowerCaseTableNames a; db := db a;
          MaxOpenConns := MaxOpenConns a; dbs := dbs a;
          logged := logged a; sent := sent a |}).

(** *** [ValidateGrants] *)

Record grants : Type := { foundAll : bool; foundSuper : bool; foundDBAll : bool }.

Definition no_grants : grants :=
  {| foundAll := false; foundSuper := false; foundDBAll := false |}.

(** [fmt.Sprintf("GRANT ALL PRIVILEGES ON `%v`.`%v`", g.DtleSchemaName,
    g.GtidExecutedTableV4)] *)
Definition all_on_gtid_table (w : World) : string :=
  "GRANT ALL PRIVILEGES ON `" +:+ DtleSchemaName w +:+ "`.`"
    +:+ GtidExecutedTableV4 w +:+ "`".

Definition db_privileges : list string :=
  ["ALTER"; "CREATE"; "DELETE"; "DROP"; "INDEX"; "INSERT"; "SELECT"; "TRIGGER";
   "UPDATE"; " ON"].

(** the body of [for _, grantData := range rowMap] *)
Definition scan_grant (w : World) (grant : string) (g : grants) : grants :=
  let foundAll :=
    if Contains grant "GRANT ALL PRIVILEGES ON" then true else foundAll g in
  let foundSuper :=
    if Contains grant "SUPER" && Contains grant " ON *.*" then true else foundSuper g in
  let foundDBAll :=
    if Contains grant (all_on_gtid_table w) then true else foundDBAll g in
  let foundDBAll :=
    if Inspector.StringContainsAll grant db_privileges then true else foundDBAll in
  {| foundAll := foundAll; foundSuper := foundSuper; foundDBAll := foundDBAll |}.

Definition scan_row (w : World) (rowMap : RowMap) (g : grants) : option error * grants :=
  (None, map_fold (λ _ grant g, scan_grant w grant g) g rowMap).

(** the message of the failed [use mysql], whose first word is quoted *)
Definition use_mysql_msg : string :=
  String (Ascii.ascii_of_nat 34) "mysql" +:+ String (Ascii.ascii_of_nat 34) ""
    +:+ " schema is expected to be access when ExpandSyntaxSupport=true".

Definition use_mysql_failed (err : error) : error :=
  Errorf (use_mysql_msg +:+ ". error: " +:+ Error err).

Definition insufficient_privileges : error :=
  Errorf "user has insufficient privileges for ApplierOracle. Needed:ALTER, CREATE, DROP, INDEX, REFERENCES, INSERT, DELETE, UPDATE, SELECT, TRIGGER ON *.*".

Definition ValidateGrants (w : World) : Or (option error) :=
  a ← get;
  if SkipPrivilegeCheck a then
    logger LDebug "skipping priv check" ;; mret None
  else
    sends "show grants for current_user()" ;;
    match
      match show_grants w with
      | inl err => (Some err, no_grants)
      | inr rows => Inspector.each_row rows (scan_row w) no_grants
      end
    with
    | (Some err, _) => mret (Some err)
    | (None, g) =>
        if foundAll g then
          logger LInfo "User has ALL privileges" ;; mret None
        else
          err ← (if ExpandSyntaxSupport a then
                   sends "use mysql" ;;
                   match use_mysql w with
                   | Some err =>
                       logger LInfo use_mysql_msg ;;
                       mret (Some (use_mysql_failed err))
                   | None => mret None
                   end
                 else mret None);
          match err with
          | Some err => mret (Some err)
          | None =>
              if foundSuper g then
                logger LInfo "User has SUPER privileges" ;; mret None
              else if foundDBAll g then
                logger LInfo "User has ALL privileges on *.*" ;; mret None
              else
                logger LDebug "Privileges" ;;
                mret (Some insufficient_privileges)
          end
    end.

(** *** [InitDB], [initDBConnections] *)

Definition InitDB (w : World) : Or (option error) :=
  match CreateDB w with
  | Some err => mret (Some err)
  | None => set_db ;; mret None
  end.

Definition initDBConnections (w : World) : Or (option error) :=
  err ← InitDB w;
  match err with
  | Some err => mret (Some err)
  | None =>
      a ← get;
      SetMaxOpenConns (int (10 + ParallelWorkers a)) ;;
      logger LDebug "CreateConns" ;;
      let (conns, err) := CreateConns w (ParallelWorkers a) in
      set_dbs conns ;;
      match err with
      | Some err =>
          logger LDebug "beging connetion mysql 2 create conns err" ;;
          mret (Some err)
      | None =>
          let someSysVars := GetSomeSysVars w in
          match Err someSysVars with
          | Some err => mret (Some err)
          | None =>
              logger LDebug "Connection validated" ;;
              set_sysvars (Version someSysVars) (LowerCaseTableNames someSysVars) ;;
              (if HasPrefix (Version someSysVars) "5.6"
               then set_ParallelWorkers 1 else mret ()) ;;
              logger LDebug "beging connetion mysql 5 validate  grants" ;;
              err ← ValidateGrants w;
              match err with
              | Some err =>
                  logger LError "Unexpected error on ValidateGrants" ;;
                  mret (Some err)
              | None =>
                  logger LDebug "after ValidateGrants" ;;
                  logger LInfo "Initiated" ;;
                  mret None
              end
          end
      end
  end.

(** *** What the grants say *)

(** some grant the server shows passes [test] *)
Definition some_grant (rows : list RowMap) (test : string -> bool) : Prop :=
  ∃ row column grant, row ∈ rows ∧ row !! column = Some grant ∧ test grant = true.

(** what [ValidateGrants] returns, by the two settings it reads *)
Definition verdict (w : World) (skip expand : bool) : option error :=
  if skip then None else
  match show_grants w with
  | inl err => Some err
  | inr rows =>
      let g := (Inspector.each_row rows (scan_row w) no_grants).2 in
      if foundAll g then None
      else match (if expand then use_mysql w else None) with
           | Some err => Some (use_mysql_failed err)
           | None =>
               if foundSuper g || foundDBAll g then None
               else Some insufficient_privileges
           end
  end.

(** the fields the set-up leaves alone once they are written *)
Definition same_setup (a a' : applier) : Prop :=
  SkipPrivilegeCheck a' = SkipPrivilegeCheck a ∧
  ExpandSyntaxSupport a' = ExpandSyntaxSupport a ∧
  ParallelWorkers a' = ParallelWorkers a ∧
  MySQLVersion a' = MySQLVersion a ∧
  lowerCaseTableNames a' = lowerCaseTableNames a ∧
  db a' = db a ∧ MaxOpenConns a' = MaxOpenConns a ∧ dbs a' = dbs a.

(** a MySQL 5.6 server that shows SUPER ON *.*, and an applier configured
    for four workers *)
Definition server_5_6 : World :=
  {| DtleSchemaName := "dtle"; GtidExecutedTableV4 := "gtid_executed_v4";
     CreateDB := None;
     CreateConns := λ n, (Z.to_nat n, None);
     GetSomeSysVars := {| Err := None; Version := "5.6.51-log"; LowerCaseTableNames := 0 |};
     show_grants :=
       inr [{[ "Grants for dtle@%" := "GRANT SUPER ON *.* TO 'dtle'@'%'" ]}];
     use_mysql := None |}.

Definition four_workers : applier :=
  {| SkipPrivilegeCheck := false; ExpandSyntaxSupport := false;
     ParallelWorkers := 4; MySQLVersion := ""; lowerCaseTableNames := 0;
     db := false; MaxOpenConns := None; dbs := 0; logged := []; sent := [] |}.

(** *** Facts *)

Lemma or_bind {A B} (m : Or A) (f : A -> Or B) (a : applier) :
  (m ≫= f) a = f (m a).1 (m a).2.
Proof. unfold mbind, Or_bind. by destruct (m a). Qed.

Lemma Contains_prefix s p q : Contains s (p +:+ q) = true -> Contains s p = true.
Proof.
  rewrite !Contains_spec. intros (pre & post & ->).
  exists pre, (q +:+ post). by rewrite !string_app_assoc.
Qed.

Lemma grant_each_row_scan w rows g :
  (Inspector.each_row rows (scan_row w) g).1 = None.
Proof.
  revert g. induction rows as [|row rows IH]; intros g; simpl; [done|]. apply IH.
Qed.

(** a flag of the scan is set by the grants that pass its test, in whatever
    order rows and columns are walked *)
Lemma grant_scan_row_flag w (fld : grants -> bool) (test : string -> bool) :
  (∀ grant g, fld (scan_grant w grant g) = test grant || fld g) ->
  ∀ (row : RowMap) g,
    fld (scan_row w row g).2 = true <->
    fld g = true ∨ ∃ column grant, row !! column = Some grant ∧ test grant = true.
Proof.
  intros Hfld row g. unfold scan_row. simpl.
  apply (map_fold_weak_ind (λ r (m : RowMap),
    fld r = true <->
    fld g = true ∨ ∃ column grant, m !! column = Some grant ∧ test grant = true)).
  - split; [auto|]. intros [?|(c & gr & Hl & _)]; [done|].
    by rewrite lookup_empty in Hl.
  - intros c gr m r Hc IH. rewrite Hfld, orb_true_iff, IH. split.
    + intros [Ht|[Hg|(c' & gr' & Hl & Ht)]].
      * right. exists c, gr. by rewrite lookup_insert_eq.
      * by left.
      * right. exists c', gr'. split; [|done].
        rewrite lookup_insert_ne; [done|]. intros ->. congruence.
    + intros [Hg|(c' & gr' & Hl & Ht)]; [auto|].
      destruct (decide (c = c')) as [->|Hne].
      * rewrite lookup_insert_eq in Hl. injection Hl as ->. by left.
      * rewrite lookup_insert_ne in Hl by done. right. right. by exists c', gr'.
Qed.

Lemma grant_each_row_flag w (fld : grants -> bool) (test : string -> bool) :
  (∀ grant g, fld (scan_grant w grant g) = test grant || fld g) ->
  ∀ rows g,
    fld (Inspector.each_row rows (scan_row w) g).2 = true <->
    fld g = true ∨ some_grant rows test.
Proof.
  intros Hfld rows. unfold some_grant. induction rows as [|row rows IH]; intros g; simpl.
  - split; [auto|]. intros [?|(r & c & gr & Hin & _)]; [done|].
    by apply elem_of_nil in Hin.
  - rewrite IH. change (fld (map_fold _ g row)) with (fld (scan_row w row g).2).
    rewrite (grant_scan_row_flag w fld test Hfld). split.
    + intros [[Hg|(c & gr & Hl & Ht)]|(r & c & gr & Hin & Hl & Ht)].
      * by left.
      * right. exists row, c, gr. split; [left|done].
      * right. exists r, c, gr. split; [by right|done].
    + intros [Hg|(r & c & gr & Hin & Hl & Ht)]; [auto|].
      apply elem_of_cons in Hin as [->|Hin].
      * left. right. by exists c, gr.
      * right. by exists r, c, gr.
Qed.

Lemma grant_scanned_flags w rows :
  let g := (Inspector.each_row rows (scan_row w) no_grants).2 in
  (foundAll g = true <-> some_grant rows (λ s, Contains s "GRANT ALL PRIVILEGES ON")) ∧
  (foundSuper g = true <->
     some_grant rows (λ s, Contains s "SUPER" && Contains s " ON *.*")) ∧
  (foundDBAll g = true <->
     some_grant rows (λ s, Contains s (all_on_gtid_table w)
                           || Inspector.StringContainsAll s db_privileges)).
Proof.
  assert (Hno : ∀ P : Prop, (false = true ∨ P) <-> P)
    by (intros P; split; [intros [?|?]; [discriminate|assumption] | auto]).
  cbv zeta. split; [|split].
  - rewrite (grant_each_row_flag w foundAll (λ s, Contains s "GRANT ALL PRIVILEGES ON"));
      [apply Hno|]. intros grant g. unfold scan_grant. cbn [foundAll].
    by destruct (Contains grant _).
  - rewrite (grant_each_row_flag w foundSuper
               (λ s, Contains s "SUPER" && Contains s " ON *.*")); [apply Hno|].
    intros grant g. unfold scan_grant. cbn [foundSuper].
    by destruct (Contains grant "SUPER" && _).
  - rewrite (grant_each_row_flag w foundDBAll
               (λ s, Contains s (all_on_gtid_table w)
                     || Inspector.StringContainsAll s db_privileges)); [apply Hno|].
    intros grant g. unfold scan_grant. cbn [foundDBAll].
    by destruct (Contains grant (all_on_gtid_table w)),
                (Inspector.StringContainsAll grant db_privileges).
Qed.

(** [ValidateGrants] returns [verdict] and writes nothing but its log and
    the statements it sends; [use mysql] is sent only when the grants were
    shown without ALL PRIVILEGES and [ExpandSyntaxSupport] is set *)
Lemma ValidateGrants_verdict w a :
  (ValidateGrants w a).1 = verdict w (SkipPrivilegeCheck a) (ExpandSyntaxSupport a) ∧
  same_setup a (ValidateGrants w a).2.
Proof.
  unfold ValidateGrants, verdict. rewrite or_bind. cbn [get fst snd].
  destruct (SkipPrivilegeCheck a) eqn:Hskip; [by repeat split|].
  rewrite or_bind. cbn [sends fst snd].
  destruct (show_grants w) as [err|rows]; [by repeat split|].
  pose proof (grant_each_row_scan w rows no_grants) as Hnone.
  destruct (Inspector.each_row rows (scan_row w) no_grants) as [e g].
  cbn [fst snd] in *. subst e.
  destruct (foundAll g); [by repeat split|].
  rewrite or_bind.
  destruct (ExpandSyntaxSupport a) eqn:Hexp.
  - rewrite or_bind. cbn [sends fst snd].
    destruct (use_mysql w) as [err|]; [by repeat split|].
    cbn [mret Or_ret fst snd].
    destruct (foundSuper g); [by repeat split|].
    destruct (foundDBAll g); by repeat split.
  - cbn [mret Or_ret fst snd].
    destruct (foundSuper g); [by repeat split|].
    destruct (foundDBAll g); by repeat split.
Qed.

(** X16.  [ValidateGrants] of the applier succeeds exactly when the check
    is skipped, or the grants are shown and either some grant reads GRANT ALL
    PRIVILEGES ON, or -- [use mysql] succeeding where [ExpandSyntaxSupport]
    asks for it -- some grant holds SUPER together with ON *.*, or some grant
    holds all of ALTER, CREATE, DELETE, DROP, INDEX, INSERT, SELECT, TRIGGER,
    UPDATE and ON.  The test for ALL PRIVILEGES on the GTID table decides
    nothing: a grant that passes it reads GRANT ALL PRIVILEGES ON already.
    Nothing but the log and the statements sent is written. *)
Theorem ValidateGrants_decides (w : World) (a : applier) :
  let r := ValidateGrants w a in
  (r.1 = None <->
     SkipPrivilegeCheck a = true ∨
     ∃ rows, show_grants w = inr rows ∧
       (some_grant rows (λ s, Contains s "GRANT ALL PRIVILEGES ON") ∨
        ((ExpandSyntaxSupport a = false ∨ use_mysql w = None) ∧
         (some_grant rows (λ s, Contains s "SUPER" && Contains s " ON *.*") ∨
          some_grant rows (λ s, Inspector.StringContainsAll s db_privileges))))) ∧
  same_setup a r.2.
Proof.
  cbv zeta. destruct (ValidateGrants_verdict w a) as [-> Hsame].
  split; [|done]. unfold verdict.
  destruct (SkipPrivilegeCheck a); [split; auto|].
  destruct (show_grants w) as [err|rows].
  { split; [done|]. intros [?|(rows & ? & _)]; done. }
  pose proof (grant_scanned_flags w rows) as (HAll & HSuper & HDB). cbv zeta in *.
  set (g := (Inspector.each_row rows (scan_row w) no_grants).2) in *. clearbody g.
  assert (Hrows : ∀ P : list RowMap -> Prop,
            (false = true ∨ ∃ rows0, inr rows = inr rows0 (A:=error) ∧ P rows0)
            <-> P rows).
  { intros P. split.
    - intros [?|(rows0 & [= <-] & ?)]; done.
    - intros ?. right. by exists rows. }
  rewrite (Hrows (λ rows0, _ ∨ _)). clear Hrows.
  rewrite <- HAll, <- HSuper.
  destruct (foundAll g) eqn:Hall; [split; auto|].
  assert (HDB' : foundDBAll g = true <->
            some_grant rows (λ s, Inspector.StringContainsAll s db_privileges)).
  { rewrite HDB. split.
    - intros (row & c & grant & Hin & Hl & Ht).
      apply orb_true_iff in Ht as [Ht|Ht]; [|by exists row, c, grant].
      assert (Habs : false = true); [|discriminate].
      apply HAll. exists row, c, grant. split; [done|]. split; [done|].
      unfold all_on_gtid_table in Ht.
      change ("GRANT ALL PRIVILEGES ON `" +:+ DtleSchemaName w +:+ "`.`"
                +:+ GtidExecutedTableV4 w +:+ "`")
        with ("GRANT ALL PRIVILEGES ON" +:+ " `" +:+ DtleSchemaName w +:+ "`.`"
                +:+ GtidExecutedTableV4 w +:+ "`") in Ht.
      by apply Contains_prefix in Ht.
    - intros (row & c & grant & Hin & Hl & Ht). exists row, c, grant.
      split; [done|]. split; [done|]. rewrite Ht. by rewrite orb_true_r. }
  rewrite <- HDB'. clear HAll HSuper HDB HDB'.
  destruct (ExpandSyntaxSupport a), (use_mysql w) as [err|],
    (foundSuper g), (foundDBAll g); cbn;
    (split; [intros; try discriminate; auto | intros; try done; intuition discriminate]).
Qed.

(** a grant on the GTID table alone passes, as ALL PRIVILEGES *)
Example ValidateGrants_on_gtid_table :
  let w := {| DtleSchemaName := "dtle"; GtidExecutedTableV4 := "gtid_executed_v4";
              CreateDB := None; CreateConns := λ n, (Z.to_nat n, None);
              GetSomeSysVars := {| Err := None; Version := "8.0.30";
                                   LowerCaseTableNames := 0 |};
              show_grants := inr [{[ "Grants for dtle@%" :=
                "GRANT ALL PRIVILEGES ON `dtle`.`gtid_executed_v4` TO 'dtle'@'%'" ]}];
              use_mysql := Some (Errorf "Error 1044: Access denied") |} in
  last (logged (ValidateGrants w four_workers).2)
    = Some (Log LInfo "User has ALL privileges").
Proof. vm_compute. reflexivity. Qed.


(** on MySQL 5.6, configured for four workers: four connections are made,
    the pool is sized for them, and one worker is left *)
Example initDBConnections_on_5_6 :
  let r := initDBConnections server_5_6 four_workers in
  r.1 = None ∧ dbs r.2 = 4 ∧ MaxOpenConns r.2 = Some 14%Z ∧ ParallelWorkers r.2 = 1%Z.
Proof. vm_compute. repeat split; reflexivity. Qed.

End OracleInit.

(** ** The end of the applier: [ApplierOracle.onError], [Shutdown]
    (package oracle)

    The calls are taken one after the other, as [shutdownLock] orders the
    bodies of [Shutdown]; a send on [waitCh] or [gtidCh] is taken by its
    receiver, and the two [Wait]s return. *)

Module Lifecycle.
Import GoStrings.

(** what a call does to the world outside the applier *)
Inductive event : Type :=
| Published (subject : string) (bs : option string)  (* natsConn.Publish *)
| ExitResult (ExitCode : Z) (Err : option error)      (* a.waitCh <- ... *)
| NatsClosed                                          (* natsConn.Close() *)
| ShutdownChClosed                                    (* close(a.shutdownCh) *)
| Cancelled                                           (* a.cancelFunc() *)
| DBClosed                                            (* sql.CloseDB(a.db) *)
| ConnsClosed                                         (* sql.CloseConns(a.dbs...) *)
| TargetGtidSet (gs : option string)                  (* a.targetGtid = gs *)
| GtidChSent.                                         (* a.gtidCh <- nil *)

#[global] Instance event_eq_dec : EqDecision event.
Proof. solve_decision. Defined.

Record applier : Type :=
  { subject : string;
    natsConn : bool;          (* a.natsConn != nil *)
    shutdown : bool;
    shutdownCh : bool;        (* closed *)
    events : list event;
    logged : list log_entry }.

(** the two ways a call can panic *)
Inductive panic : Type :=
| NilError                 (* err.Error() on a nil error *)
| CloseOfClosedChannel.

Inductive outcome : Type :=
| Panics (p : panic)
| Returns (a : applier).

Definition log (l : level) (m : string) (a : applier) : applier :=
  {| subject := subject a; natsConn := natsConn a; shutdown := shutdown a;
     shutdownCh := shutdownCh a; events := events a;
     logged := logged a ++ [Log l m] |}.

Definition emit (e : event) (a : applier) : applier :=
  {| subject := subject a; natsConn := natsConn a; shutdown := shutdown a;
     shutdownCh := shutdownCh a; events := events a ++ [e];
     logged := logged a |}.

Definition set_shutdown (a : applier) : applier :=
  {| subject := subject a; natsConn := natsConn a; shutdown := true;
     shutdownCh := shutdownCh a; events := events a; logged := logged a |}.

(** [close(a.shutdownCh)] *)
Definition close_shutdownCh (a : applier) : outcome :=
  if shutdownCh a then Panics CloseOfClosedChannel
  else Returns (emit ShutdownChClosed
         {| subject := subject a; natsConn := natsConn a; shutdown := shutdown a;
            shutdownCh := true; events := events a; logged := logged a |}).

Section calls.

(** [common.TaskStateComplete], [TaskStateRestart], [TaskStateDead] *)
Variables TaskStateComplete TaskStateRestart TaskStateDead : Z.

(** [ControlMsg.Marshal(nil)] of the message with text [Msg]: the bytes and
    the error *)
Variable Marshal : string -> string * option error.

(** the error of [natsConn.Publish(subject, bs)], if any *)
Variable publish_error : string -> option string -> option error.

(** [Shutdown()]; it returns nil whenever it returns *)
Definition Shutdown (a : applier) : outcome :=
  let a := log LInfo "Shutting down" a in
  if shutdown a then Returns a else
  let a := if natsConn a then emit NatsClosed a else a in
  let a := set_shutdown a in
  match close_shutdownCh a with
  | Panics p => Panics p
  | Returns a =>
      let a := log LDebug "Shutdown. a.ai.wg.Wait. after" a in
      let a := log LDebug "Shutdown. a.wg.Wait. after" a in
      let a := emit Cancelled a in
      let a := emit DBClosed a in
      let a := log LDebug "Shutdown. CloseDB. after" a in
      let a := emit ConnsClosed a in
      let a := log LDebug "Shutdown. CloseConns. after" a in
      Returns (log LInfo "Shutdown" a)
  end.

(** the [switch state] of [onError] *)
Definition report (state : Z) (err : option error) (a : applier) : outcome :=
  if decide (state = TaskStateComplete) then Returns (log LInfo "Done migrating" a)
  else if decide (state = TaskStateRestart ∨ state = TaskStateDead) then
    match err with
    | None => Panics NilError
    | Some e =>
        let (bs, err1) := Marshal (Error e) in
        let (bs, a) :=
          match err1 with
          | Some _ => (None, log LError "onError. Marshal" a)
          | None => (Some bs, a)
          end in
        if natsConn a then
          let subj := subject a +:+ "_control2" in
          let a' := emit (Published subj bs) a in
          match publish_error subj bs with
          | Some _ => Returns (log LError "when sending control2 msg" a')
          | None => Returns a'
          end
        else Returns a
    end
  else Returns a.

(** [onError(state, err)] *)
Definition onError (state : Z) (err : option error) (a : applier) : outcome :=
  let a := log LError "onError" a in
  if shutdown a then Returns a else
  match report state err a with
  | Panics p => Panics p
  | Returns a =>
      let a := log LDebug "onError. nats published" a in
      let a := emit (ExitResult state err) a in
      Shutdown a
  end.

(** a call from outside *)
Inductive call : Type :=
| CallOnError (state : Z) (err : option error)
| CallShutdown.

Definition step (c : call) (a : applier) : outcome :=
  match c with
  | CallOnError state err => onError state err a
  | CallShutdown => Shutdown a
  end.

(** calls one after the other *)
Fixpoint run (calls : list call) (a : applier) : outcome :=
  match calls with
  | [] => Returns a
  | c :: rest =>
      match step c a with
      | Panics p => Panics p
      | Returns a' => run rest a'
      end
  end.

(** [common.TargetGtidFinished] *)
Variable TargetGtidFinished : string.

(** [gomysql.ParseMysqlGTIDSet(target)]: the set and the error *)
Variable ParseMysqlGTIDSet : string -> option string * option error.

(** [if err != nil { a.onError(common.TaskStateDead, err) }] *)
Definition on_failure (err : option error) (wrap : error -> error) (a : applier)
  : outcome :=
  match err with
  | Some e => onError TaskStateDead (Some (wrap e)) a
  | None => Returns a
  end.

(** [watchTargetGtid()], when [storeManager.WatchTargetGtid] has returned
    [watched] *)
Definition watchTargetGtid (watched : string * option error) (a : applier) : outcome :=
  let (target, err) := watched in
  match on_failure err id a with
  | Panics p => Panics p
  | Returns a =>
      let a := log LInfo "got target GTIDSet" a in
      let (gs, err) := ParseMysqlGTIDSet target in
      match on_failure err
              (λ e, Wrapf e "CommandTypeJobFinish. ParseMysqlGTIDSet") a with
      | Panics p => Panics p
      | Returns a => Returns (emit GtidChSent (emit (TargetGtidSet gs) a))
      end
  end.

(** [checkJobFinish()], when [storeManager.GetJobStatus] has returned
    [status] *)
Definition checkJobFinish (status : string * option error) (a : applier) : outcome :=
  let (jobStatus, err) := status in
  match on_failure err id a with
  | Panics p => Panics p
  | Returns a =>
      if decide (jobStatus = TargetGtidFinished)
      then Shutdown (log LInfo "job finish. shutting down" a)
      else Returns a
  end.

(** how often [e] happened *)
Definition count (P : event -> bool) (a : applier) : nat :=
  length (filter (λ e, P e = true) (events a)).

Definition is_exit (e : event) : bool :=
  match e with ExitResult _ _ => true | _ => false end.

Definition is_close (e : event) : bool :=
  match e with ShutdownChClosed => true | _ => false end.

(** the results sent on [waitCh], in order *)
Definition exits (a : applier) : list event :=
  filter (λ e, is_exit e = true) (events a).

(** the applier between its creation and its end: [shutdownCh] is closed
    by [Shutdown] alone *)
Definition consistent (a : applier) : Prop := shutdownCh a = shutdown a.

(** *** Facts *)

Lemma count_log P l m a : count P (log l m a) = count P a.
Proof. done. Qed.

Lemma count_emit P e a :
  count P (emit e a) = count P a + (if P e then 1 else 0).
Proof.
  unfold count, emit. cbn [events]. rewrite filter_app, length_app. f_equal.
  rewrite filter_cons, filter_nil. by destruct (P e).
Qed.

(** [Shutdown] on an applier that is not shut down: the channel is closed
    once, the applier is shut down, nothing exits *)
Lemma Shutdown_first a :
  consistent a -> shutdown a = false ->
  ∃ a', Shutdown a = Returns a' ∧ shutdown a' = true ∧ consistent a' ∧
        count is_exit a' = count is_exit a ∧
        count is_close a' = S (count is_close a).
Proof.
  unfold consistent. destruct a as [subj nc sd ch ev lg]. cbn [shutdown shutdownCh].
  intros -> ->. unfold Shutdown, close_shutdownCh.
  destruct nc; cbn [log emit set_shutdown shutdown shutdownCh natsConn];
    (eexists; split; [reflexivity|]); (split; [done|]); (split; [done|]);
    unfold count; cbn [log emit events];
    repeat (rewrite filter_app || rewrite length_app); cbn;
    repeat case_decide; try done; cbn;
    repeat (rewrite filter_app || rewrite length_app); cbn;
    repeat case_decide; try done; cbn; split; lia.
Qed.

(** [report] writes the log and publishes; it leaves the rest *)
Lemma report_returns state err a a' :
  report state err a = Returns a' ->
  shutdown a' = shutdown a ∧ shutdownCh a' = shutdownCh a ∧
  count is_exit a' = count is_exit a ∧ count is_close a' = count is_close a.
Proof.
  unfold report. destruct (decide (state = TaskStateComplete)).
  { by intros [= <-]. }
  destruct (decide (state = TaskStateRestart ∨ state = TaskStateDead));
    [|by intros [= <-]].
  destruct err as [e|]; [|done].
  destruct (Marshal (Error e)) as [bs [err1|]];
    cbn [log natsConn]; destruct (natsConn a);
    try (destruct (publish_error _ _)); intros [= <-];
    rewrite ?count_log, ?count_emit; cbn; unfold count; repeat split; lia.
Qed.

(** once shut down, a call only writes the log *)
Lemma step_after_shutdown c a :
  shutdown a = true ->
  ∃ a', step c a = Returns a' ∧ events a' = events a ∧ shutdown a' = true ∧
        shutdownCh a' = shutdownCh a ∧ natsConn a' = natsConn a.
Proof.
  intros Hs. destruct c as [state err|]; cbn [step]; unfold onError, Shutdown;
    cbn [log shutdown]; rewrite Hs; by eexists.
Qed.

Lemma run_after_shutdown calls : ∀ a,
  shutdown a = true ->
  ∃ a', run calls a = Returns a' ∧ events a' = events a ∧ shutdown a' = true ∧
        shutdownCh a' = shutdownCh a.
Proof.
  induction calls as [|c rest IH]; intros a Hs; [by exists a|].
  cbn [run]. destruct (step_after_shutdown c a Hs) as (a1 & -> & He & Hs1 & Hch & _).
  destruct (IH a1 Hs1) as (a' & -> & He' & Hs' & Hch'). exists a'.
  by rewrite He', He, Hch', Hch.
Qed.

(** a call on an applier that is not shut down: unless [onError] panics on
    its nil error, the applier is shut down, the channel is closed once, and
    [onError] alone sends an [ExitResult] *)
Lemma step_first c a :
  consistent a -> shutdown a = false ->
  match step c a with
  | Panics p => p = NilError
  | Returns a' =>
      shutdown a' = true ∧ consistent a' ∧
      count is_exit a'
        = count is_exit a + (if c is CallOnError _ _ then 1 else 0) ∧
      count is_close a' = S (count is_close a)
  end.
Proof.
  intros Hc Hs. destruct c as [state err|]; cbn [step].
  - unfold onError. cbn [log shutdown]. rewrite Hs.
    destruct (report state err (log LError "onError" a)) as [p|a1] eqn:Hrep.
    { unfold report in Hrep. repeat case_decide; try done.
      destruct err as [e|]; [|by injection Hrep as <-].
      destruct (Marshal (Error e)) as [bs [err1|]]; cbn [log natsConn] in Hrep;
        destruct (natsConn a); try (destruct (publish_error _ _)); done. }
    apply report_returns in Hrep as (H1 & H2 & H3 & H4).
    rewrite count_log in H3, H4. cbn [log shutdown shutdownCh] in H1, H2.
    match goal with |- context [Shutdown ?a0] =>
      destruct (Shutdown_first a0) as (a' & -> & Hs' & Hc' & He' & Hcl') end.
    { unfold consistent. cbn [emit log shutdown shutdownCh]. by rewrite H1, H2. }
    { cbn [emit log shutdown]. by rewrite H1. }
    rewrite count_emit, count_log in He', Hcl'. cbn [is_exit is_close] in He', Hcl'.
    repeat split; [done|done|lia|lia].
  - destruct (Shutdown_first a Hc Hs) as (a' & -> & Hs' & Hc' & He' & Hcl').
    repeat split; [done|done|lia|lia].
Qed.

(** X18.  Calls of [onError] and [Shutdown] made one after the other on an
    applier that is not shut down end it once: whatever the calls, the only
    panic is [onError] reading its nil error, [shutdownCh] is closed exactly
    once, by the first call, and at most one [ExitResult] is sent on
    [waitCh] -- none at all when the first call is [Shutdown], whatever
    [onError] is told later. *)
Theorem calls_end_once (calls : list call) (a : applier) :
  consistent a -> shutdown a = false ->
  match run calls a with
  | Panics p => p = NilError
  | Returns a' =>
      consistent a' ∧
      count is_exit a' ≤ S (count is_exit a) ∧
      (calls ≠ [] -> shutdown a' = true ∧
                     count is_close a' = S (count is_close a)) ∧
      (head calls = Some CallShutdown -> count is_exit a' = count is_exit a)
  end.
Proof.
  intros Hc Hs. destruct calls as [|c rest].
  { cbn [run]. repeat split; [done|lia|done|done]. }
  cbn [run]. pose proof (step_first c a Hc Hs) as Hstep.
  destruct (step c a) as [p|a1]; [done|].
  destruct Hstep as (Hs1 & Hc1 & He1 & Hcl1).
  destruct (run_after_shutdown rest a1 Hs1) as (a' & -> & Hev & Hs' & Hch).
  assert (Hcount : ∀ P, count P a' = count P a1).
  { intros P. unfold count. by rewrite Hev. }
  rewrite !Hcount. split.
  { unfold consistent in *. by rewrite Hs', Hch, Hc1. }
  split; [destruct c; lia|]. split; [done|].
  intros [= ->]. lia.
Qed.

(** X19.  Once the applier is shut down, no call panics -- [onError] does
    not read its error -- and no call does anything but write the log:
    nothing is published, no [ExitResult] is sent, nothing is closed
    again. *)
Theorem calls_after_shutdown_only_log (calls : list call) (a : applier) :
  shutdown a = true ->
  ∃ a', run calls a = Returns a' ∧ events a' = events a ∧ shutdown a' = true ∧
        shutdownCh a' = shutdownCh a.
Proof.
  exact (run_after_shutdown calls a).
Qed.

Lemma exits_log l m a : exits (log l m a) = exits a.
Proof. done. Qed.

Lemma exits_emit e a :
  exits (emit e a) = exits a ++ (if is_exit e then [e] else []).
Proof.
  unfold exits, emit. cbn [events]. rewrite filter_app. f_equal.
  rewrite filter_cons, filter_nil. by destruct (is_exit e).
Qed.

Lemma Shutdown_exits a a' : Shutdown a = Returns a' -> exits a' = exits a.
Proof.
  destruct a as [subj nc sd ch ev lg]. unfold Shutdown, close_shutdownCh.
  cbn [log shutdown].
  destruct sd; [by intros [= <-]|].
  destruct nc; cbn [natsConn log emit set_shutdown shutdownCh];
    destruct ch; try done; intros [= <-];
    unfold exits; cbn [events log emit];
    repeat (rewrite filter_app); cbn; repeat case_decide; try done;
    by rewrite ?app_nil_r.
Qed.

Lemma report_exits state err a a' :
  report state err a = Returns a' -> exits a' = exits a.
Proof.
  unfold report. repeat case_decide; try by intros [= <-].
  destruct err as [e|]; [|done].
  destruct (Marshal (Error e)) as [bs [err1|]];
    cbn [log natsConn]; destruct (natsConn a);
    try (destruct (publish_error _ _)); intros [= <-];
    rewrite ?exits_log, ?exits_emit, ?exits_log; cbn; by rewrite ?app_nil_r.
Qed.

(** [onError] with an error, on an applier that is not shut down: the result
    is sent and the applier is shut down *)
Lemma onError_first state e a :
  consistent a -> shutdown a = false ->
  ∃ a', onError state (Some e) a = Returns a' ∧ shutdown a' = true ∧
        consistent a' ∧ exits a' = exits a ++ [ExitResult state (Some e)].
Proof.
  intros Hc Hs. unfold onError. cbn [log shutdown]. rewrite Hs.
  destruct (report state (Some e) (log LError "onError" a)) as [p|a1] eqn:Hrep.
  { unfold report in Hrep. repeat case_decide; try done.
    destruct (Marshal (Error e)) as [bs [err1|]]; cbn [log natsConn] in Hrep;
      destruct (natsConn a); try (destruct (publish_error _ _)); done. }
  pose proof (report_exits _ _ _ _ Hrep) as Hex. rewrite exits_log in Hex.
  apply report_returns in Hrep as (H1 & H2 & _ & _).
  cbn [log shutdown shutdownCh] in H1, H2.
  match goal with |- context [Shutdown ?a0] =>
    destruct (Shutdown_first a0) as (a' & Hsd & Hs' & Hc' & _ & _) end.
  { unfold consistent. cbn [emit log shutdown shutdownCh]. by rewrite H1, H2. }
  { cbn [emit log shutdown]. by rewrite H1. }
  exists a'. rewrite Hsd. repeat split; try done.
  apply Shutdown_exits in Hsd. by rewrite Hsd, exits_emit, exits_log, Hex.
Qed.

(** the same for a call that may find no error *)
Lemma on_failure_run err wrap a :
  consistent a ->
  ∃ a', on_failure err wrap a = Returns a' ∧ consistent a' ∧
        shutdown a' = shutdown a || bool_decide (err ≠ None) ∧
        exits a' = exits a ++
          match err with
          | Some e => if shutdown a then [] else [ExitResult TaskStateDead (Some (wrap e))]
          | None => []
          end.
Proof.
  intros Hc. destruct err as [e|]; cbn [on_failure].
  - destruct (shutdown a) eqn:Hs.
    + exists (log LError "onError" a). unfold onError. cbn [log shutdown]. rewrite Hs.
      repeat split; try done. by rewrite exits_log, app_nil_r.
    + destruct (onError_first TaskStateDead (wrap e) a Hc Hs) as (a' & -> & Hs' & Hc' & He).
      exists a'. repeat split; try done.
  - exists a. rewrite orb_false_r, app_nil_r. done.
Qed.

(** X20.  [watchTargetGtid] does not stop at an error.  Whether watching the
    target or parsing it fails, the function goes on: it stores what
    [ParseMysqlGTIDSet] returned as the target and signals [gtidCh].  The
    applier is shut down exactly when one of the two failed, and of the two
    errors only the first is sent on [waitCh]: the second finds the applier
    shut down. *)
Theorem watchTargetGtid_goes_on (watched : string * option error) (a : applier) :
  consistent a -> shutdown a = false ->
  let parsed := ParseMysqlGTIDSet watched.1 in
  ∃ a', watchTargetGtid watched a = Returns a' ∧
    (∃ before, events a' = before ++ [TargetGtidSet parsed.1; GtidChSent]) ∧
    shutdown a' = bool_decide (watched.2 ≠ None ∨ parsed.2 ≠ None) ∧
    exits a' = exits a ++
      match watched.2, parsed.2 with
      | Some e, _ => [ExitResult TaskStateDead (Some e)]
      | None, Some e =>
          [ExitResult TaskStateDead
             (Some (Wrapf e "CommandTypeJobFinish. ParseMysqlGTIDSet"))]
      | None, None => []
      end.
Proof.
  intros Hc Hs. cbv zeta. destruct watched as [target err]. cbn [fst snd watchTargetGtid].
  destruct (on_failure_run err id a Hc) as (a1 & -> & Hc1 & Hs1 & He1).
  destruct (ParseMysqlGTIDSet target) as [gs err2]. cbn [fst snd].
  destruct (on_failure_run err2 (λ e, Wrapf e "CommandTypeJobFinish. ParseMysqlGTIDSet")
              (log LInfo "got target GTIDSet" a1)) as (a2 & -> & Hc2 & Hs2 & He2).
  { exact Hc1. }
  eexists. split; [reflexivity|]. split.
  { exists (events a2). cbn [emit events]. by rewrite <- app_assoc. }
  cbn [log shutdown] in Hs2, He2. rewrite exits_log in He2. split.
  - cbn [emit shutdown]. rewrite Hs2, Hs1, Hs.
    destruct err, err2; cbn; repeat case_bool_decide; try done; naive_solver.
  - rewrite !exits_emit, He2, He1, Hs1, Hs. cbn [is_exit]. rewrite !app_nil_r.
    destruct err as [e|]; cbn [id orb].
    + rewrite bool_decide_true by done. by destruct err2; rewrite ?app_nil_r.
    + rewrite bool_decide_false by (by intros []). by rewrite app_nil_r.
Qed.

(** X21.  [checkJobFinish] shuts the applier down exactly when the status
    could not be read or says the target is reached.  A result is sent on
    [waitCh] only in the first case: a job that finishes shuts down without
    one.  When both happen, the channel is still closed once. *)
Theorem checkJobFinish_ends (status : string * option error) (a : applier) :
  consistent a -> shutdown a = false ->
  ∃ a', checkJobFinish status a = Returns a' ∧ consistent a' ∧
    shutdown a' = bool_decide (status.2 ≠ None ∨ status.1 = TargetGtidFinished) ∧
    exits a' = exits a ++
      match status.2 with
      | Some e => [ExitResult TaskStateDead (Some e)]
      | None => []
      end ∧
    count is_close a' = count is_close a + (if shutdown a' then 1 else 0).
Proof.
  intros Hc Hs. destruct status as [jobStatus err]. cbn [fst snd checkJobFinish].
  destruct err as [e|]; cbn [on_failure].
  - destruct (onError_first TaskStateDead e a Hc Hs) as (a1 & Hon & Hs1 & Hc1 & He1).
    pose proof (step_first (CallOnError TaskStateDead (Some e)) a Hc Hs) as Hstep.
    cbn [step] in Hstep. cbn [id]. rewrite Hon in *. destruct Hstep as (_ & _ & _ & Hcl).
    assert (Hsd : ∀ m, Shutdown (log LInfo m a1)
                       = Returns (log LInfo "Shutting down" (log LInfo m a1))).
    { intros m. unfold Shutdown. cbn [log shutdown]. by rewrite Hs1. }
    destruct (decide (jobStatus = TargetGtidFinished)).
    + rewrite Hsd. eexists. split; [reflexivity|]. cbn [log shutdown].
      rewrite !exits_log, !count_log, Hs1, bool_decide_true by (by left).
      repeat split; try done. lia.
    + exists a1. rewrite Hs1, bool_decide_true by (by left).
      repeat split; try done. lia.
  - destruct (decide (jobStatus = TargetGtidFinished)) as [Heq|Hne].
    + destruct (Shutdown_first (log LInfo "job finish. shutting down" a))
        as (a' & Hsd & Hs' & Hc' & _ & Hcl); [done|done|].
      exists a'. rewrite Hs', bool_decide_true by (by right).
      apply Shutdown_exits in Hsd as He. rewrite He, exits_log, app_nil_r.
      rewrite count_log in Hcl. repeat split; try done. lia.
    + exists a. rewrite Hs, bool_decide_false, app_nil_r by (by intros [|]).
      repeat split; try done.
Qed.

End calls.

(** an applier as [NewApplierOracle] makes it, connected to NATS; a task
    that is paused and then told of an error *)
Definition created : applier :=
  {| subject := "job1"; natsConn := true; shutdown := false; shutdownCh := false;
     events := []; logged := [] |}.

Definition marshals (msg : string) : string * option error := (msg, None).

Definition publishes (subj : string) (bs : option string) : option error := None.

Definition paused_then_failed : list call :=
  [CallShutdown; CallOnError 2 (Some (Errorf "connection lost"))].

(** the theorem at the paused task: the later error sends no [ExitResult] *)
Lemma calls_end_once_witness :
  match run 0 1 2 marshals publishes paused_then_failed created with
  | Panics p => p = NilError
  | Returns a' =>
      consistent a' ∧
      count is_exit a' ≤ S (count is_exit created) ∧
      (paused_then_failed ≠ [] ->
         shutdown a' = true ∧ count is_close a' = S (count is_close created)) ∧
      (head paused_then_failed = Some CallShutdown ->
         count is_exit a' = count is_exit created)
  end.
Proof.
  apply (calls_end_once 0 1 2 marshals publishes paused_then_failed created);
    reflexivity.
Defined.

(** the theorem at the applier the pause has shut down: [onError] with a nil
    error returns *)
Lemma calls_after_shutdown_only_log_witness :
  ∃ a', Shutdown created = Returns a' ∧
  ∃ a'', run 0 1 2 marshals publishes [CallOnError 2 None; CallShutdown] a'
           = Returns a'' ∧
         events a'' = events a' ∧ shutdown a'' = true ∧
         shutdownCh a'' = shutdownCh a'.
Proof.
  eexists. split; [reflexivity|].
  apply (calls_after_shutdown_only_log 0 1 2 marshals publishes). reflexivity.
Defined.

(** the first error of a running task: the message is published on
    [job1_control2], the [ExitResult] is sent, then the applier shuts down *)
Example onError_on_created :
  ∃ a', onError 0 1 2 marshals publishes 2 (Some (Errorf "connection lost")) created
          = Returns a' ∧
    events a' = [Published "job1_control2" (Some "connection lost");
                 ExitResult 2 (Some (Errorf "connection lost"));
                 NatsClosed; ShutdownChClosed; Cancelled; DBClosed; ConnsClosed].
Proof. eexists. split; reflexivity. Qed.

(** a parser that rejects the empty target *)
Definition parse (target : string) : option string * option error :=
  if decide (target = "") then (None, Some (Errorf "invalid GTID set"))
  else (Some target, None).

(** the theorem when the watch fails and leaves an empty target that does not
    parse: the first error alone is sent, the nil target is stored and
    [gtidCh] is signalled *)
Lemma watchTargetGtid_goes_on_witness :
  ∃ a', watchTargetGtid 0 1 2 marshals publishes parse
          ("", Some (Errorf "watch failed")) created = Returns a' ∧
    (∃ before, events a' = before ++ [TargetGtidSet None; GtidChSent]) ∧
    shutdown a' = true ∧
    exits a' = [ExitResult 2 (Some (Errorf "watch failed"))].
Proof.
  apply (watchTargetGtid_goes_on 0 1 2 marshals publishes parse
           ("", Some (Errorf "watch failed")) created); reflexivity.
Defined.

(** the theorem at a job that has reached its target: the applier shuts
    down and sends no result *)
Lemma checkJobFinish_ends_witness :
  ∃ a', checkJobFinish 0 1 2 marshals publishes "finished" ("finished", None) created
          = Returns a' ∧ consistent a' ∧
    shutdown a' = true ∧
    exits a' = [] ∧
    count is_close a' = count is_close created + (if shutdown a' then 1 else 0).
Proof.
  apply (checkJobFinish_ends 0 1 2 marshals publishes "finished"
           ("finished", None) created); reflexivity.
Defined.

End Lifecycle.

(** ** More on the catalog: [TableChecker.add] against [checkColumnByName] *)

Module Catalog.
Import Merge Checker.

(** [t.schemaTables[schemaName][tableName]], with [ok] *)
Definition table_at (t : TableChecker) (schemaName tableName : string)
  : option CreateTableStmt :=
  schemaTables t !! schemaName ≫= (λ tables, tables !! tableName).

(** the catalog with the table [s1.t (c)] and the tables [s2.t (c)],
    [s2.u (d)] *)
Definition three_tables : TableChecker :=
  add two_schemas "s2" "u" (table_of ["d"]).

(** *** Facts *)

Lemma table_at_add t schemaName tableName table s n :
  table_at (add t schemaName tableName table) s n =
  if decide (s = schemaName ∧ n = tableName) then Some table else table_at t s n.
Proof.
  unfold table_at, add.
  destruct (schemaTables t !! schemaName) as [tables|] eqn:Hs; cbn [schemaTables].
  - destruct (decide (s = schemaName)) as [->|Hne].
    + rewrite lookup_insert_eq, Hs. cbn.
      destruct (decide (n = tableName)) as [->|Hn].
      * rewrite lookup_insert_eq. by rewrite decide_True.
      * rewrite lookup_insert_ne by done. rewrite decide_False; [done|]. by intros [_ ?].
    + rewrite lookup_insert_ne by done. rewrite decide_False; [done|]. by intros [? _].
  - destruct (decide (s = schemaName)) as [->|Hne].
    + rewrite lookup_insert_eq, Hs. cbn.
      destruct (decide (n = tableName)) as [->|Hn].
      * rewrite lookup_singleton_eq. by rewrite decide_True.
      * rewrite lookup_singleton_ne by done. rewrite decide_False; [done|]. by intros [_ ?].
    + rewrite lookup_insert_ne by done. rewrite decide_False; [done|]. by intros [? _].
Qed.

(** a reference that names its schema is answered from [table_at] alone *)
Lemma checkColumnByName_qualified t colNameStmt :
  CIStr_String (cn_Schema colNameStmt) ≠ "" ->
  checkColumnByName t colNameStmt =
  match table_at t (CIStr_String (cn_Schema colNameStmt))
                   (CIStr_String (cn_Table colNameStmt)) with
  | Some table => (tableExistCol table (CIStr_String (cn_Name colNameStmt)), false)
  | None => (false, false)
  end.
Proof.
  intros Hs. unfold checkColumnByName, table_at.
  destruct (_ ≫= _); [done|]. by rewrite decide_True.
Qed.

(** X22.  What [add] stores, [checkColumnByName] finds: a reference by
    schema, table and column is answered from the table added last under
    these names, and is never ambiguous -- whatever the catalog held, also
    when the schema or the table name is empty.  A second [add] under the
    same names replaces the table of the first. *)
Theorem add_then_checkColumnByName (t : TableChecker)
    (schemaName tableName colName : string) (table table' : CreateTableStmt) :
  checkColumnByName (add t schemaName tableName table)
                    (column_ref schemaName tableName colName)
    = (tableExistCol table colName, false) ∧
  add (add t schemaName tableName table') schemaName tableName table
    = add t schemaName tableName table.
Proof.
  split.
  - unfold checkColumnByName. cbn [column_ref cn_Schema cn_Table cn_Name ci CIStr_String cis_O].
    pose proof (table_at_add t schemaName tableName table schemaName tableName) as H.
    unfold table_at in H. rewrite H. by rewrite decide_True.
  - unfold add.
    destruct (schemaTables t !! schemaName) as [tables|] eqn:Hs; cbn [schemaTables];
      rewrite lookup_insert_eq, insert_insert_eq.
    + by rewrite insert_insert_eq.
    + by rewrite insert_singleton_eq.
Qed.

(** X23.  [add] touches one table: a reference that names its schema, to
    any other table of the catalog, is answered after the [add] as it was
    before. *)
Theorem add_keeps_other_tables (t : TableChecker) (schemaName tableName : string)
    (table : CreateTableStmt) (colNameStmt : ColumnName) :
  CIStr_String (cn_Schema colNameStmt) ≠ "" ->
  ¬ (CIStr_String (cn_Schema colNameStmt) = schemaName ∧
     CIStr_String (cn_Table colNameStmt) = tableName) ->
  checkColumnByName (add t schemaName tableName table) colNameStmt
    = checkColumnByName t colNameStmt.
Proof.
  intros Hs Hne. rewrite !checkColumnByName_qualified by done.
  by rewrite table_at_add, decide_False.
Qed.

(** the theorem at [s2.u] added to the catalog with [s1.t] and [s2.t]: the
    column [s2.t.c] is found as before *)
Lemma add_keeps_other_tables_witness :
  checkColumnByName three_tables (column_ref "s2" "t" "c")
    = checkColumnByName two_schemas (column_ref "s2" "t" "c") ∧
  checkColumnByName two_schemas (column_ref "s2" "t" "c") = (true, false).
Proof.
  split.
  - apply (add_keeps_other_tables two_schemas "s2" "u" (table_of ["d"])
             (column_ref "s2" "t" "c")).
    + discriminate.
    + intros [_ H]. discriminate H.
  - by vm_compute.
Defined.

End Catalog.

(** ** The walk over a WHERE clause: [scanWhereStmt] and the three
    [whereStmtHas...] (package inspector) *)

Module Where.
Import GoStrings Merge.

(** [ast.ExprNode], as far as the walk tells the nodes apart.  A node is the
    nil interface or a pointer to a node of the parser; the walk reads the
    fields named here.  [OtherExpr] is a node of any kind the [switch] of
    [scanWhereStmt] has no case for (a function call, an expression in
    parentheses, a value, ...), with the expressions below it. *)
#[warnings="-register-all"]
Inductive ExprNode : Type :=
| NilExpr
| ColumnNameExpr (Name : ColumnName)
| SubqueryExpr
| BinaryOperationExpr (L R : ExprNode)
| UnaryOperationExpr (V : ExprNode)
| IsTruthExpr (Expr : ExprNode)
| IsNullExpr (Expr : ExprNode)
| CompareSubqueryExpr (L R : ExprNode)
| ExistsSubqueryExpr (Sel : ExprNode)
| PatternInExpr (Expr Sel : ExprNode) (List : list ExprNode)
| BetweenExpr (Expr Left Right : ExprNode)
| PatternLikeExpr (Expr Pattern : ExprNode)
| PatternRegexpExpr (Expr Pattern : ExprNode)
| RowExpr (Values : list ExprNode)
| OtherExpr (below : list ExprNode).

Section scan.

(** the variables the closure [fn] has captured *)
Context {S : Type}.
Variable fn : ExprNode -> S -> bool * S.

(** the body of [for _, expr := range exprs] *)
Fixpoint scan_expr (expr : ExprNode) (s : S) {struct expr} : S :=
  let scanWhereStmt := foldl (λ s x, scan_expr x s) in
  match expr with
  | NilExpr => s
  | _ =>
      let (skip, s) := fn expr s in
      if skip then s else
      match expr with
      | BinaryOperationExpr L R => scanWhereStmt s [L; R]
      | UnaryOperationExpr V => scanWhereStmt s [V]
      | IsTruthExpr Expr => scanWhereStmt s [Expr]
      | IsNullExpr Expr => scanWhereStmt s [Expr]
      | CompareSubqueryExpr L R => scanWhereStmt s [L; R]
      | ExistsSubqueryExpr Sel => scanWhereStmt s [Sel]
      | PatternInExpr Expr Sel List => scanWhereStmt s (Expr :: Sel :: List)
      | BetweenExpr Expr Left Right => scanWhereStmt s [Expr; Left; Right]
      | PatternLikeExpr Expr Pattern => scanWhereStmt s [Expr; Pattern]
      | PatternRegexpExpr Expr Pattern => scanWhereStmt s [Expr; Pattern]
      | RowExpr Values => scanWhereStmt s Values
      | _ => s
      end
  end.

(** [scanWhereStmt(fn, exprs...)] *)
Definition scanWhereStmt (exprs : list ExprNode) (s : S) : S :=
  foldl (λ s x, scan_expr x s) s exprs.

End scan.

(** [whereStmtHasSubQuery(where)] *)
Definition whereStmtHasSubQuery (cond : ExprNode) : bool :=
  scanWhereStmt
    (λ expr hasSubQuery,
       match expr with
       | SubqueryExpr => (true, true)
       | _ => (false, hasSubQuery)
       end)
    [cond] false.

Section names.

(** [ColumnName.String()] and [strings.ToLower] *)
Variable ColumnName_String : ColumnName -> string.
Variable ToLower : string -> string.

(** [whereStmtHasOneColumn(where)] *)
Definition whereStmtHasOneColumn (cond : ExprNode) : bool :=
  scanWhereStmt
    (λ expr hasColumn,
       match expr with
       | ColumnNameExpr _ => (true, true)
       | BinaryOperationExpr L R =>
           match R with
           | ColumnNameExpr col1 =>
               match L with
               | ColumnNameExpr col2 =>
                   if decide (ColumnName_String col1 = ColumnName_String col2)
                   then (true, hasColumn)
                   else (false, hasColumn)
               | _ => (false, hasColumn)
               end
           | _ => (false, hasColumn)
           end
       | _ => (false, hasColumn)
       end)
    [cond] false.

(** [whereStmtHasSpecificColumn(where, columnName)] *)
Definition whereStmtHasSpecificColumn (cond : ExprNode) (columnName : string) : bool :=
  scanWhereStmt
    (λ expr hasSpecificColumn,
       match expr with
       | ColumnNameExpr cn =>
           if decide (cis_L (cn_Name cn) = ToLower columnName)
           then (true, true)
           else (false, hasSpecificColumn)
       | _ => (false, hasSpecificColumn)
       end)
    [cond] false.

End names.

(** *** The nodes the walk goes on to *)

(** the expressions [scanWhereStmt] is called with below a node *)
Definition passed_on (expr : ExprNode) : list ExprNode :=
  match expr with
  | BinaryOperationExpr L R => [L; R]
  | UnaryOperationExpr V => [V]
  | IsTruthExpr Expr => [Expr]
  | IsNullExpr Expr => [Expr]
  | CompareSubqueryExpr L R => [L; R]
  | ExistsSubqueryExpr Sel => [Sel]
  | PatternInExpr Expr Sel List => Expr :: Sel :: List
  | BetweenExpr Expr Left Right => [Expr; Left; Right]
  | PatternLikeExpr Expr Pattern => [Expr; Pattern]
  | PatternRegexpExpr Expr Pattern => [Expr; Pattern]
  | RowExpr Values => Values
  | _ => []
  end.

Definition is_nil (expr : ExprNode) : bool :=
  match expr with NilExpr => true | _ => false end.

(** a closure that sets a flag at the nodes [sets] and skips at the nodes
    [skips] *)
Definition flags (skips sets : ExprNode -> bool)
    (fn : ExprNode -> bool -> bool * bool) : Prop :=
  ∀ expr b, fn expr b = (skips expr, b || sets expr).

(** the clauses [a = a] and [a = b] *)
Definition a_equals_a : ExprNode :=
  BinaryOperationExpr (ColumnNameExpr (column_name "a")) (ColumnNameExpr (column_name "a")).


Definition lower_ascii (c : ascii) : ascii :=
  let n := nat_of_ascii c in
  if (65 <=? n)%nat && (n <=? 90)%nat then ascii_of_nat (n + 32) else c.

(** [strings.ToLower] on ASCII *)
Fixpoint ToLower_ascii (s : string) : string :=
  match s with
  | EmptyString => EmptyString
  | String c s' => String (lower_ascii c) (ToLower_ascii s')
  end.

(** *** Facts *)

Section ExprNode_induction.
Variable P : ExprNode -> Prop.
Hypothesis Hleaf : ∀ expr, passed_on expr = [] -> P expr.
Hypothesis Hnode : ∀ expr, Forall P (passed_on expr) -> P expr.

Fixpoint ExprNode_passed_on_ind (expr : ExprNode) : P expr :=
  let all := fix all (l : list ExprNode) : Forall P l :=
    match l with
    | [] => @List.Forall_nil _ P
    | x :: l' => @List.Forall_cons _ P x l' (ExprNode_passed_on_ind x) (all l')
    end in
  match expr with
  | NilExpr => Hleaf NilExpr eq_refl
  | ColumnNameExpr n => Hleaf (ColumnNameExpr n) eq_refl
  | SubqueryExpr => Hleaf SubqueryExpr eq_refl
  | OtherExpr below => Hleaf (OtherExpr below) eq_refl
  | BinaryOperationExpr L R =>
      Hnode (BinaryOperationExpr L R)
        (@List.Forall_cons _ P _ _ (ExprNode_passed_on_ind L)
           (@List.Forall_cons _ P _ _ (ExprNode_passed_on_ind R) (@List.Forall_nil _ P)))
  | UnaryOperationExpr V =>
      Hnode (UnaryOperationExpr V)
        (@List.Forall_cons _ P _ _ (ExprNode_passed_on_ind V) (@List.Forall_nil _ P))
  | IsTruthExpr V =>
      Hnode (IsTruthExpr V)
        (@List.Forall_cons _ P _ _ (ExprNode_passed_on_ind V) (@List.Forall_nil _ P))
  | IsNullExpr V =>
      Hnode (IsNullExpr V)
        (@List.Forall_cons _ P _ _ (ExprNode_passed_on_ind V) (@List.Forall_nil _ P))
  | CompareSubqueryExpr L R =>
      Hnode (CompareSubqueryExpr L R)
        (@List.Forall_cons _ P _ _ (ExprNode_passed_on_ind L)
           (@List.Forall_cons _ P _ _ (ExprNode_passed_on_ind R) (@List.Forall_nil _ P)))
  | ExistsSubqueryExpr V =>
      Hnode (ExistsSubqueryExpr V)
        (@List.Forall_cons _ P _ _ (ExprNode_passed_on_ind V) (@List.Forall_nil _ P))
  | PatternInExpr E Sel l =>
      Hnode (PatternInExpr E Sel l)
        (@List.Forall_cons _ P _ _ (ExprNode_passed_on_ind E)
           (@List.Forall_cons _ P _ _ (ExprNode_passed_on_ind Sel) (all l)))
  | BetweenExpr E L R =>
      Hnode (BetweenExpr E L R)
        (@List.Forall_cons _ P _ _ (ExprNode_passed_on_ind E)
           (@List.Forall_cons _ P _ _ (ExprNode_passed_on_ind L)
              (@List.Forall_cons _ P _ _ (ExprNode_passed_on_ind R) (@List.Forall_nil _ P))))
  | PatternLikeExpr E p =>
      Hnode (PatternLikeExpr E p)
        (@List.Forall_cons _ P _ _ (ExprNode_passed_on_ind E)
           (@List.Forall_cons _ P _ _ (ExprNode_passed_on_ind p) (@List.Forall_nil _ P)))
  | PatternRegexpExpr E p =>
      Hnode (PatternRegexpExpr E p)
        (@List.Forall_cons _ P _ _ (ExprNode_passed_on_ind E)
           (@List.Forall_cons _ P _ _ (ExprNode_passed_on_ind p) (@List.Forall_nil _ P)))
  | RowExpr l => Hnode (RowExpr l) (all l)
  end.

End ExprNode_induction.

(** the body of the loop, with the [switch] read as [passed_on] *)
Lemma scan_expr_eq {S} (fn : ExprNode -> S -> bool * S) expr s :
  scan_expr fn expr s =
  if is_nil expr then s else
  let (skip, s') := fn expr s in
  if skip then s' else scanWhereStmt fn (passed_on expr) s'.
Proof.
  destruct expr; cbn [scan_expr is_nil passed_on]; try reflexivity;
    by destruct (fn _ s) as [[] ?].
Qed.

(** a flag that is set stays set *)
Lemma scan_flag skips sets fn :
  flags skips sets fn ->
  ∀ expr b, scan_expr fn expr b = b || scan_expr fn expr false.
Proof.
  intros Hfn. induction expr as [expr Hleaf|expr IH] using ExprNode_passed_on_ind;
    intros b; rewrite !scan_expr_eq, !Hfn.
  - rewrite Hleaf. cbn. destruct (is_nil expr), (skips expr), b; done.
  - destruct (is_nil expr); [by rewrite orb_false_r|].
    destruct (skips expr); [done|].
    cbn [orb]. generalize (sets expr).
    unfold scanWhereStmt. induction IH as [|x l Hx _ IHl]; intros c.
    { done. }
    cbn [foldl]. rewrite (Hx (b || c)), (Hx c), <- orb_assoc. apply IHl.
Qed.

Lemma scanWhereStmt_flag skips sets fn :
  flags skips sets fn ->
  ∀ exprs b,
    scanWhereStmt fn exprs b = b || existsb (λ x, scan_expr fn x false) exprs.
Proof.
  intros Hfn. unfold scanWhereStmt. induction exprs as [|x l IH]; intros b.
  { by rewrite orb_false_r. }
  cbn [foldl existsb]. rewrite IH, (scan_flag _ _ _ Hfn x b). by rewrite orb_assoc.
Qed.

(** what a walk from a clear flag finds *)
Lemma found_eq skips sets fn :
  flags skips sets fn ->
  ∀ expr,
    scan_expr fn expr false =
    negb (is_nil expr) &&
    (sets expr ||
     negb (skips expr) && existsb (λ x, scan_expr fn x false) (passed_on expr)).
Proof.
  intros Hfn expr. rewrite scan_expr_eq, Hfn.
  destruct (is_nil expr); [done|]. cbn [negb andb orb].
  destruct (skips expr).
  - by rewrite orb_false_r.
  - by rewrite (scanWhereStmt_flag _ _ _ Hfn).
Qed.

Definition is_subquery (expr : ExprNode) : bool :=
  match expr with SubqueryExpr => true | _ => false end.

Lemma whereStmtHasSubQuery_eq cond :
  whereStmtHasSubQuery cond =
  negb (is_nil cond) &&
  (is_subquery cond ||
   negb (is_subquery cond) && existsb whereStmtHasSubQuery (passed_on cond)).
Proof.
  unfold whereStmtHasSubQuery at 1. unfold scanWhereStmt. cbn [foldl].
  erewrite (found_eq is_subquery is_subquery); [|by intros [] []].
  reflexivity.
Qed.

(** X24.  [whereStmtHasSubQuery] node by node: a subquery is found at the
    node itself and below the operators, predicates and rows the walk knows,
    on either side and in every list element; it is not found below a node
    of any other kind, such as a function call or parentheses, whatever that
    node holds. *)
Theorem whereStmtHasSubQuery_by_node :
  let has := whereStmtHasSubQuery in
  has NilExpr = false ∧
  has SubqueryExpr = true ∧
  (∀ Name, has (ColumnNameExpr Name) = false) ∧
  (∀ L R, has (BinaryOperationExpr L R) = has L || has R) ∧
  (∀ V, has (UnaryOperationExpr V) = has V) ∧
  (∀ Expr, has (IsTruthExpr Expr) = has Expr) ∧
  (∀ Expr, has (IsNullExpr Expr) = has Expr) ∧
  (∀ L R, has (CompareSubqueryExpr L R) = has L || has R) ∧
  (∀ Sel, has (ExistsSubqueryExpr Sel) = has Sel) ∧
  (∀ Expr Sel List,
     has (PatternInExpr Expr Sel List) = has Expr || has Sel || existsb has List) ∧
  (∀ Expr Left Right,
     has (BetweenExpr Expr Left Right) = has Expr || has Left || has Right) ∧
  (∀ Expr Pattern, has (PatternLikeExpr Expr Pattern) = has Expr || has Pattern) ∧
  (∀ Expr Pattern, has (PatternRegexpExpr Expr Pattern) = has Expr || has Pattern) ∧
  (∀ Values, has (RowExpr Values) = existsb has Values) ∧
  (∀ below, has (OtherExpr below) = false).
Proof.
  cbv zeta. repeat split; intros;
    rewrite whereStmtHasSubQuery_eq; cbn [is_nil is_subquery negb andb orb passed_on existsb];
    rewrite ?orb_false_r, ?orb_assoc; reflexivity.
Qed.


Section names_facts.
Variable ColumnName_String : ColumnName -> string.
Variable ToLower : string -> string.


Definition names (columnName : string) (expr : ExprNode) : bool :=
  match expr with
  | ColumnNameExpr cn => bool_decide (cis_L (cn_Name cn) = ToLower columnName)
  | _ => false
  end.




End names_facts.


(** the other direction fails: in [a = a] the second walk finds the column
    [A], the first finds none *)
Example a_equals_a_has_no_column :
  whereStmtHasSpecificColumn ToLower_ascii a_equals_a "A" = true ∧
  whereStmtHasOneColumn (λ n, cis_O (cn_Name n)) a_equals_a = false.
Proof. split; reflexivity. Qed.

(** a subquery below a node of another kind, such as parentheses, is not
    seen *)
Example subquery_in_parentheses :
  whereStmtHasSubQuery
    (BinaryOperationExpr (ColumnNameExpr (column_name "a")) (OtherExpr [SubqueryExpr]))
  = false.
Proof. reflexivity. Qed.

End Where.

(** ** The schema listing of the API: [ListDatabaseSchemasV2] (package v2) *)

Module Schemas.
Import GoStrings.

(** [mysqlconfig.ConnectionConfig], the fields the handler fills *)
Record ConnectionConfig : Type :=
  { Host : string; Port : Z; User : string; Password : string; Charset : string }.

(** a row of [sql.ShowTables] *)
Record TableRow : Type := { TableName : string; TableType : string }.

(** [models.TableItem], [models.SchemaItem] *)
Record TableItem : Type := { ti_TableName : string }.
Record SchemaItem : Type := { SchemaName : string; Tables : list TableItem }.

(** what the handler passes to [c.JSON]: a [BaseResp] built from an error,
    or a [ListDatabaseSchemasRespV2] *)
Inductive body : Type :=
| BuildBaseResp (err : option error)
| ListDatabaseSchemasRespV2 (Schemas : list SchemaItem) (BaseResp : option error).

(** the request and the server behind it *)
Record World : Type :=
  { Bind : option error;                              (* c.Bind(reqParam) *)
    WeakDecode : ConnectionConfig * option error;     (* the config decoded, and the error *)
    GetDBUri : ConnectionConfig -> string;
    CreateDB : string -> option error;
    ShowDatabases : list string * option error;
    ShowTables : string -> list TableRow * option error }.

(** what a call has done: the response written, the uri [CreateDB] was
    called with, and whether the deferred [db.Close()] has run *)
Record answer : Type :=
  { status : Z; written : body; uri : option string; closed : bool }.

Definition StatusOK : Z := 200.
Definition StatusInternalServerError : Z := 500.

Section handler.

(** [strings.ToLower] *)
Variable ToLower : string -> string.
Variable w : World.

(** [fmt.Errorf(text + "%v", err)] *)
Definition failed (text : string) (err : error) : body :=
  BuildBaseResp (Some (Errorf (text +:+ Error err))).

(** [for _, t := range tbs] *)
Fixpoint tables_loop (tbs : list TableRow) (tables : list TableItem) : list TableItem :=
  match tbs with
  | [] => tables
  | t :: rest =>
      if decide (ToLower (TableType t) = "view") then tables_loop rest tables
      else tables_loop rest (tables ++ [{| ti_TableName := TableName t |}])
  end.

(** [for _, dbName := range dbs]: the error that ends the handler, or
    [replicateDoDb] *)
Fixpoint schemas_loop (dbs : list string) (replicateDoDb : list SchemaItem)
  : error + list SchemaItem :=
  match dbs with
  | [] => inr replicateDoDb
  | dbName :: rest =>
      match ShowTables w dbName with
      | (_, Some err) => inl err
      | (tbs, None) =>
          let tables := tables_loop tbs [] in
          schemas_loop rest
            (replicateDoDb ++ [{| SchemaName := dbName; Tables := tables |}])
      end
  end.

(** [ListDatabaseSchemasV2(c)] *)
Definition ListDatabaseSchemasV2 : answer :=
  match Bind w with
  | Some err =>
      {| status := StatusInternalServerError;
         written := failed "bind req param failed, error: " err;
         uri := None; closed := false |}
  | None =>
  match WeakDecode w with
  | (_, Some err) =>
      {| status := StatusInternalServerError;
         written := failed "convert connection config failed: " err;
         uri := None; closed := false |}
  | (mysqlConnectionConfig, None) =>
  let mysqlConnectionConfig :=
    if decide ("" = Charset mysqlConnectionConfig)
    then {| Host := Host mysqlConnectionConfig; Port := Port mysqlConnectionConfig;
            User := User mysqlConnectionConfig;
            Password := Password mysqlConnectionConfig; Charset := "utf8" |}
    else mysqlConnectionConfig in
  let uri := GetDBUri w mysqlConnectionConfig in
  match CreateDB w uri with
  | Some err =>
      {| status := StatusInternalServerError;
         written := failed "create db failed: " err;
         uri := Some uri; closed := false |}
  | None =>
  (* defer db.Close() *)
  match ShowDatabases w with
  | (_, Some err) =>
      {| status := StatusInternalServerError;
         written := failed "showdatabases failed: " err;
         uri := Some uri; closed := true |}
  | (dbs, None) =>
  match schemas_loop dbs [] with
  | inl err =>
      {| status := StatusInternalServerError;
         written := failed "showtables failed: " err;
         uri := Some uri; closed := true |}
  | inr replicateDoDb =>
      {| status := StatusOK;
         written := ListDatabaseSchemasRespV2 replicateDoDb None;
         uri := Some uri; closed := true |}
  end end end end end.

(** *** Facts *)

(** the tables of a schema that are not views, as items *)
Definition listed (tbs : list TableRow) : list TableItem :=
  map (λ t, {| ti_TableName := TableName t |})
      (filter (λ t, ToLower (TableType t) ≠ "view") tbs).

Lemma tables_loop_listed tbs : ∀ tables,
  tables_loop tbs tables = tables ++ listed tbs.
Proof.
  unfold listed. induction tbs as [|t rest IH]; intros tables; cbn [tables_loop].
  { by rewrite app_nil_r. }
  rewrite filter_cons. destruct (decide (ToLower (TableType t) = "view")) as [Hv|Hv].
  - rewrite decide_False by (by intros ?). apply IH.
  - rewrite decide_True by done. rewrite IH. cbn [map]. by rewrite <- app_assoc.
Qed.

Lemma schemas_loop_run dbs : ∀ replicateDoDb,
  match schemas_loop dbs replicateDoDb with
  | inl err =>
      ∃ before dbName after, dbs = before ++ dbName :: after ∧
        (ShowTables w dbName).2 = Some err ∧
        Forall (λ db, (ShowTables w db).2 = None) before
  | inr schemas =>
      Forall (λ db, (ShowTables w db).2 = None) dbs ∧
      schemas = replicateDoDb ++
        map (λ db, {| SchemaName := db; Tables := listed (ShowTables w db).1 |}) dbs
  end.
Proof.
  induction dbs as [|dbName rest IH]; intros replicateDoDb; cbn [schemas_loop].
  { by rewrite app_nil_r. }
  destruct (ShowTables w dbName) as [tbs [err|]] eqn:Hshow.
  { exists [], dbName, rest. by rewrite Hshow. }
  specialize (IH (replicateDoDb ++ [{| SchemaName := dbName; Tables := tables_loop tbs [] |}])).
  destruct (schemas_loop rest _) as [err|schemas].
  - destruct IH as (before & db & after & -> & Herr & Hok).
    exists (dbName :: before), db, after. repeat split; [done|].
    constructor; [by rewrite Hshow|done].
  - destruct IH as [Hok ->]. split.
    + constructor; [by rewrite Hshow|done].
    + cbn [map]. rewrite Hshow, tables_loop_listed, <- app_assoc. done.
Qed.

(** X26.  The handler answers 200 only when every step succeeded, with one
    schema for each database [ShowDatabases] names, in that order and also
    when it has no table, each with its tables in order less the views
    (whose type is [view] in any case of the letters).  If the tables of one
    database cannot be listed, nothing is listed: the answer is 500 with an
    error.  The database handle is closed exactly when [CreateDB] had made
    it, on the failing paths too. *)
Theorem ListDatabaseSchemasV2_answers :
  let r := ListDatabaseSchemasV2 in
  (status r = StatusOK ∨
   status r = StatusInternalServerError ∧ ∃ err, written r = BuildBaseResp (Some err)) ∧
  (status r = StatusOK ->
     written r = ListDatabaseSchemasRespV2
       (map (λ db, {| SchemaName := db; Tables := listed (ShowTables w db).1 |})
            (ShowDatabases w).1) None) ∧
  (status r = StatusOK <->
     Bind w = None ∧ (WeakDecode w).2 = None ∧
     (∀ u, uri r = Some u -> CreateDB w u = None) ∧
     (ShowDatabases w).2 = None ∧
     Forall (λ db, (ShowTables w db).2 = None) (ShowDatabases w).1) ∧
  (closed r = true <-> ∃ u, uri r = Some u ∧ CreateDB w u = None).
Proof.
  cbv zeta. unfold ListDatabaseSchemasV2.
  destruct (Bind w) as [err|].
  { cbn. split; [right; eauto|]. split; [done|]. split; split; try done.
    - by intros (? & _).
    - by intros (u & ? & _). }
  destruct (WeakDecode w) as [cfg [err|]].
  { cbn. split; [right; eauto|]. split; [done|]. split; split; try done.
    - by intros (_ & ? & _).
    - by intros (u & ? & _). }
  set (cfg' := if decide ("" = Charset cfg) then _ else cfg).
  destruct (CreateDB w (GetDBUri w cfg')) as [err|] eqn:Hcreate.
  { cbn. split; [right; eauto|]. split; [done|]. split; split; try done.
    - intros (_ & _ & Hc & _). specialize (Hc _ eq_refl). congruence.
    - intros (u & [= <-] & Hc). congruence. }
  destruct (ShowDatabases w) as [dbs [err|]].
  { cbn. split; [right; eauto|]. split; [done|]. split; split; try done.
    - by intros (_ & _ & _ & ? & _).
    - intros _. eauto. }
  pose proof (schemas_loop_run dbs []) as Hloop.
  destruct (schemas_loop dbs []) as [err|schemas].
  { destruct Hloop as (before & db & after & -> & Herr & Hok).
    cbn. split; [right; eauto|]. split; [done|]. split; split; try done.
    - intros (_ & _ & _ & _ & Hall). apply Forall_app in Hall as [_ Hall].
      apply Forall_cons in Hall as [Hall _]. congruence.
    - intros _. eauto. }
  destruct Hloop as [Hok ->]. cbn. split; [by left|]. split; [done|].
  split; split; try done.
  - intros _. repeat split; try done. by intros u [= <-].
  - intros _. eauto.
Qed.

End handler.

(** a server with the schemas [shop] (a table and a view) and [empty], and
    one on which the tables of the second schema cannot be listed *)
Definition config : ConnectionConfig :=
  {| Host := "127.0.0.1"; Port := 3306; User := "root"; Password := ""; Charset := "" |}.

Definition server (second : option error) : World :=
  {| Bind := None;
     WeakDecode := (config, None);
     GetDBUri := λ c, User c +:+ "@" +:+ Host c +:+ "?charset=" +:+ Charset c;
     CreateDB := λ _, None;
     ShowDatabases := (["shop"; "empty"], None);
     ShowTables := λ db,
       if decide (db = "shop")
       then ([ {| TableName := "orders"; TableType := "BASE TABLE" |};
               {| TableName := "totals"; TableType := "VIEW" |} ], None)
       else ([], second) |}.

Example ListDatabaseSchemasV2_lists :
  ListDatabaseSchemasV2 Where.ToLower_ascii (server None) =
  {| status := 200;
     written := ListDatabaseSchemasRespV2
       [ {| SchemaName := "shop"; Tables := [ {| ti_TableName := "orders" |} ] |};
         {| SchemaName := "empty"; Tables := [] |} ] None;
     uri := Some "root@127.0.0.1?charset=utf8";
     closed := true |}.
Proof. reflexivity. Qed.

Example ListDatabaseSchemasV2_fails_as_a_whole :
  ListDatabaseSchemasV2 Where.ToLower_ascii (server (Some (Errorf "access denied"))) =
  {| status := 500;
     written := BuildBaseResp (Some (Errorf "showtables failed: access denied"));
     uri := Some "root@127.0.0.1?charset=utf8";
     closed := true |}.
Proof. reflexivity. Qed.

End Schemas.

(** ** Column options: [IsAllInOptions] and [HasOneInOptions] (package
    inspector), on the options of a column read out of their slice *)

Module Options.
Import GoSlice Merge.

Definition ColumnOptionType_code (tp : ColumnOptionType) : nat :=
  match tp with
  | ColumnOptionNoOption => 0
  | ColumnOptionPrimaryKey => 1
  | ColumnOptionNotNull => 2
  | ColumnOptionAutoIncrement => 3
  | ColumnOptionDefaultValue => 4
  | ColumnOptionUniqKey => 5
  | ColumnOptionNull => 6
  | ColumnOptionOnUpdate => 7
  | ColumnOptionFulltext => 8
  | ColumnOptionComment => 9
  | ColumnOptionGenerated => 10
  | ColumnOptionReference => 11
  end.

Definition ColumnOptionType_of_code (n : nat) : option ColumnOptionType :=
  match n with
  | 0 => Some ColumnOptionNoOption
  | 1 => Some ColumnOptionPrimaryKey
  | 2 => Some ColumnOptionNotNull
  | 3 => Some ColumnOptionAutoIncrement
  | 4 => Some ColumnOptionDefaultValue
  | 5 => Some ColumnOptionUniqKey
  | 6 => Some ColumnOptionNull
  | 7 => Some ColumnOptionOnUpdate
  | 8 => Some ColumnOptionFulltext
  | 9 => Some ColumnOptionComment
  | 10 => Some ColumnOptionGenerated
  | 11 => Some ColumnOptionReference
  | _ => None
  end.

#[global] Instance ColumnOptionType_countable : Countable ColumnOptionType.
Proof.
  apply (inj_countable ColumnOptionType_code ColumnOptionType_of_code).
  by intros [].
Defined.

(** [op.Tp] behind the pointer [op] *)
Definition Tp_of (op : option ColumnOption) : go ColumnOptionType :=
  match op with
  | Some o => Yields (co_Tp o)
  | None => Panics NilDereference
  end.

(** the inner loop of [IsAllInOptions]: [for _, op := range Options] *)
Fixpoint mark (tp : ColumnOptionType) (Options : list (option ColumnOption))
    (exists_ : gmap ColumnOptionType bool) : go (gmap ColumnOptionType bool) :=
  match Options with
  | [] => Yields exists_
  | op :: rest =>
      match Tp_of op with
      | Panics k => Panics k
      | Yields t =>
          mark tp rest (if decide (tp = t) then <[tp := true]> exists_ else exists_)
      end
  end.

(** the first loop: [for _, tp := range opTp] *)
Fixpoint mark_all (opTp : list ColumnOptionType) (Options : list (option ColumnOption))
    (exists_ : gmap ColumnOptionType bool) : go (gmap ColumnOptionType bool) :=
  match opTp with
  | [] => Yields exists_
  | tp :: rest =>
      match mark tp Options exists_ with
      | Panics k => Panics k
      | Yields exists_ => mark_all rest Options exists_
      end
  end.

(** the second loop: [false] at the first type that is not a key *)
Fixpoint all_marked (opTp : list ColumnOptionType)
    (exists_ : gmap ColumnOptionType bool) : bool :=
  match opTp with
  | [] => true
  | tp :: rest =>
      match exists_ !! tp with
      | None => false
      | Some _ => all_marked rest exists_
      end
  end.

(** [IsAllInOptions(Options, opTp...)] *)
Definition IsAllInOptions (Options : list (option ColumnOption))
    (opTp : list ColumnOptionType) : go bool :=
  match mark_all opTp Options ∅ with
  | Panics k => Panics k
  | Yields exists_ => Yields (all_marked opTp exists_)
  end.

(** the inner loop of [HasOneInOptions]: whether it has returned [true] *)
Fixpoint has (tp : ColumnOptionType) (Options : list (option ColumnOption)) : go bool :=
  match Options with
  | [] => Yields false
  | op :: rest =>
      match Tp_of op with
      | Panics k => Panics k
      | Yields t => if decide (tp = t) then Yields true else has tp rest
      end
  end.

(** [HasOneInOptions(Options, opTp...)] *)
Fixpoint HasOneInOptions (Options : list (option ColumnOption))
    (opTp : list ColumnOptionType) : go bool :=
  match opTp with
  | [] => Yields false
  | tp :: rest =>
      match has tp Options with
      | Panics k => Panics k
      | Yields true => Yields true
      | Yields false => HasOneInOptions Options rest
      end
  end.

(** a slice of options without a nil pointer *)
Definition pointers (ops : list ColumnOption) : list (option ColumnOption) :=
  Some <$> ops.

(** the column has an option of type [tp] *)
Definition typed (ops : list ColumnOption) (tp : ColumnOptionType) : Prop :=
  Exists (λ op, tp = co_Tp op) ops.

#[global] Instance typed_dec ops tp : Decision (typed ops tp).
Proof. unfold typed. apply _. Defined.

Definition not_null : ColumnOption := {| co_Tp := ColumnOptionNotNull; co_Expr := "" |}.
Definition auto_increment : ColumnOption :=
  {| co_Tp := ColumnOptionAutoIncrement; co_Expr := "" |}.

(** *** Facts *)

Lemma mark_run tp ops : ∀ m,
  mark tp (pointers ops) m =
  Yields (if bool_decide (typed ops tp) then <[tp := true]> m else m).
Proof.
  unfold pointers, typed. induction ops as [|op ops IH]; intros m; cbn [mark fmap list_fmap].
  { rewrite bool_decide_false; [done|]. by intros ?%Exists_nil. }
  cbn [Tp_of]. change (list_fmap _ _ Some ops) with (Some <$> ops). rewrite IH.
  f_equal. destruct (decide (tp = co_Tp op)) as [Heq|Hne].
  - rewrite (bool_decide_true (Exists _ (op :: ops))) by (by left).
    case_bool_decide; [by rewrite insert_insert_eq|done].
  - apply (f_equal (λ b : bool, if b then _ else _)). apply bool_decide_ext.
    rewrite Exists_cons. split; [by right|by intros [?|?]].
Qed.

Lemma mark_all_run ops tps : ∀ m,
  ∃ m', mark_all tps (pointers ops) m = Yields m' ∧
        ∀ tp, m' !! tp =
              if bool_decide (tp ∈ tps ∧ typed ops tp) then Some true else m !! tp.
Proof.
  induction tps as [|t tps IH]; intros m; cbn [mark_all].
  { exists m. split; [done|]. intros tp. rewrite bool_decide_false; [done|].
    by intros [?%elem_of_nil _]. }
  rewrite mark_run.
  destruct (IH (if bool_decide (typed ops t) then <[t := true]> m else m))
    as (m' & -> & Hm').
  exists m'. split; [done|]. intros tp. rewrite Hm'.
  destruct (decide (tp ∈ tps ∧ typed ops tp)) as [HA|HA].
  { rewrite (bool_decide_true (tp ∈ tps ∧ _)) by done.
    rewrite bool_decide_true; [done|]. destruct HA. split; [by right|done]. }
  rewrite (bool_decide_false (tp ∈ tps ∧ _)) by done.
  destruct (decide (tp = t)) as [->|Hne].
  - destruct (decide (typed ops t)) as [HB|HB].
    + rewrite (bool_decide_true (typed ops t)) by done.
      rewrite bool_decide_true by (split; [left|done]). by rewrite lookup_insert_eq.
    + rewrite (bool_decide_false (typed ops t)) by done.
      rewrite bool_decide_false; [done|]. by intros [_ ?].
  - rewrite (bool_decide_false (tp ∈ t :: tps ∧ _)).
    + case_bool_decide; [by rewrite lookup_insert_ne|done].
    + intros [[?|?]%elem_of_cons ?]; [done|]. by apply HA.
Qed.

Lemma all_marked_iff tps m :
  all_marked tps m = true <-> ∀ tp, tp ∈ tps -> is_Some (m !! tp).
Proof.
  induction tps as [|t tps IH]; cbn [all_marked].
  { split; [|done]. by intros _ tp ?%elem_of_nil. }
  destruct (m !! t) as [b|] eqn:Ht.
  - rewrite IH. split.
    + intros H tp [->|Hin]%elem_of_cons; [by rewrite Ht|by apply H].
    + intros H tp Hin. apply H. by right.
  - split; [done|]. intros H. specialize (H t (list_elem_of_here _ _)).
    rewrite Ht in H. by destruct H.
Qed.

Lemma has_run tp ops :
  has tp (pointers ops) = Yields (bool_decide (typed ops tp)).
Proof.
  unfold pointers, typed. induction ops as [|op ops IH]; cbn [has fmap list_fmap Tp_of].
  { rewrite bool_decide_false; [done|]. by intros ?%Exists_nil. }
  change (list_fmap _ _ Some ops) with (Some <$> ops).
  destruct (decide (tp = co_Tp op)) as [Heq|Hne].
  - rewrite bool_decide_true; [done|]. by left.
  - rewrite IH. f_equal. apply bool_decide_ext. rewrite Exists_cons. split; [by right|by intros [?|?]].
Qed.

Lemma HasOneInOptions_run ops tps :
  HasOneInOptions (pointers ops) tps = Yields (bool_decide (Exists (typed ops) tps)).
Proof.
  induction tps as [|t tps IH]; cbn [HasOneInOptions].
  { rewrite bool_decide_false; [done|]. by intros ?%Exists_nil. }
  rewrite has_run. destruct (decide (typed ops t)) as [Ht|Ht].
  - rewrite (bool_decide_true (typed ops t)) by done.
    rewrite bool_decide_true; [done|]. by left.
  - rewrite (bool_decide_false (typed ops t)) by done. rewrite IH. f_equal. apply bool_decide_ext. rewrite Exists_cons. split; [by right|by intros [?|?]].
Qed.

Lemma IsAllInOptions_run ops tps :
  IsAllInOptions (pointers ops) tps = Yields (bool_decide (Forall (typed ops) tps)).
Proof.
  unfold IsAllInOptions. destruct (mark_all_run ops tps ∅) as (m & -> & Hm).
  f_equal. apply eq_true_iff_eq. rewrite all_marked_iff, bool_decide_eq_true, Forall_forall.
  split; intros H tp Hin; specialize (H tp Hin).
  - rewrite Hm in H. case_bool_decide as Hd; [by destruct Hd|].
    rewrite lookup_empty in H. by destruct H.
  - rewrite Hm, bool_decide_true; [by eexists|done].
Qed.

Lemma elems_length {A} (st : list (list A)) s l :
  elems st s = Yields l -> length l = s_len s.
Proof.
  unfold elems. destruct (s_ptr s) as [|a off].
  - case_decide; [|done]. intros [= <-]. done.
  - destruct (st !! a) as [arr|]; [|done]. case_decide; [|done]. intros [= <-].
    rewrite length_take, length_drop. lia.
Qed.

Lemma elems_index {A} (st : list (list A)) s l i x :
  elems st s = Yields l -> l !! i = Some x -> index st s i = Yields x.
Proof.
  intros He Hi. pose proof (elems_length _ _ _ He) as Hlen.
  apply lookup_lt_Some in Hi as Hlt. revert He. unfold elems, index.
  rewrite (decide_True (P := i < s_len s)) by lia.
  destruct (s_ptr s) as [|a off].
  - case_decide; [lia|done].
  - destruct (st !! a) as [arr|]; [|done]. case_decide; [|done]. intros [= <-].
    cbn. rewrite lookup_take_lt, lookup_drop in Hi by lia. by rewrite Hi.
Qed.

(** the function of the merge, on a slice whose elements are [l], is the
    function on [l] *)
Lemma HasOneInOptions_of_slice {R} (s : slice) (opTp : list ColumnOptionType)
    (h : heap) (l : list (option ColumnOption)) :
  elems (optArrays h) s = Yields l ->
  Merge.HasOneInOptions (R:=R) s opTp h =
  match HasOneInOptions l opTp with
  | Panics k => Panicked k
  | Yields b => Normal b h
  end.
Proof.
  intros He. pose proof (elems_length _ _ _ He) as Hlen.
  assert (Hinner : ∀ tp n k, k + n = s_len s ->
    for_each (R:=bool) (seq k n) (λ i,
       op ← opts_index s i; o ← pointee op;
       if decide (tp = co_Tp o) then return_ true else mret ()) h =
    match has tp (drop k l) with
    | Panics p => Panicked p
    | Yields true => Returned true h
    | Yields false => Normal () h
    end).
  { intros tp n. induction n as [|n IH]; intros k Hk.
    { rewrite drop_ge by lia. done. }
    cbn [seq for_each].
    destruct (lookup_lt_is_Some_2 l k) as [x Hx]; [lia|].
    rewrite (drop_S _ _ _ Hx). cbn [has].
    unfold mbind at 1, M_bind. unfold mbind at 1, M_bind.
    unfold opts_index, eval. rewrite (elems_index _ _ _ _ _ He Hx).
    destruct x as [o|]; cbn [Tp_of pointee].
    - unfold mbind, M_bind, mret, M_ret. 
      destruct (decide (tp = co_Tp o)); [done|]. cbn. apply IH. lia.
    - done. }
  unfold Merge.HasOneInOptions, call.
  assert (Houter : ∀ tps,
    (for_each (R:=bool) tps (λ tp,
       for_each (seq 0 (s_len s)) (λ i,
         op ← opts_index s i; o ← pointee op;
         if decide (tp = co_Tp o) then return_ true else mret ())) ;;
     return_ false) h =
    match HasOneInOptions l tps return result bool bool with
    | Panics k => Panicked k
    | Yields b => Returned b h
    end).
  { induction tps as [|tp tps IH]; [done|].
    cbn [for_each HasOneInOptions] in *.
    unfold mbind, M_bind in *. rewrite (Hinner tp (s_len s) 0) by lia.
    rewrite drop_0. destruct (has tp l) as [p|[]]; try done. }
  rewrite Houter. by destruct (HasOneInOptions l opTp).
Qed.

(** X27.  On options without a nil pointer neither function panics:
    [IsAllInOptions] says that every one of the types is the type of some
    option, [HasOneInOptions] that one of them is.  So with no type to look
    for the first is true and the second false; with at least one, all
    implies one. *)
Theorem IsAllInOptions_HasOneInOptions (ops : list ColumnOption)
    (opTp : list ColumnOptionType) :
  ∃ all one,
    IsAllInOptions (pointers ops) opTp = Yields all ∧
    HasOneInOptions (pointers ops) opTp = Yields one ∧
    (all = true <-> Forall (typed ops) opTp) ∧
    (one = true <-> Exists (typed ops) opTp) ∧
    (opTp = [] -> all = true ∧ one = false) ∧
    (opTp ≠ [] -> all = true -> one = true).
Proof.
  eexists _, _. rewrite IsAllInOptions_run, HasOneInOptions_run.
  split; [done|]. split; [done|].
  split; [apply bool_decide_eq_true|]. split; [apply bool_decide_eq_true|]. split.
  - intros ->. split.
    + by apply bool_decide_eq_true.
    + apply bool_decide_eq_false. by intros ?%Exists_nil.
  - intros Hne Hall%bool_decide_eq_true. apply bool_decide_eq_true.
    destruct opTp as [|tp rest]; [done|].
    apply Forall_cons in Hall as [Htp _]. by left.
Qed.

(** X28.  A nil pointer among the options is read as soon as there is a type
    to compare it with.  [IsAllInOptions] reads every option and panics at
    the nil pointer wherever it is; [HasOneInOptions] stops at the first
    option of the first type, so it panics only if no option before the nil
    pointer has that type.  With no type to look for nothing is read. *)
Theorem nil_option_panics (before after : list ColumnOption)
    (tp : ColumnOptionType) (opTp : list ColumnOptionType) :
  let Options := pointers before ++ None :: pointers after in
  IsAllInOptions Options (tp :: opTp) = Panics NilDereference ∧
  HasOneInOptions Options (tp :: opTp)
    = (if bool_decide (typed before tp) then Yields true else Panics NilDereference) ∧
  IsAllInOptions Options [] = Yields true ∧
  HasOneInOptions Options [] = Yields false.
Proof.
  cbv zeta. repeat split; try done.
  - unfold IsAllInOptions. cbn [mark_all].
    assert (Hmark : ∀ m, mark tp (pointers before ++ None :: pointers after) m
                         = Panics NilDereference).
    { unfold pointers. induction before as [|op ops IH]; intros m; [done|].
      cbn [fmap list_fmap app mark Tp_of]. apply IH. }
    by rewrite Hmark.
  - cbn [HasOneInOptions].
    assert (Hhas : has tp (pointers before ++ None :: pointers after)
                   = if bool_decide (typed before tp) then Yields true
                     else Panics NilDereference).
    { unfold pointers, typed. induction before as [|op ops IH].
      - rewrite bool_decide_false by (by intros ?%Exists_nil). done.
      - cbn [fmap list_fmap app has Tp_of].
        destruct (decide (tp = co_Tp op)) as [Heq|Hne].
        + rewrite bool_decide_true; [done|]. by left.
        + change (list_fmap _ _ Some ops) with (Some <$> ops).
          change (list_fmap _ _ Some after) with (Some <$> after).
          rewrite IH. apply (f_equal (λ b : bool, if b then _ else _)).
          apply bool_decide_ext. rewrite Exists_cons. split; [by right|by intros [?|?]]. }
    rewrite Hhas. by case_bool_decide.
Qed.

Example IsAllInOptions_not_null_auto_increment :
  IsAllInOptions (pointers [not_null; auto_increment])
    [ColumnOptionAutoIncrement; ColumnOptionNotNull] = Yields true ∧
  IsAllInOptions (pointers [not_null])
    [ColumnOptionAutoIncrement; ColumnOptionNotNull] = Yields false ∧
  HasOneInOptions (pointers [not_null])
    [ColumnOptionAutoIncrement; ColumnOptionNotNull] = Yields true.
Proof. repeat split; vm_compute; reflexivity. Qed.

End Options.
